(** * bazel-remote: the disk cache engine (cache/disk/disk.go)

    A shallow embedding of the filesystem-backed cache: the size-bounded
    LRU index, the upload state machine of [Put], the lookup and
    read-through paths of [Get], [Contains], startup restoration and
    the ActionResult validator.

    Conventions.
    - Go's [int64] sizes are [Z]; no size in the engine comes near 2^63,
      so no wrap-around is written out.
    - Go strings and byte slices are [string] and [list byte].
    - The cache directory is a finite map from path to file contents.
    - Operating system failures are inputs: an [IOEnv] says which system
      call fails on which path. *)

From Stdlib Require Import ZArith Lia Strings.Byte.
From stdpp Require Import gmap strings list fin_maps sorting.

#[local] Open Scope Z_scope.

(** ** Errors *)

Inductive Syscall : Set :=
| SysMkdirAll | SysWalk | SysCreate | SysWrite | SysSync | SysClose
| SysRename | SysStat | SysOpen | SysRead.

Inductive error : Set :=
| ErrInvalidHashSize (len : nat)
    (* fmt.Errorf("Invalid hash size: %d, expected: %d", ...) *)
| ErrInsufficientStorage
    (* &cache.Error{Code: http.StatusInsufficientStorage, ...} *)
| ErrHashMismatch (key actualHash : string)
    (* fmt.Errorf("hashsums don't match. Expected %s, found %s", ...) *)
| ErrSizeMismatch (expected found : Z)
    (* fmt.Errorf("sizes don't match. Expected %d, found %d", ...) *)
| ErrTreeSize (expected found : Z)
    (* fmt.Errorf("expected %d bytes, found %d", ...) *)
| ErrUnmarshal
    (* the error of proto.Unmarshal *)
| ErrOS (call : Syscall) (path : string)
    (* the error of a failed system call *)
| ErrStream (msg : string).
    (* the error of an io.Reader or of the proxy *)

(** ** The size-bounded LRU index *)

Module LRU.

Definition Key := string.

(** [lruItem] of disk.go.  The index stores [*lruItem] pointers and
    [Put] later writes through its own pointer; [ref] is the identity
    of the allocated object. *)
Record lruItem : Set := mkItem {
  size : Z;
  committed : bool;
  ref : nat
}.

Definition entry : Set := (Key * lruItem)%type.

(** Modelled from the spec: the [SizedLRU] type and its methods (the
    file that defines them is not among the sources).  The entries
    are kept in recency order, least recently used first. *)
Record SizedLRU : Set := mkLRU {
  entries : list entry;
  currentSize : Z;
  maxSize : Z
}.

(** Modelled from the spec: [NewSizedLRU], the empty index; the
    eviction callback it is given is applied by the engine to the
    entries [Add] reports as evicted. *)
Definition NewSizedLRU (maxSizeBytes : Z) : SizedLRU :=
  {| entries := []; currentSize := 0; maxSize := maxSizeBytes |}.

Definition hasKey (k : Key) (e : entry) : bool := String.eqb (fst e) k.

Definition lookup (k : Key) (es : list entry) : option lruItem :=
  snd <$> List.find (hasKey k) es.

Definition without (k : Key) (es : list entry) : list entry :=
  List.filter (fun e => negb (hasKey k e)) es.

Definition totalSize (es : list entry) : Z :=
  foldr (fun e acc => size (snd e) + acc) 0 es.

Definition sizeUnder (k : Key) (es : list entry) : Z :=
  totalSize (List.filter (hasKey k) es).

(** Modelled from the spec: [remove(key)]: "if present, subtracts size
    and deletes; the eviction callback is NOT invoked". *)
Definition Remove (c : SizedLRU) (k : Key) : SizedLRU :=
  {| entries := without k (entries c);
     currentSize := currentSize c - sizeUnder k (entries c);
     maxSize := maxSize c |}.

(** Modelled from the spec: [get(key)]: "if present, moves the entry to
    the most-recently-used end and returns a stable reference to the
    value". *)
Definition Get (c : SizedLRU) (k : Key) : option lruItem * SizedLRU :=
  match lookup k (entries c) with
  | Some it =>
      (Some it,
       {| entries := without k (entries c) ++ [(k, it)];
          currentSize := currentSize c;
          maxSize := maxSize c |})
  | None => (None, c)
  end.

(** Modelled from the spec: the eviction loop of [add], "while
    current_size + item.size() > max_size, evict the least-recently-used
    entry (size subtracted, callback invoked)".  It stops when nothing
    is left to evict.
    Returns the evicted entries in eviction order, the entries kept
    and the size that remains. *)
Fixpoint evict (es : list entry) (cur need max : Z)
  : list entry * list entry * Z :=
  match es with
  | [] => ([], [], cur)
  | e :: es' =>
      if cur + need >? max then
        let '(gone, kept, cur') := evict es' (cur - size (snd e)) need max in
        (e :: gone, kept, cur')
      else ([], es, cur)
  end.

(** Modelled from the spec: [add(key, item) -> bool]: "if key already
    exists, the existing entry is removed first (its size subtracted,
    eviction callback NOT invoked for this overwrite).  Then, while
    current_size + item.size() > max_size, evict the least-recently-used
    entry.  If after eviction item.size() > max_size, the operation
    fails and returns false without adding.  Otherwise the item is
    inserted at the most-recently-used end; current_size += item.size();
    returns true."  The second component lists the entries handed to
    the eviction callback, in order. *)
Definition Add (c : SizedLRU) (k : Key) (v : lruItem)
  : SizedLRU * list entry * bool :=
  let c1 := Remove c k in
  let '(gone, kept, cur) :=
    evict (entries c1) (currentSize c1) (size v) (maxSize c) in
  if size v >? maxSize c then
    ({| entries := kept; currentSize := cur; maxSize := maxSize c |},
     gone, false)
  else
    ({| entries := kept ++ [(k, v)];
        currentSize := cur + size v;
        maxSize := maxSize c |},
     gone, true).

(** Modelled from the spec: "[max_size() -> int], [current_size() ->
    int], [len() -> int] are O(1) reads". *)
Definition MaxSize (c : SizedLRU) : Z := maxSize c.
Definition CurrentSize (c : SizedLRU) : Z := currentSize c.
Definition Len (c : SizedLRU) : nat := length (entries c).

(** A well-formed index: the sizes add up to [currentSize], which is
    within [maxSize]; no size is negative and no key occurs twice. *)
Record wf (l : SizedLRU) : Prop := mkWf {
  wf_sum : totalSize (entries l) = currentSize l;
  wf_bound : currentSize l <= maxSize l;
  wf_nonneg : Forall (fun e : entry => 0 <= size (snd e)) (entries l);
  wf_nodup : NoDup (entries l).*1
}.

End LRU.

(** ** The environment: readers, the cache directory, the proxy *)

(** An [io.Reader]: the bytes it yields, then end of stream or an error. *)
Record Reader : Set := mkReader {
  rd_data : list byte;
  rd_err : option string
}.

(** The reader once it has been read to its end. *)
Definition exhausted (r : Reader) : Reader :=
  {| rd_data := []; rd_err := rd_err r |}.

(** [io.Copy(ioutil.Discard, r)]. *)
Definition io_Discard (r : Reader) : Reader := exhausted r.

(** Which system call fails on which path. *)
Definition IOEnv : Set := Syscall -> string -> bool.

Definition no_faults : IOEnv := fun _ _ => false.

Definition fault (env : IOEnv) (call : Syscall) (path : string)
  : option error :=
  if env call path then Some (ErrOS call path) else None.

(** No system call fails on [path]. *)
Definition healthy (env : IOEnv) (path : string) : Prop :=
  forall call, env call path = false.

Abbreviation FS := (gmap string (list byte)).

Definition os_Create (env : IOEnv) (path : string) (fs : FS) : error + FS :=
  match fault env SysCreate path with
  | Some e => inl e
  | None => inr (<[path := []]> fs)
  end.

(** [os.Remove]: unlinking a file of the cache directory is taken to
    succeed; every call whose result the engine discards is modelled by
    it. *)
Definition os_Remove (path : string) (fs : FS) : FS := delete path fs.

Definition os_Rename (env : IOEnv) (src dst : string) (fs : FS) : error + FS :=
  match fault env SysRename src with
  | Some e => inl e
  | None =>
      match fs !! src with
      | Some data => inr (<[dst := data]> (delete src fs))
      | None => inl (ErrOS SysRename src)
      end
  end.

(** [os.Stat(path)], returning [fileInfo.Size()]. *)
Definition os_Stat (env : IOEnv) (path : string) (fs : FS) : error + Z :=
  match fault env SysStat path with
  | Some e => inl e
  | None =>
      match fs !! path with
      | Some data => inr (Z.of_nat (length data))
      | None => inl (ErrOS SysStat path)
      end
  end.

(** [os.Open(path)]: the handle reads the contents the file has when it
    is opened, whatever is later renamed over the path. *)
Definition os_Open (env : IOEnv) (path : string) (fs : FS) : error + Reader :=
  match fault env SysOpen path with
  | Some e => inl e
  | None =>
      match fs !! path with
      | Some data =>
          inr {| rd_data := data;
                 rd_err := if env SysRead path then Some "read" else None |}
      | None => inl (ErrOS SysOpen path)
      end
  end.

(** [io.Copy(f, r)] into the freshly created file at [path]: the bytes
    copied, the error, the reader afterwards and the directory.  A failing
    write is taken to fail before anything is consumed. *)
Definition io_Copy (env : IOEnv) (path : string) (r : Reader) (fs : FS)
  : Z * option error * Reader * FS :=
  match fault env SysWrite path with
  | Some e => (0, Some e, r, fs)
  | None =>
      (Z.of_nat (length (rd_data r)), ErrStream <$> rd_err r, exhausted r,
       <[path := rd_data r]> fs)
  end.

(** [ioutil.ReadAll(r)]. *)
Definition ioutil_ReadAll (r : Reader) : error + list byte :=
  match rd_err r with
  | Some msg => inl (ErrStream msg)
  | None => inr (rd_data r)
  end.

(** Modelled from the spec: [cache.EntryKind] and its [String] method,
    "kind ∈ {cas, ac, raw}" (the declaring file is not among the
    sources). *)
Inductive EntryKind : Set := AC | CAS | RAW.

Definition EntryKind_String (kind : EntryKind) : string :=
  match kind with AC => "ac" | CAS => "cas" | RAW => "raw" end.

Definition EntryKind_eqb (a b : EntryKind) : bool :=
  match a, b with
  | AC, AC | CAS, CAS | RAW, RAW => true
  | _, _ => false
  end.

(** Modelled from the spec: the upstream [cache.CacheProxy] (its
    declaration is not among the sources), "get(kind, digest) ->
    (reader, size) | none | error, put(kind, digest, size, reader) ->
    error, contains(kind, digest) -> (bool, size)".  The record holds
    the answers of [Get] and [Contains]; [Put] answers nothing the
    engine reads. *)
Record CacheProxy : Set := mkProxy {
  proxy_Get : EntryKind -> string -> option Reader * Z * option string;
  proxy_Contains : EntryKind -> string -> bool * Z
}.

(** What the engine does that leaves the directory and the index as they
    are: files inspected, proxy requests, the two counters. *)
Inductive Event : Set :=
| EvStat (path : string)
| EvOpen (path : string)
| EvProxyGet (kind : EntryKind) (hash : string)
| EvProxyPut (kind : EntryKind) (hash : string) (size : Z)
    (body : list byte)
| EvProxyContains (kind : EntryKind) (hash : string)
| EvCacheHit
| EvCacheMiss.

(** ** The messages the validator walks

    The fields of the Remote Execution API messages that
    [GetValidatedActionResult] reads.  A message-typed field is a Go
    pointer and may be nil. *)

Record Digest : Set := mkDigest {
  Hash : string;
  SizeBytes : Z
}.

Record OutputFile : Set := mkOutputFile {
  file_Contents : list byte;
  file_Digest : option Digest
}.

Record OutputDirectory : Set := mkOutputDirectory {
  TreeDigest : option Digest
}.

Record FileNode : Set := mkFileNode {
  node_Digest : option Digest
}.

Record Directory : Set := mkDirectory {
  Files : list FileNode
}.

Record Tree : Set := mkTree {
  Root : option Directory;
  Children : list Directory
}.

Record ActionResult : Set := mkActionResult {
  OutputFiles : list OutputFile;
  OutputDirectories : list OutputDirectory;
  StdoutDigest : option Digest;
  StderrDigest : option Digest
}.

(** [GetFiles] is nil-safe. *)
Definition GetFiles (d : option Directory) : list FileNode :=
  match d with Some d => Files d | None => [] end.

(** What [os.FileInfo] gives for a file found at startup. *)
Record FileInfo : Set := mkFileInfo {
  fi_Size : Z;
  fi_atime : Z
}.

Record nameAndInfo : Set := mkNameAndInfo {
  name : string;
  info : FileInfo
}.

(** The order of [loadExistingFiles]: [b] was not accessed before [a]. *)
Definition notAfter (a b : nameAndInfo) : Prop :=
  fi_atime (info a) ≤ fi_atime (info b).

#[global] Instance notAfter_dec (a b : nameAndInfo) : Decision (notAfter a b).
Proof. unfold notAfter. apply _. Defined.

(** ** The disk cache *)

Module Disk.
Import LRU.

(** [DiskCache] with the world it acts on: the contents of the cache
    directory, the calls made so far, and the next object identity. *)
Record DiskCache : Set := mkCache {
  dir : string;
  proxy : option CacheProxy;
  lru : SizedLRU;
  fs : FS;
  trace : list Event;
  nextRef : nat
}.

Definition set_lru (c : DiskCache) (l : SizedLRU) : DiskCache :=
  {| dir := dir c; proxy := proxy c; lru := l; fs := fs c;
     trace := trace c; nextRef := nextRef c |}.

Definition set_fs (c : DiskCache) (f : FS) : DiskCache :=
  {| dir := dir c; proxy := proxy c; lru := lru c; fs := f;
     trace := trace c; nextRef := nextRef c |}.

Definition emit (c : DiskCache) (ev : Event) : DiskCache :=
  {| dir := dir c; proxy := proxy c; lru := lru c; fs := fs c;
     trace := trace c ++ [ev]; nextRef := nextRef c |}.

(** Allocating an [lruItem]. *)
Definition alloc (c : DiskCache) : nat * DiskCache :=
  (nextRef c,
   {| dir := dir c; proxy := proxy c; lru := lru c; fs := fs c;
      trace := trace c; nextRef := S (nextRef c) |}).

(** [sha256.Size * 2]: two hex characters per byte. *)
Definition sha256HashStrSize : nat := 32 * 2.

(** [filepath.Join] on elements that need no cleaning. *)
Definition filepath_Join (a b : string) : string := a +:+ "/" +:+ b.

Definition cacheKey (kind : EntryKind) (hash : string) : string :=
  filepath_Join (EntryKind_String kind)
    (filepath_Join (String.substring 0 2 hash) hash).

Definition cacheFilePath (kind : EntryKind) (cacheDir : string)
    (hash : string) : string :=
  filepath_Join cacheDir (cacheKey kind hash).

(** The eviction callback built by [New]. *)
Definition onEvict (cacheDir : string) (files : FS) (e : entry) : FS :=
  let f := filepath_Join cacheDir (fst e) in
  if committed (snd e) then os_Remove f files
  else
    let tf := f +:+ ".tmp" in
    os_Remove f (os_Remove tf files).

(** [c.lru.Add] together with the callbacks it runs. *)
Definition lruAdd (c : DiskCache) (key : Key) (item : lruItem)
  : bool * DiskCache :=
  let '(l, gone, ok) := Add (lru c) key item in
  (ok, set_fs (set_lru c l) (foldl (onEvict (dir c)) (fs c) gone)).

(** [newItem.committed = true], through the pointer. *)
Definition commitRef (r : nat) (es : list entry) : list entry :=
  (fun e : entry =>
     if Nat.eqb (ref (snd e)) r
     then (fst e, {| size := size (snd e); committed := true;
                     ref := ref (snd e) |})
     else e) <$> es.

Definition commitItem (c : DiskCache) (r : nat) : DiskCache :=
  set_lru c {| entries := commitRef r (entries (lru c));
               currentSize := currentSize (lru c);
               maxSize := maxSize (lru c) |}.

(** The item the index holds under [key]. *)
Definition indexed (c : DiskCache) (key : Key) : option lruItem :=
  lookup key (entries (lru c)).

(** An upload or a proxy fetch of [key] is in flight: the index holds
    the key, uncommitted. *)
Definition inFlight (c : DiskCache) (key : Key) : bool :=
  match indexed c key with
  | Some it => negb (committed it)
  | None => false
  end.

(** The index vouches for [key]: it holds the key, committed. *)
Definition vouches (c : DiskCache) (key : Key) : bool :=
  match indexed c key with
  | Some it => committed it
  | None => false
  end.

(** Nothing is in flight: every entry of the index is committed. *)
Definition quiescent (c : DiskCache) : bool :=
  forallb (fun e : entry => committed (snd e)) (entries (lru c)).




(** A [Get] result: reader (nil when absent), size, error. *)
Definition GetResult : Set := (option Reader * Z * option error)%type.

Definition notFound : GetResult := (None, -1, None).

Section Engine.

(** [hex.EncodeToString] of the SHA-256 of the bytes (Go's
    crypto/sha256 and encoding/hex). *)
Variable sha256_hex : list byte -> string.

(** *** Put *)

(** How the first critical section of [Put] ends. *)
Inductive Reservation : Set :=
| Accepted (newItem : nat)   (* lru.Add returned true *)
| OngoingUpload              (* the key is present, uncommitted *)
| TooBig.                    (* lru.Add returned false *)

(** [Put], from [c.mu.Lock()] to the [c.mu.Unlock()] that follows
    [c.lru.Add]. *)
Definition put_reserve (key : Key) (expectedSize : Z) (c : DiskCache)
  : Reservation * DiskCache :=
  let '(existingItem, l) := LRU.Get (lru c) key in
  let c := set_lru c l in
  let add :=
    let '(r, c) := alloc c in
    let newItem :=
      {| size := expectedSize; committed := false; ref := r |} in
    let '(ok, c) := lruAdd c key newItem in
    (if ok then Accepted r else TooBig, c) in
  match existingItem with
  | Some it => if negb (committed it) then (OngoingUpload, c) else add
  | None => add
  end.

(** [Put], from [io.Copy] to the final [return err]: the error, the
    flag [shouldCommit], the reader afterwards, the directory. *)
Definition put_stream (env : IOEnv) (kind : EntryKind) (hash : string)
    (key : Key) (expectedSize : Z) (tmpFilePath filePath : string)
    (r : Reader) (files : FS) : option error * bool * Reader * FS :=
  let '(bytesCopied, err, r', files) := io_Copy env tmpFilePath r files in
  match err with
  | Some e => (Some e, false, r', files)
  | None =>
      let actualHash := sha256_hex (rd_data r) in
      if EntryKind_eqb kind CAS && negb (String.eqb actualHash hash)
      then (Some (ErrHashMismatch key actualHash), false, r', files)
      else
        match fault env SysSync tmpFilePath with
        | Some e => (Some e, false, r', files)
        | None =>
            match fault env SysClose tmpFilePath with
            | Some e => (Some e, false, r', files)
            | None =>
                if negb (bytesCopied =? expectedSize)
                then (Some (ErrSizeMismatch expectedSize bytesCopied),
                      false, r', files)
                else
                  match os_Rename env tmpFilePath filePath files with
                  | inl e => (Some e, false, r', files)
                  | inr files' => (None, true, r', files')
                  end
            end
        end
  end.

(** [Put], from [os.Create] to the return, with the deferred function
    registered second (it runs first): the temp file is unlinked
    unless it was moved. *)
Definition put_upload (env : IOEnv) (kind : EntryKind) (hash : string)
    (expectedSize : Z) (r : Reader) (c : DiskCache)
  : option error * bool * Reader * DiskCache :=
  let filePath := cacheFilePath kind (dir c) hash in
  let tmpFilePath := filePath +:+ ".tmp" in
  match os_Create env tmpFilePath (fs c) with
  | inl e => (Some e, false, r, c)
  | inr files =>
      let '(err, shouldCommit, r', files) :=
        put_stream env kind hash (cacheKey kind hash) expectedSize
          tmpFilePath filePath r files in
      let files :=
        if shouldCommit then files else os_Remove tmpFilePath files in
      (err, shouldCommit, r', set_fs c files)
  end.

(** The deferred function of [Put] registered first (it runs last):
    commit or forget the item, then hand the file to the proxy. *)
Definition put_release (env : IOEnv) (kind : EntryKind) (hash : string)
    (expectedSize : Z) (newItem : nat) (shouldCommit : bool)
    (c : DiskCache) : DiskCache :=
  let key := cacheKey kind hash in
  let c :=
    if shouldCommit then commitItem c newItem
    else set_lru c (LRU.Remove (lru c) key) in
  match shouldCommit, proxy c with
  | true, Some _ =>
      let filePath := cacheFilePath kind (dir c) hash in
      let c := emit c (EvOpen filePath) in
      match os_Open env filePath (fs c) with
      | inr fr => emit c (EvProxyPut kind hash expectedSize (rd_data fr))
      | inl _ => c
      end
  | _, _ => c
  end.

(** [Put]: the error, the reader as the call leaves it, the cache. *)
Definition Put (env : IOEnv) (c : DiskCache) (kind : EntryKind)
    (hash : string) (expectedSize : Z) (r : Reader)
  : option error * Reader * DiskCache :=
  if negb (Nat.eqb (String.length hash) sha256HashStrSize) then
    (Some (ErrInvalidHashSize (String.length hash)), r, c)
  else
    let key := cacheKey kind hash in
    match put_reserve key expectedSize c with
    | (OngoingUpload, c) => (None, io_Discard r, c)
    | (TooBig, c) => (Some ErrInsufficientStorage, r, c)
    | (Accepted newItem, c) =>
        let '(err, shouldCommit, r, c) :=
          put_upload env kind hash expectedSize r c in
        (err, r,
         put_release env kind hash expectedSize newItem shouldCommit c)
    end.

(** [Put] gets past its first critical section with its item in the
    index. *)
Definition accepts (c : DiskCache) (kind : EntryKind) (hash : string)
    (expectedSize : Z) : bool :=
  Nat.eqb (String.length hash) sha256HashStrSize &&
  match (put_reserve (cacheKey kind hash) expectedSize c).1 with
  | Accepted _ => true
  | _ => false
  end.


(** *** Get *)

Definition availableOrTryProxy (key : Key) (c : DiskCache)
  : bool * bool * DiskCache :=
  let '(existingItem, l) := LRU.Get (lru c) key in
  let c := set_lru c l in
  match existingItem with
  | Some it =>
      let inProgress := negb (committed it) in
      (true && negb inProgress, false, c)
  | None =>
      match proxy c with
      | Some _ =>
          let '(r, c) := alloc c in
          let '(tryProxy, c) :=
            lruAdd c key {| size := 0; committed := false; ref := r |} in
          (false, tryProxy, c)
      | None => (false, false, c)
      end
  end.

(** [Get] once the proxy may be tried, up to its return: the result,
    [shouldCommit], [tmpFileCreated], [foundSize], the cache. *)
Definition get_fetch (env : IOEnv) (p : CacheProxy) (kind : EntryKind)
    (hash : string) (c : DiskCache)
  : GetResult * bool * bool * Z * DiskCache :=
  let filePath := cacheFilePath kind (dir c) hash in
  let tmpFilePath := filePath +:+ ".tmp" in
  let c := emit c (EvProxyGet kind hash) in
  let '(r, foundSize, err) := proxy_Get p kind hash in
  match err, r with
  | Some msg, _ =>
      ((None, -1, Some (ErrStream msg)), false, false, foundSize, c)
  | None, None => ((None, -1, None), false, false, foundSize, c)
  | None, Some r =>
      match os_Create env tmpFilePath (fs c) with
      | inl e => ((None, -1, Some e), false, false, foundSize, c)
      | inr files =>
          let '(written, err, _, files) :=
            io_Copy env tmpFilePath r files in
          let c := set_fs c files in
          match err with
          | Some e => ((None, -1, Some e), false, true, foundSize, c)
          | None =>
              if negb (written =? foundSize)
              then ((None, -1, None), false, true, foundSize, c)
              else
                match fault env SysSync tmpFilePath with
                | Some e =>
                    ((None, -1, Some e), false, true, foundSize, c)
                | None =>
                    match fault env SysClose tmpFilePath with
                    | Some e =>
                        ((None, -1, Some e), false, true, foundSize, c)
                    | None =>
                        match os_Rename env tmpFilePath filePath files
                        with
                        | inl e =>
                            ((None, -1, Some e), false, true,
                             foundSize, c)
                        | inr files' =>
                            let c :=
                              emit (set_fs c files') (EvOpen filePath) in
                            match os_Open env filePath files' with
                            | inr f2 =>
                                ((Some f2, foundSize, None), true, true,
                                 foundSize, c)
                            | inl e =>
                                ((None, -1, Some e), true, true,
                                 foundSize, c)
                            end
                        end
                    end
                end
          end
      end
  end.

(** The deferred function of [Get]: replace the placeholder by the
    committed item, or remove it and the temp file. *)
Definition get_release (kind : EntryKind) (hash : string)
    (shouldCommit tmpFileCreated : bool) (foundSize : Z)
    (c : DiskCache) : DiskCache :=
  let key := cacheKey kind hash in
  let tmpFilePath := cacheFilePath kind (dir c) hash +:+ ".tmp" in
  let c :=
    if shouldCommit then
      let '(r, c) := alloc c in
      snd (lruAdd c key
             {| size := foundSize; committed := true; ref := r |})
    else set_lru c (LRU.Remove (lru c) key) in
  if negb shouldCommit && tmpFileCreated
  then set_fs c (os_Remove tmpFilePath (fs c))
  else c.

Definition Get (env : IOEnv) (c : DiskCache) (kind : EntryKind)
    (hash : string) : GetResult * DiskCache :=
  if negb (Nat.eqb (String.length hash) sha256HashStrSize) then
    ((None, -1, Some (ErrInvalidHashSize (String.length hash))), c)
  else
    let key := cacheKey kind hash in
    let '(available, tryProxy, c) := availableOrTryProxy key c in
    if available then
      let blobPath := cacheFilePath kind (dir c) hash in
      let c := emit c (EvStat blobPath) in
      match os_Stat env blobPath (fs c) with
      | inr fileSize =>
          let c := emit c (EvOpen blobPath) in
          match os_Open env blobPath (fs c) with
          | inr f => ((Some f, fileSize, None), emit c EvCacheHit)
          | inl e => ((None, -1, Some e), emit c EvCacheMiss)
          end
      | inl e => ((None, -1, Some e), emit c EvCacheMiss)
      end
    else
      let c := emit c EvCacheMiss in
      match tryProxy, proxy c with
      | true, Some p =>
          let '(res, shouldCommit, tmpFileCreated, foundSize, c) :=
            get_fetch env p kind hash c in
          (res,
           get_release kind hash shouldCommit tmpFileCreated foundSize c)
      | _, _ => (notFound, c)
      end.

(** *** Contains *)

Definition Contains (c : DiskCache) (kind : EntryKind) (hash : string)
  : (bool * Z) * DiskCache :=
  if negb (Nat.eqb (String.length hash) sha256HashStrSize) then
    ((false, -1), c)
  else
    let '(val, l) := LRU.Get (lru c) (cacheKey kind hash) in
    let c := set_lru c l in
    let foundLocally :=
      match val with Some item => committed item | None => false end in
    let size :=
      match val with Some item => LRU.size item | None => -1 end in
    if foundLocally then ((true, size), c)
    else
      match proxy c with
      | Some p =>
          (proxy_Contains p kind hash,
           emit c (EvProxyContains kind hash))
      | None => ((false, -1), c)
      end.

(** What [Contains] answers when the index does not vouch for the key:
    the proxy's answer, or "absent" without a proxy. *)
Definition askProxy (c : DiskCache) (kind : EntryKind) (hash : string)
  : bool * Z :=
  match proxy c with
  | Some p => proxy_Contains p kind hash
  | None => (false, -1)
  end.

(** *** MaxSize, Stats *)

Definition MaxSize (c : DiskCache) : Z := LRU.MaxSize (lru c).

Definition Stats (c : DiskCache) : Z * nat :=
  (LRU.CurrentSize (lru c), LRU.Len (lru c)).

(** *** GetValidatedActionResult *)

(** [proto.Unmarshal] into an ActionResult and into a Tree; [None] is
    its error. *)
Variable unmarshalActionResult : list byte -> option ActionResult.
Variable unmarshalTree : list byte -> option Tree.

(** The outcomes of the validator: the result with its serialized
    value, the three nil values, an error, or the run-time panic of
    a nil pointer dereference. *)
Inductive Validated : Set :=
| Valid (result : ActionResult) (acdata : list byte)
| Missing
| Failed (e : error)
| Panic.

(** A step of the validator either returns from the function or
    falls through to the next statement. *)
Definition Check : Set := DiskCache -> option Validated * DiskCache.

Definition next (a b : Check) : Check :=
  fun c =>
    match a c with
    | (Some v, c) => (Some v, c)
    | (None, c) => b c
    end.

Definition pass : Check := fun c => (None, c).

(** [found, _ := c.Contains(cache.CAS, hash); if !found { return nil,
    nil, nil }]. *)
Definition requireBlob (hash : string) : Check :=
  fun c =>
    let '((found, _), c) := Contains c CAS hash in
    if found then (None, c) else (Some Missing, c).

Definition checkOutputFile (f : OutputFile) : Check :=
  if Nat.eqb (length (file_Contents f)) 0 then
    match file_Digest f with
    | None => fun c => (Some Panic, c)
    | Some d => if SizeBytes d >? 0 then requireBlob (Hash d) else pass
    end
  else pass.

Definition checkFileNode (f : FileNode) : Check :=
  match node_Digest f with
  | None => pass
  | Some d => requireBlob (Hash d)
  end.

Definition forEach {A : Type} (body : A -> Check) (l : list A) : Check :=
  foldr (fun x rest => next (body x) rest) pass l.

Definition checkOutputDirectory (env : IOEnv) (d : OutputDirectory)
  : Check :=
  fun c =>
    match TreeDigest d with
    | None => (Some Panic, c)
    | Some td =>
        let '((r, size, err), c) := Get env c CAS (Hash td) in
        match r, err with
        | None, Some e => (Some (Failed e), c)
        | None, None => (Some Missing, c)
        | Some _, Some e => (Some (Failed e), c)
        | Some r, None =>
            if negb (size =? SizeBytes td) then
              (Some (Failed (ErrTreeSize (SizeBytes td) size)), c)
            else
              match ioutil_ReadAll r with
              | inl e => (Some (Failed e), c)
              | inr oddata =>
                  match unmarshalTree oddata with
                  | None => (Some (Failed ErrUnmarshal), c)
                  | Some tree =>
                      next
                        (forEach checkFileNode (GetFiles (Root tree)))
                        (forEach
                           (fun child =>
                              forEach checkFileNode (Files child))
                           (Children tree))
                        c
                  end
              end
        end
    end.

Definition checkStdDigest (d : option Digest) : Check :=
  match d with
  | Some d => if SizeBytes d >? 0 then requireBlob (Hash d) else pass
  | None => pass
  end.

Definition GetValidatedActionResult (env : IOEnv) (c : DiskCache)
    (hash : string) : Validated * DiskCache :=
  let '((rdr, sizeBytes, err), c) := Get env c AC hash in
  match err, rdr with
  | Some e, _ => (Failed e, c)
  | None, None => (Missing, c)
  | None, Some rdr =>
      if sizeBytes <=? 0 then (Missing, c)
      else
        match ioutil_ReadAll rdr with
        | inl e => (Failed e, c)
        | inr acdata =>
            match unmarshalActionResult acdata with
            | None => (Failed ErrUnmarshal, c)
            | Some result =>
                let checks :=
                  next (forEach checkOutputFile (OutputFiles result))
                    (next
                       (forEach (checkOutputDirectory env)
                          (OutputDirectories result))
                       (next (checkStdDigest (StdoutDigest result))
                          (checkStdDigest (StderrDigest result)))) in
                match checks c with
                | (Some v, c) => (v, c)
                | (None, c) => (Valid result acdata, c)
                end
            end
        end
  end.

(** The digests the validator looks up, in its order: those of output
    files without inline contents and of positive size, those of the
    files of every output directory's Tree, and those of stdout and
    stderr when of positive size. *)
Definition outputFileRef (f : OutputFile) : option string :=
  if Nat.eqb (length (file_Contents f)) 0 then
    match file_Digest f with
    | Some d => if SizeBytes d >? 0 then Some (Hash d) else None
    | None => None
    end
  else None.

Definition fileNodeRefs (nodes : list FileNode) : list string :=
  omap (fun f => Hash <$> node_Digest f) nodes.

Definition treeRefs (tree : Tree) : list string :=
  fileNodeRefs (GetFiles (Root tree))
  ++ (Children tree ≫= fun child => fileNodeRefs (Files child)).

Definition stdRefs (d : option Digest) : list string :=
  match d with
  | Some d => if SizeBytes d >? 0 then [Hash d] else []
  | None => []
  end.

(** The Tree of an output directory as the cache serves it: present,
    of the declared size, readable and well-formed. *)
Definition treeOf (env : IOEnv) (c : DiskCache) (d : OutputDirectory)
  : option Tree :=
  match TreeDigest d with
  | None => None
  | Some td =>
      match (Get env c CAS (Hash td)).1 with
      | (Some r, size, None) =>
          if size =? SizeBytes td then
            match ioutil_ReadAll r with
            | inr oddata => unmarshalTree oddata
            | inl _ => None
            end
          else None
      | _ => None
      end
  end.

Definition checkedRefs (env : IOEnv) (c : DiskCache) (result : ActionResult)
  : list string :=
  omap outputFileRef (OutputFiles result)
  ++ (OutputDirectories result ≫= fun d =>
        match treeOf env c d with Some tree => treeRefs tree | None => [] end)
  ++ stdRefs (StdoutDigest result)
  ++ stdRefs (StderrDigest result).

(** *** New *)

(** The files [filepath.Walk(c.dir, ...)] collects. *)
Definition walkFiles (cacheDir : string) (atime : string -> Z)
    (files : FS) : list nameAndInfo :=
  (fun nd : string * list byte =>
     {| name := fst nd;
        info := {| fi_Size := Z.of_nat (length (snd nd));
                   fi_atime := atime (fst nd) |} |})
    <$> List.filter
          (fun nd => String.prefix (cacheDir +:+ "/") (fst nd))
          (map_to_list files).

(** [sort.Slice] by access time; among equal times this fixes one of
    the orders Go may produce. *)
Definition sortByAtime (files : list nameAndInfo) : list nameAndInfo :=
  merge_sort notAfter files.

(** The loop of [loadExistingFiles] that builds the index. *)
Definition loadFile (c : DiskCache) (f : nameAndInfo) : DiskCache :=
  let n := (String.length (dir c) + 1)%nat in
  let relPath := String.substring n (String.length (name f) - n) (name f) in
  let '(r, c) := alloc c in
  let '(ok, c) :=
    lruAdd c relPath
      {| size := fi_Size (info f); committed := true; ref := r |} in
  if ok then c
  else set_fs c (os_Remove (filepath_Join (dir c) relPath) (fs c)).

Definition loadExistingFiles (env : IOEnv) (atime : string -> Z)
    (c : DiskCache) : error + DiskCache :=
  match fault env SysWalk (dir c) with
  | Some e => inl e
  | None =>
      inr (foldl loadFile c (sortByAtime (walkFiles (dir c) atime (fs c))))
  end.

(** [New] on a cache directory [disk] whose files carry the access
    times [atime].  The path [cacheDir] is taken to be clean and the
    directory to be in the two-level layout already, so that
    [migrateDirectories] has nothing to move; creating the
    sub-directories and the two migration walks can fail. *)
Definition New (env : IOEnv) (cacheDir : string) (maxSizeBytes : Z)
    (upstream : option CacheProxy) (disk : FS) (atime : string -> Z)
  : error + DiskCache :=
  match fault env SysMkdirAll cacheDir with
  | Some e => inl e
  | None =>
      let c := {| dir := cacheDir; proxy := upstream;
                  lru := NewSizedLRU maxSizeBytes; fs := disk;
                  trace := []; nextRef := 0 |} in
      match fault env SysWalk (filepath_Join cacheDir (EntryKind_String AC)),
            fault env SysWalk (filepath_Join cacheDir (EntryKind_String CAS))
      with
      | Some e, _ => inl e
      | None, Some e => inl e
      | None, None => loadExistingFiles env atime c
      end
  end.

(** *** The states of a running engine *)

(** The caches an engine can be in between operations: the one [New]
    returns for a size limit that is not negative (main rejects
    [max_size <= 0]), and those that [Put], [Get], [Contains] and
    [GetValidatedActionResult] leave, whatever their arguments and
    whatever fails. *)
Inductive reachable : DiskCache -> Prop :=
| reach_New env cacheDir maxSizeBytes upstream disk atime c :
    0 <= maxSizeBytes ->
    New env cacheDir maxSizeBytes upstream disk atime = inr c ->
    reachable c
| reach_Put env c kind hash expectedSize r :
    reachable c ->
    reachable (Put env c kind hash expectedSize r).2
| reach_Get env c kind hash :
    reachable c ->
    reachable (Get env c kind hash).2
| reach_Contains c kind hash :
    reachable c ->
    reachable (Contains c kind hash).2
| reach_Validate env c hash :
    reachable c ->
    reachable (GetValidatedActionResult env c hash).2.

End Engine.

(** A step of the validator keeps the property [P] of the cache. *)
Definition keeps (P : DiskCache -> Prop) (ch : Check) : Prop :=
  forall c, P c -> P (ch c).2.

(** Without a proxy two caches serve alike when they have the same
    directory and vouch for the same keys. *)
Definition sameView (c0 c : DiskCache) : Prop :=
  proxy c0 = None ∧ proxy c = None ∧ dir c = dir c0 ∧ fs c = fs c0 ∧
  ∀ k, vouches c k = vouches c0 k.

(** What [Contains] reports for a CAS digest. *)
Definition present (c : DiskCache) (hash : string) : bool :=
  (Contains c CAS hash).1.1.

(** A step of the validator that, in a cache serving like [c0], looks
    up exactly the digests [refs]: it reports "not found" when one of
    them is absent and falls through otherwise. *)
Definition tracks (c0 : DiskCache) (ch : Check) (refs : list string) : Prop :=
  ∀ c, sameView c0 c ->
    (ch c).1 = (if forallb (present c0) refs then None else Some Missing) ∧
    sameView c0 (ch c).2.

End Disk.

(** ** Sample data for the worked scenarios *)

Module Fixture.
Import LRU Disk.

(** A stand-in for SHA-256 in the scenarios: 64 copies of one
    hexadecimal digit drawn from the bytes. *)
Definition stand_in_digit (data : list byte) : nat :=
  foldl (fun acc b => (acc * 31 + Byte.to_nat b) mod 16)%nat 7%nat data.

Definition stand_in_hex (data : list byte) : string :=
  let d :=
    default (Ascii.ascii_of_nat 48)
      (String.get (stand_in_digit data) "0123456789abcdef") in
  String.concat "" (replicate 64 (String d EmptyString)).

Definition stream (data : list byte) : Reader :=
  {| rd_data := data; rd_err := None |}.

(** The cache [New] returns on an empty directory. *)
Definition started (maxSizeBytes : Z) (upstream : option CacheProxy)
  : DiskCache :=
  {| dir := "/data"; proxy := upstream; lru := NewSizedLRU maxSizeBytes;
     fs := ∅; trace := []; nextRef := 0 |}.

Definition blobA : list byte := ["a"%byte].
Definition blobAB : list byte := ["a"%byte; "b"%byte].
Definition digestA : string := stand_in_hex blobA.
Definition digestAB : string := stand_in_hex blobAB.
Definition zeros : string := String.concat "" (replicate 64 "0").

(** Scenario S1: the blob "a" put into an empty cache of ten bytes. *)
Definition holdingA : DiskCache :=
  (Put stand_in_hex no_faults (started 10 None) CAS digestA 1 (stream blobA)).2.

(** A client is uploading "a": the first critical section of its [Put]
    is over. *)
Definition uploadingA (upstream : option CacheProxy) : DiskCache :=
  (put_reserve (cacheKey CAS digestA) 1 (started 10 upstream)).2.

(** A proxy that has every blob, seven bytes long. *)
Definition generous : CacheProxy :=
  {| proxy_Get := fun _ _ => (None, -1, None);
     proxy_Contains := fun _ _ => (true, 7) |}.


(** A cache of three bytes holding one blob of two. *)
Definition nearlyFull : DiskCache :=
  (Put stand_in_hex no_faults (started 3 None) RAW zeros 2 (stream blobAB)).2.

(** A decoder for the scenarios.  The payload "1" is an action result
    with one output file kept in the CAS under [zeros]; the payload "2"
    is one whose output file is inline and carries the same digest. *)
Definition sampleAction (inline : bool) : ActionResult :=
  {| OutputFiles :=
       [{| file_Contents := if inline then blobAB else [];
           file_Digest := Some {| Hash := zeros; SizeBytes := 2 |} |}];
     OutputDirectories := [];
     StdoutDigest := None;
     StderrDigest := None |}.

Definition decodeAction (data : list byte) : option ActionResult :=
  match data with
  | ["1"%byte] => Some (sampleAction false)
  | ["2"%byte] => Some (sampleAction true)
  | _ => None
  end.

Definition decodeTree (data : list byte) : option Tree := None.

(** A cache whose action cache holds [payload] under [digestA]. *)
Definition withAction (payload : list byte) : DiskCache :=
  (Put stand_in_hex no_faults (started 10 None) AC digestA 1
     (stream payload)).2.

End Fixture.

(** ** The index and the directory together *)

Module DiskMore.
Import LRU Disk.

(** A key of the index made from a kind and a digest of the accepted
    length, as [Put] and [Get] make them. *)
Definition blobKey (key : Key) : Prop :=
  exists kind hash,
    String.length hash = sha256HashStrSize /\ key = cacheKey kind hash.

(** An entry backed by the directory: it is committed, its key is a
    blob key, and the file under its key holds as many bytes as the
    entry says. *)
Definition backedIn (cacheDir : string) (files : FS) (e : entry) : Prop :=
  committed (snd e) = true /\ blobKey (fst e) /\
  exists data,
    files !! filepath_Join cacheDir (fst e) = Some data /\
    size (snd e) = Z.of_nat (length data).

(** The entries and the directory agree: no key twice, every entry
    backed. *)
Definition agree (cacheDir : string) (files : FS) (es : list entry) : Prop :=
  NoDup es.*1 /\ Forall (backedIn cacheDir files) es.

Definition consistent (c : DiskCache) : Prop :=
  agree (dir c) (fs c) (entries (lru c)).

(** A step of the validator that, when it returns, returns no action
    result. *)
Definition rejecting (ch : Check) : Prop :=
  forall c v, (ch c).1 = Some v ->
    match v with Valid _ _ => False | _ => True end.

(** What [Get] and the validator leave alone in an engine without
    proxy: the directory and what the index holds. *)
Definition sameStore (c0 c : DiskCache) : Prop :=
  proxy c = None ∧ dir c = dir c0 ∧ fs c = fs c0 ∧
  currentSize (lru c) = currentSize (lru c0) ∧
  forall k, indexed c k = indexed c0 k.

(** [f.name[len(c.dir)+1:]], the key [loadExistingFiles] gives the file
    [name]. *)
Definition relPath (cacheDir name : string) : string :=
  let n := (String.length cacheDir + 1)%nat in
  String.substring n (String.length name - n) name.




End DiskMore.

(** ** Migration of the flat directory layout *)

Module Migrate.
Import LRU Disk DiskMore.

Definition slash : Ascii.ascii := Ascii.ascii_of_nat 47.

(** The path has a separator. *)
Fixpoint hasSlash (s : string) : bool :=
  match s with
  | EmptyString => false
  | String a s' => Ascii.eqb a slash || hasSlash s'
  end.

(** [filepath.Base] and [filepath.Dir] on the clean paths
    [filepath.Walk] yields below its root: what follows the last
    separator and what precedes it. *)
Fixpoint filepath_Base (path : string) : string :=
  match path with
  | EmptyString => EmptyString
  | String a rest =>
      if hasSlash rest then filepath_Base rest
      else if Ascii.eqb a slash then rest else path
  end.

Fixpoint filepath_Dir (path : string) : string :=
  match path with
  | EmptyString => EmptyString
  | String a rest =>
      if hasSlash rest then String a (filepath_Dir rest) else EmptyString
  end.

(** A file directly in [root]. *)
Definition isDirectFile (root : string) (p : string) : bool :=
  String.prefix (root +:+ "/") p && negb (hasSlash (relPath root p)).

(** The names [filepath.Walk(root, ...)] hands to the callback of
    [migrateDirectory] and that are not directories: the files
    directly in [root], in lexical order.  The root itself makes the
    callback return nil and a sub-directory makes it return
    [filepath.SkipDir], so that nothing below one is visited. *)
Definition directFiles (root : string) (files : FS) : list string :=
  merge_sort String.le
    (List.filter (isDirectFile root) (fst <$> map_to_list files)).

(** How a migration ends: done, stopped by an error, or stopped by the
    run-time panic of slicing a name shorter than two bytes; each with
    the directory as it is then. *)
Inductive Migrated : Set :=
| MigrationDone (files : FS)
| MigrationError (e : error) (files : FS)
| MigrationPanic (files : FS).

(** The callback of [migrateDirectory] on a file. *)
Definition migrateFile (env : IOEnv) (files : FS) (name : string)
  : Migrated :=
  let hash := filepath_Base name in
  if (String.length hash <? 2)%nat then MigrationPanic files
  else
    let newName :=
      filepath_Join (filepath_Dir name)
        (filepath_Join (String.substring 0 2 hash) hash) in
    match os_Rename env name newName files with
    | inl e => MigrationError e files
    | inr files' => MigrationDone files'
    end.

(** One more name of the walk: it stops at the first error. *)
Definition migrateNext (env : IOEnv) (acc : Migrated) (name : string)
  : Migrated :=
  match acc with
  | MigrationDone files => migrateFile env files name
  | _ => acc
  end.

Definition migrateDirectory (env : IOEnv) (root : string) (files : FS)
  : Migrated :=
  match fault env SysWalk root with
  | Some e => MigrationError e files
  | None => foldl (migrateNext env) (MigrationDone files)
              (directFiles root files)
  end.

(** "There are no old RAW directories (yet)." *)
Definition migrateDirectories (env : IOEnv) (c : DiskCache) : Migrated :=
  match migrateDirectory env (filepath_Join (dir c) (EntryKind_String AC))
          (fs c) with
  | MigrationDone files =>
      migrateDirectory env (filepath_Join (dir c) (EntryKind_String CAS))
        files
  | stopped => stopped
  end.

(** How startup ends when the migration is part of it. *)
Inductive Startup : Set :=
| Started (c : DiskCache)
| StartupError (e : error)
| StartupPanic.

(** [New] of disk.go with [migrateDirectories], on any cache
    directory. *)
Definition New (env : IOEnv) (cacheDir : string) (maxSizeBytes : Z)
    (upstream : option CacheProxy) (disk : FS) (atime : string -> Z)
  : Startup :=
  match fault env SysMkdirAll cacheDir with
  | Some e => StartupError e
  | None =>
      let c := {| dir := cacheDir; proxy := upstream;
                  lru := NewSizedLRU maxSizeBytes; fs := disk;
                  trace := []; nextRef := 0 |} in
      match migrateDirectories env c with
      | MigrationError e _ => StartupError e
      | MigrationPanic _ => StartupPanic
      | MigrationDone files =>
          match loadExistingFiles env atime (set_fs c files) with
          | inl e => StartupError e
          | inr c => Started c
          end
      end
  end.

End Migrate.

(** ** The command line *)

Module Main.

(** Go's int64 arithmetic wraps around. *)
Definition wrap64 (z : Z) : Z := (z + 2 ^ 63) mod 2 ^ 64 - 2 ^ 63.

(** What [main] makes of the flags [-dir] and [-max_size]: nothing (it
    prints the usage and returns), or the directory and the byte limit
    [*maxSize*1024*1024*1024] it starts the cache with. *)
Definition main (dir : string) (maxSize : Z) : option (string * Z) :=
  if String.eqb dir "" || (maxSize <=? 0) then None
  else
    Some (dir, wrap64 (wrap64 (wrap64 (maxSize * 1024) * 1024) * 1024)).

End Main.

(** ** More sample data *)

Module MoreFixture.
Import LRU Disk Fixture.

(** A proxy that has the blob "a" under every digest. *)
Definition holderOfA : CacheProxy :=
  {| proxy_Get := fun _ _ => (Some (stream blobA), 1, None);
     proxy_Contains := fun _ _ => (true, 1) |}.


(** A cache directory that holds the blob "a" in the CAS. *)
Definition diskWithA : FS :=
  <[cacheFilePath CAS "/data" digestA := blobA]> ∅.

(** An action result whose output file has neither inline contents nor
    a digest, and a decoder that yields it. *)
Definition bareAction : ActionResult :=
  {| OutputFiles := [{| file_Contents := []; file_Digest := None |}];
     OutputDirectories := [];
     StdoutDigest := None;
     StderrDigest := None |}.

Definition decodeBare (data : list byte) : option ActionResult :=
  Some bareAction.

(** A cache directory in the flat layout: the action cache holds "a"
    directly under the digest. *)
Definition legacyRoot : string :=
  filepath_Join "/data" (EntryKind_String AC).

Definition legacyDisk : FS :=
  <[filepath_Join legacyRoot digestA := blobA]> ∅.

End MoreFixture.

(** * Facts about the index *)

Module LRUFacts.
Import LRU.

Lemma hasKey_true k e : hasKey k e = true <-> fst e = k.
Proof. unfold hasKey. apply String.eqb_eq. Qed.

Lemma hasKey_false k e : hasKey k e = false <-> fst e <> k.
Proof. unfold hasKey. apply String.eqb_neq. Qed.

Lemma totalSize_app es1 es2 :
  totalSize (es1 ++ es2) = totalSize es1 + totalSize es2.
Proof. induction es1 as [|e es1 IH]; simpl; [|rewrite IH]; lia. Qed.

Lemma totalSize_split k es :
  totalSize es = sizeUnder k es + totalSize (without k es).
Proof.
  unfold sizeUnder, without.
  induction es as [|e es IH]; simpl; [lia|].
  destruct (hasKey k e); simpl; lia.
Qed.

Lemma without_fresh k es : k ∉ es.*1 -> without k es = es.
Proof.
  unfold without. induction es as [|e es IH]; simpl; intros Hk; [done|].
  apply not_elem_of_cons in Hk as [Hne Hk].
  destruct (hasKey k e) eqn:He.
  - apply hasKey_true in He. congruence.
  - simpl. by rewrite IH.
Qed.

Lemma sizeUnder_fresh k es : k ∉ es.*1 -> sizeUnder k es = 0.
Proof.
  intros Hk. pose proof (totalSize_split k es) as H.
  rewrite (without_fresh k es Hk) in H. lia.
Qed.

Lemma lookup_fresh k es : k ∉ es.*1 -> lookup k es = None.
Proof.
  unfold lookup. induction es as [|e es IH]; simpl; intros Hk; [done|].
  apply not_elem_of_cons in Hk as [Hne Hk].
  destruct (hasKey k e) eqn:He.
  - apply hasKey_true in He. congruence.
  - by apply IH.
Qed.

Lemma lookup_None_fresh k es : lookup k es = None -> k ∉ es.*1.
Proof.
  unfold lookup. induction es as [|e es IH]; simpl; intros H.
  - apply not_elem_of_nil.
  - destruct (hasKey k e) eqn:He; [done|].
    apply hasKey_false in He. apply not_elem_of_cons. split; [congruence|auto].
Qed.

Lemma without_keys k es : k ∉ (without k es).*1.
Proof.
  unfold without. induction es as [|e es IH]; simpl; [apply not_elem_of_nil|].
  destruct (hasKey k e) eqn:He; simpl; [done|].
  apply hasKey_false in He. apply not_elem_of_cons. split; [congruence|done].
Qed.

Lemma without_sublist k es : sublist (without k es) es.
Proof.
  unfold without. induction es as [|e es IH]; simpl; [done|].
  destruct (negb (hasKey k e)); [by apply sublist_skip | by apply sublist_cons].
Qed.

Lemma Forall_sub {A} (P : A -> Prop) l1 l2 :
  sublist l1 l2 -> Forall P l2 -> Forall P l1.
Proof.
  induction 1 as [|x l1 l2 _ IH|x l1 l2 _ IH]; [done| |];
    intros H; apply Forall_cons in H as [Hx H]; [constructor|]; auto.
Qed.

Lemma NoDup_keys_sub (es1 es2 : list entry) :
  sublist es1 es2 -> NoDup es2.*1 -> NoDup es1.*1.
Proof.
  intros H Hnd. eapply sublist_NoDup; [exact Hnd|]. by apply fmap_sublist.
Qed.

Lemma lookup_without k es : lookup k (without k es) = None.
Proof. apply lookup_fresh, without_keys. Qed.

Lemma lookup_without_ne k k' es :
  k <> k' -> lookup k' (without k es) = lookup k' es.
Proof.
  intros Hne. unfold lookup, without.
  induction es as [|e es IH]; simpl; [done|].
  destruct (hasKey k e) eqn:He; simpl.
  - apply hasKey_true in He.
    destruct (hasKey k' e) eqn:He'; [|done].
    apply hasKey_true in He'. congruence.
  - destruct (hasKey k' e); [done|apply IH].
Qed.

Lemma lookup_app k es1 es2 :
  lookup k (es1 ++ es2) =
  match lookup k es1 with Some it => Some it | None => lookup k es2 end.
Proof.
  unfold lookup. induction es1 as [|e es1 IH]; simpl; [by destruct (List.find _ es2)|].
  destruct (hasKey k e); [done|apply IH].
Qed.

Lemma lookup_elem k es it : lookup k es = Some it -> (k, it) ∈ es.
Proof.
  unfold lookup. induction es as [|e es IH]; simpl; [done|].
  destruct (hasKey k e) eqn:He.
  - apply hasKey_true in He. intros [= <-]. destruct e; simpl in *; subst.
    apply elem_of_cons; by left.
  - intros H. apply elem_of_cons; right. auto.
Qed.

Lemma lookup_sizeUnder k es it :
  NoDup es.*1 -> lookup k es = Some it -> sizeUnder k es = size it.
Proof.
  unfold lookup, sizeUnder.
  induction es as [|e es IH]; simpl; [done|].
  intros Hnd. apply NoDup_cons in Hnd as [Hfresh Hnd].
  destruct (hasKey k e) eqn:He.
  - apply hasKey_true in He. intros [= <-]. simpl.
    rewrite <- He in *. fold (sizeUnder (fst e) es).
    rewrite (sizeUnder_fresh _ _ Hfresh). lia.
  - auto.
Qed.

Lemma totalSize_nonneg es :
  Forall (fun e : entry => 0 <= size (snd e)) es -> 0 <= totalSize es.
Proof. induction 1; simpl; lia. Qed.

Lemma sizeUnder_nonneg k es :
  Forall (fun e : entry => 0 <= size (snd e)) es -> 0 <= sizeUnder k es.
Proof.
  intros H. unfold sizeUnder. apply totalSize_nonneg.
  induction H as [|e es He H IH]; simpl; [constructor|].
  destruct (hasKey k e); [constructor|]; done.
Qed.

Lemma Remove_wf c k : wf c -> wf (Remove c k).
Proof.
  intros [Hs Hb Hn Hd]. split; simpl.
  - pose proof (totalSize_split k (entries c)). lia.
  - pose proof (sizeUnder_nonneg k _ Hn). lia.
  - eapply Forall_sub; [apply without_sublist|done].
  - eapply NoDup_keys_sub; [apply without_sublist|done].
Qed.

Lemma touch_wf c k : wf c -> wf (Get c k).2.
Proof.
  intros Hwf. unfold Get. destruct (lookup k (entries c)) as [it|] eqn:Hl; [|done].
  destruct Hwf as [Hs Hb Hn Hd]. split; simpl.
  - rewrite totalSize_app. simpl.
    pose proof (totalSize_split k (entries c)).
    rewrite (lookup_sizeUnder _ _ _ Hd Hl) in *. lia.
  - done.
  - apply Forall_app. split.
    + eapply Forall_sub; [apply without_sublist|done].
    + constructor; [|constructor]. simpl.
      apply lookup_elem in Hl. rewrite Forall_forall in Hn. apply (Hn _ Hl).
  - rewrite fmap_app. apply NoDup_app. split; [|split].
    + eapply NoDup_keys_sub; [apply without_sublist|done].
    + simpl. intros x Hx Hx'. apply list_elem_of_singleton in Hx'. subst.
      by apply (without_keys k (entries c)).
    + simpl. apply NoDup_singleton.
Qed.

Lemma evict_spec es : forall cur need max gone kept cur',
  evict es cur need max = (gone, kept, cur') ->
  es = gone ++ kept ∧ cur' = cur - totalSize gone ∧
  (kept = [] ∨ cur' + need <= max).
Proof.
  induction es as [|e es IH]; simpl; intros cur need max gone kept cur' H.
  - injection H as <- <- <-. simpl. split; [done|]. split; [lia|by left].
  - destruct (cur + need >? max) eqn:Hgt.
    + destruct (evict es (cur - size (snd e)) need max) as [[g k'] c'] eqn:He.
      injection H as <- <- <-.
      destruct (IH _ _ _ _ _ _ He) as (-> & -> & Hor).
      simpl. split; [done|]. split; [lia|done].
    + injection H as <- <- <-. simpl. split; [done|]. split; [lia|right; lia].
Qed.

Lemma Add_spec c k v l gone ok :
  Add c k v = (l, gone, ok) ->
  ∃ kept,
    without k (entries c) = gone ++ kept ∧
    (kept = [] ∨
     currentSize c - sizeUnder k (entries c) - totalSize gone + size v
       <= maxSize c) ∧
    if ok then
      size v <= maxSize c ∧
      l = {| entries := kept ++ [(k, v)];
             currentSize :=
               currentSize c - sizeUnder k (entries c) - totalSize gone
               + size v;
             maxSize := maxSize c |}
    else
      maxSize c < size v ∧
      l = {| entries := kept;
             currentSize :=
               currentSize c - sizeUnder k (entries c) - totalSize gone;
             maxSize := maxSize c |}.
Proof.
  unfold Add. simpl.
  destruct (evict _ _ _ _) as [[g kept] cur'] eqn:He.
  apply evict_spec in He as (Hes & -> & Hor).
  destruct (size v >? maxSize c) eqn:Hgt; intros [= <- <- <-];
    exists kept; (split; [done|]); (split; [done|]); split; (lia || done).
Qed.

Lemma kept_wf c k gone kept :
  wf c -> without k (entries c) = gone ++ kept ->
  wf {| entries := kept;
        currentSize :=
          currentSize c - sizeUnder k (entries c) - totalSize gone;
        maxSize := maxSize c |}.
Proof.
  intros Hwf Hes. pose proof (Remove_wf c k Hwf) as [Hs Hb Hn Hd].
  simpl in *. rewrite Hes in *. rewrite totalSize_app in Hs.
  apply Forall_app in Hn as [Hg Hk].
  split; simpl.
  - lia.
  - pose proof (totalSize_nonneg _ Hg). lia.
  - done.
  - rewrite fmap_app in Hd. by apply NoDup_app in Hd as (_ & _ & Hd).
Qed.

Lemma kept_fresh k (es gone kept : list entry) :
  without k es = gone ++ kept -> k ∉ kept.*1.
Proof.
  intros Hes Hin. apply (without_keys k es). rewrite Hes, fmap_app.
  apply elem_of_app. by right.
Qed.

Lemma Add_fail_wf c k v l gone :
  wf c -> Add c k v = (l, gone, false) -> wf l.
Proof.
  intros Hwf H. apply Add_spec in H as (kept & Hes & _ & _ & ->).
  by apply kept_wf.
Qed.

Lemma Add_ok_wf c k v l gone :
  wf c -> 0 <= size v -> Add c k v = (l, gone, true) -> wf l.
Proof.
  intros Hwf Hv H. apply Add_spec in H as (kept & Hes & Hor & Hle & ->).
  pose proof (kept_wf c k gone kept Hwf Hes) as [Hs Hb Hn Hd]. simpl in *.
  split; simpl.
  - rewrite totalSize_app. simpl. lia.
  - destruct Hor as [-> | Hor]; [simpl in Hs; lia | lia].
  - apply Forall_app. split; [done|]. by repeat constructor.
  - rewrite fmap_app. apply NoDup_app. split; [done|]. split.
    + simpl. intros x Hx Hx'. apply list_elem_of_singleton in Hx'. subst.
      by apply (kept_fresh k (entries c) gone kept).
    + apply NoDup_singleton.
Qed.

Lemma Add_Remove c k v l gone :
  Add c k v = (l, gone, true) ->
  ∃ kept,
    without k (entries c) = gone ++ kept ∧
    Remove l k =
      {| entries := kept;
         currentSize :=
           currentSize c - sizeUnder k (entries c) - totalSize gone;
         maxSize := maxSize c |}.
Proof.
  intros H. apply Add_spec in H as (kept & Hes & _ & _ & ->).
  exists kept. split; [done|].
  pose proof (kept_fresh k _ _ _ Hes) as Hfresh.
  unfold Remove. simpl. f_equal.
  - unfold without. rewrite List.filter_app. fold (without k kept).
    rewrite (without_fresh _ _ Hfresh). simpl.
    unfold hasKey at 1. simpl. rewrite String.eqb_refl. simpl.
    apply app_nil_r.
  - unfold sizeUnder. rewrite List.filter_app, totalSize_app.
    fold (sizeUnder k kept). rewrite (sizeUnder_fresh _ _ Hfresh). simpl.
    unfold hasKey. simpl. rewrite String.eqb_refl. simpl. lia.
Qed.

Lemma Add_undo_wf c k v l gone :
  wf c -> Add c k v = (l, gone, true) -> wf (Remove l k).
Proof.
  intros Hwf H. apply Add_Remove in H as (kept & Hes & ->).
  by apply kept_wf.
Qed.

End LRUFacts.

(** * Facts about the engine *)

Module DiskFacts.
Import LRU LRUFacts Disk.

Lemma lruGet_spec l k :
  LRU.Get l k =
  match lookup k (entries l) with
  | Some it =>
      (Some it,
       {| entries := without k (entries l) ++ [(k, it)];
          currentSize := currentSize l; maxSize := maxSize l |})
  | None => (None, l)
  end.
Proof. done. Qed.

Lemma lruAdd_spec c k v ok c' :
  lruAdd c k v = (ok, c') ->
  ∃ l gone,
    Add (lru c) k v = (l, gone, ok) ∧
    c' = set_fs (set_lru c l) (foldl (onEvict (dir c)) (fs c) gone).
Proof.
  unfold lruAdd. destruct (Add (lru c) k v) as [[l gone] ok'] eqn:HA.
  intros [= <- <-]. by exists l, gone.
Qed.

Lemma set_lru_id c : set_lru c (lru c) = c.
Proof. by destruct c. Qed.

Section Facts.
Variable sha256_hex : list byte -> string.

(** The first critical section of [Put], case by case. *)
Lemma put_reserve_spec key n c res c' :
  put_reserve key n c = (res, c') ->
  dir c' = dir c ∧ proxy c' = proxy c ∧ trace c' = trace c ∧
  match res with
  | OngoingUpload =>
      (∃ it, lookup key (entries (lru c)) = Some it ∧ committed it = false) ∧
      c' = set_lru c (LRU.Get (lru c) key).2
  | Accepted r =>
      r = nextRef c ∧ nextRef c' = S (nextRef c) ∧
      (∀ it, lookup key (entries (lru c)) = Some it -> committed it = true) ∧
      ∃ gone,
        Add (LRU.Get (lru c) key).2 key
          {| size := n; committed := false; ref := r |}
          = (lru c', gone, true) ∧
        fs c' = foldl (onEvict (dir c)) (fs c) gone
  | TooBig =>
      (∀ it, lookup key (entries (lru c)) = Some it -> committed it = true) ∧
      ∃ gone,
        Add (LRU.Get (lru c) key).2 key
          {| size := n; committed := false; ref := nextRef c |}
          = (lru c', gone, false) ∧
        fs c' = foldl (onEvict (dir c)) (fs c) gone
  end.
Proof.
  unfold put_reserve.
  destruct (LRU.Get (lru c) key) as [ex l] eqn:HG.
  rewrite lruGet_spec in HG. simpl.
  assert (Hadd : ∀ res c',
    (let '(ok, c0) :=
       lruAdd (alloc (set_lru c l)).2 key
         {| size := n; committed := false; ref := (alloc (set_lru c l)).1 |}
     in (if ok then Accepted (alloc (set_lru c l)).1 else TooBig, c0))
    = (res, c') ->
    dir c' = dir c ∧ proxy c' = proxy c ∧ trace c' = trace c ∧
    match res with
    | OngoingUpload => False
    | Accepted r =>
        r = nextRef c ∧ nextRef c' = S (nextRef c) ∧
        ∃ gone,
          Add l key {| size := n; committed := false; ref := r |}
            = (lru c', gone, true) ∧
          fs c' = foldl (onEvict (dir c)) (fs c) gone
    | TooBig =>
        ∃ gone,
          Add l key {| size := n; committed := false; ref := nextRef c |}
            = (lru c', gone, false) ∧
          fs c' = foldl (onEvict (dir c)) (fs c) gone
    end).
  { intros res0 c0. simpl.
    destruct (lruAdd _ _ _) as [ok c1] eqn:HA.
    apply lruAdd_spec in HA as (l1 & gone & HA & ->). simpl in HA.
    destruct ok; intros [= <- <-]; simpl; repeat (split; [done|]);
      exists gone; by split. }
  destruct (lookup key (entries (lru c))) as [it|] eqn:Hl;
    injection HG as <- <-.
  - destruct (committed it) eqn:Hc; simpl.
    + intros H. apply Hadd in H as (? & ? & ? & H).
      repeat (split; [done|]).
      destruct res; [|done|].
      * destruct H as (? & ? & H). repeat (split; [done|]).
        split; [|done]. by intros ? [= <-].
      * split; [|done]. by intros ? [= <-].
    + intros [= <- <-]. simpl. repeat (split; [done|]).
      split; [|done]. by exists it.
  - intros H. apply Hadd in H as (? & ? & ? & H).
    repeat (split; [done|]).
    destruct res; [|done|].
    + destruct H as (? & ? & H). repeat (split; [done|]). done.
    + split; [done|done].
Qed.

Lemma tmp_ne (p : string) : p +:+ ".tmp" ≠ p.
Proof. induction p as [|a p IH]; simpl; [done|]. intros [= H]. done. Qed.

Lemma delete_written (files : FS) p (d1 d2 : list byte) :
  delete p (<[p := d1]> (<[p := d2]> files)) = delete p files.
Proof. by rewrite !delete_insert_eq. Qed.

(** The upload proper, case by case: on success the temp file has been
    moved to the final path; on failure the directory is as before,
    except that the temp path is gone once [os.Create] went through. *)
Lemma put_upload_spec env kind hash n r c err sc r' c' :
  put_upload sha256_hex env kind hash n r c = (err, sc, r', c') ->
  let final := cacheFilePath kind (dir c) hash in
  let tmp := final +:+ ".tmp" in
  lru c' = lru c ∧ dir c' = dir c ∧ proxy c' = proxy c ∧
  trace c' = trace c ∧ nextRef c' = nextRef c ∧
  if sc then
    err = None ∧ n = Z.of_nat (length (rd_data r)) ∧ rd_err r = None ∧
    (kind = CAS -> sha256_hex (rd_data r) = hash) ∧
    fs c' = <[final := rd_data r]> (delete tmp (fs c)) ∧
    r' = exhausted r
  else
    (∃ e, err = Some e) ∧
    ((fs c' = fs c ∧ env SysCreate tmp = true) ∨
     (fs c' = delete tmp (fs c) ∧ env SysCreate tmp = false)).
Proof.
  unfold put_upload, os_Create, fault. simpl.
  destruct (env SysCreate _) eqn:HC.
  { intros [= <- <- <- <-]. repeat (split; [done|]).
    split; [by eexists|]. left. by split. }
  unfold put_stream, io_Copy, fault.
  destruct (env SysWrite _) eqn:HW.
  { intros [= <- <- <- <-]. simpl. repeat (split; [done|]).
    split; [by eexists|]. right. split; [|done].
    unfold os_Remove. by rewrite delete_insert_eq. }
  destruct (rd_err r) as [msg|] eqn:HR; simpl.
  { intros [= <- <- <- <-]. simpl. repeat (split; [done|]).
    split; [by eexists|]. right. split; [|done].
    unfold os_Remove. by rewrite delete_written. }
  destruct (EntryKind_eqb kind CAS && negb (String.eqb _ hash)) eqn:HH.
  { intros [= <- <- <- <-]. simpl. repeat (split; [done|]).
    split; [by eexists|]. right. split; [|done].
    unfold os_Remove. by rewrite delete_written. }
  destruct (env SysSync _) eqn:HS.
  { intros [= <- <- <- <-]. simpl. repeat (split; [done|]).
    split; [by eexists|]. right. split; [|done].
    unfold os_Remove. by rewrite delete_written. }
  destruct (env SysClose _) eqn:HCl.
  { intros [= <- <- <- <-]. simpl. repeat (split; [done|]).
    split; [by eexists|]. right. split; [|done].
    unfold os_Remove. by rewrite delete_written. }
  destruct (negb (_ =? n)) eqn:HN.
  { intros [= <- <- <- <-]. simpl. repeat (split; [done|]).
    split; [by eexists|]. right. split; [|done].
    unfold os_Remove. by rewrite delete_written. }
  unfold os_Rename, fault.
  destruct (env SysRename _) eqn:HRn.
  { intros [= <- <- <- <-]. simpl. repeat (split; [done|]).
    split; [by eexists|]. right. split; [|done].
    unfold os_Remove. by rewrite delete_written. }
  rewrite lookup_insert_eq.
  intros [= <- <- <- <-]. simpl. repeat (split; [done|]).
  apply negb_false_iff, Z.eqb_eq in HN.
  split; [done|]. split; [done|]. split.
  - intros ->. simpl in HH. apply negb_false_iff in HH.
    by apply String.eqb_eq in HH.
  - split; [|done]. by rewrite delete_written.
Qed.

(** The held part of [Put]'s deferred function leaves the directory. *)
Lemma put_release_spec env kind hash n newItem sc c :
  let c' := put_release env kind hash n newItem sc c in
  dir c' = dir c ∧ proxy c' = proxy c ∧ fs c' = fs c ∧
  nextRef c' = nextRef c ∧
  lru c' =
    if sc then lru (commitItem c newItem)
    else LRU.Remove (lru c) (cacheKey kind hash).
Proof.
  unfold put_release.
  destruct sc; simpl; [|done].
  destruct (proxy c) eqn:Hp; [destruct (os_Open _ _ _)|]; simpl;
    rewrite ?Hp; done.
Qed.

(** Committing changes neither a key nor a size. *)
Lemma commitRef_keys r es : (commitRef r es).*1 = es.*1.
Proof.
  unfold commitRef. rewrite <- list_fmap_compose. apply list_fmap_ext.
  intros i e _. simpl. by destruct (Nat.eqb _ _).
Qed.

Lemma commitRef_totalSize r es : totalSize (commitRef r es) = totalSize es.
Proof.
  induction es as [|e es IH]; simpl; [done|]. rewrite IH.
  by destruct (Nat.eqb _ _).
Qed.

Lemma commitRef_wf r l :
  wf l ->
  wf {| entries := commitRef r (entries l); currentSize := currentSize l;
        maxSize := maxSize l |}.
Proof.
  intros [Hs Hb Hn Hd]. split; simpl.
  - by rewrite commitRef_totalSize.
  - done.
  - unfold commitRef. apply Forall_fmap. eapply Forall_impl; [exact Hn|].
    intros e He. simpl. by destruct (Nat.eqb _ _).
  - by rewrite commitRef_keys.
Qed.

Lemma Put_wf env c kind hash n r :
  wf (lru c) -> wf (lru (Put sha256_hex env c kind hash n r).2).
Proof.
  intros Hwf. unfold Put.
  destruct (negb (Nat.eqb _ _)); [done|].
  destruct (put_reserve _ _ _) as [res c1] eqn:HR.
  apply put_reserve_spec in HR as (_ & _ & _ & HR).
  pose proof (touch_wf (lru c) (cacheKey kind hash) Hwf) as HG.
  destruct res as [newItem| |].
  - destruct HR as (_ & _ & _ & gone & HA & _).
    destruct (put_upload _ _ _ _ _ _ _) as [[[err sc] r'] c2] eqn:HU.
    apply put_upload_spec in HU as (Hl & _ & _ & _ & _ & HU). simpl.
    destruct (put_release_spec env kind hash n newItem sc c2)
      as (_ & _ & _ & _ & ->).
    destruct sc.
    + destruct HU as (_ & -> & _). simpl. rewrite Hl.
      apply commitRef_wf. eapply Add_ok_wf; [exact HG| |exact HA].
      simpl. lia.
    + rewrite Hl. eapply Add_undo_wf; [exact HG|exact HA].
  - destruct HR as (_ & ->). done.
  - destruct HR as (_ & gone & HA & _). simpl.
    eapply Add_fail_wf; [exact HG|exact HA].
Qed.

End Facts.

(** The lookup that opens [Get], case by case. *)
Lemma availableOrTryProxy_spec key c av tp c' :
  availableOrTryProxy key c = (av, tp, c') ->
  dir c' = dir c ∧ proxy c' = proxy c ∧ trace c' = trace c ∧
  match lookup key (entries (lru c)) with
  | Some it =>
      av = committed it ∧ tp = false ∧
      c' = set_lru c (LRU.Get (lru c) key).2
  | None =>
      av = false ∧
      match proxy c with
      | None => tp = false ∧ c' = c
      | Some _ =>
          nextRef c' = S (nextRef c) ∧
          ∃ gone,
            Add (lru c) key
              {| size := 0; committed := false; ref := nextRef c |}
              = (lru c', gone, tp) ∧
            fs c' = foldl (onEvict (dir c)) (fs c) gone
      end
  end.
Proof.
  unfold availableOrTryProxy. rewrite lruGet_spec.
  destruct (lookup key (entries (lru c))) as [it|] eqn:Hl.
  - intros [= <- <- <-]. simpl. repeat (split; [done|]).
    split; [by destruct (committed it)|]. split; [done|].
    done.
  - simpl. destruct (proxy c) eqn:Hp.
    + destruct (lruAdd _ _ _) as [ok c1] eqn:HA.
      apply lruAdd_spec in HA as (l1 & gone & HA & ->). simpl in HA.
      intros [= <- <- <-]. simpl. repeat (split; [done|]).
      by exists gone.
    + intros [= <- <- <-]. rewrite set_lru_id. done.
Qed.

Lemma get_fetch_spec env p kind hash c res sc created foundSize c' :
  get_fetch env p kind hash c = (res, sc, created, foundSize, c') ->
  lru c' = lru c ∧ dir c' = dir c ∧ proxy c' = proxy c ∧
  nextRef c' = nextRef c ∧
  (sc = true -> 0 <= foundSize).
Proof.
  unfold get_fetch.
  destruct (proxy_Get p kind hash) as [[r fsz] err].
  destruct err as [e|]; [by intros [= <- <- <- <- <-]|].
  destruct r as [r|]; [|by intros [= <- <- <- <- <-]].
  unfold os_Create, fault. simpl.
  destruct (env SysCreate _); [by intros [= <- <- <- <- <-]|].
  unfold io_Copy, fault.
  destruct (env SysWrite _); [by intros [= <- <- <- <- <-]|].
  destruct (rd_err r); simpl; [by intros [= <- <- <- <- <-]|].
  destruct (negb (_ =? fsz)) eqn:HN; [by intros [= <- <- <- <- <-]|].
  apply negb_false_iff, Z.eqb_eq in HN.
  destruct (env SysSync _); [by intros [= <- <- <- <- <-]|].
  destruct (env SysClose _); [by intros [= <- <- <- <- <-]|].
  destruct (os_Rename _ _ _ _); [by intros [= <- <- <- <- <-]|].
  simpl.
  destruct (os_Open _ _ _); intros [= <- <- <- <- <-]; simpl;
    repeat (split; [done|]); intros _; lia.
Qed.

Lemma get_release_wf kind hash sc created foundSize c :
  wf (lru c) -> (sc = true -> 0 <= foundSize) ->
  wf (lru (get_release kind hash sc created foundSize c)).
Proof.
  intros Hwf Hsz. unfold get_release.
  assert (wf (lru
    (if sc then
       let '(r, c0) := alloc c in
       (lruAdd c0 (cacheKey kind hash)
          {| size := foundSize; committed := true; ref := r |}).2
     else set_lru c (Remove (lru c) (cacheKey kind hash))))) as H.
  { destruct sc; simpl.
    - destruct (lruAdd _ _ _) as [ok c1] eqn:HA.
      apply lruAdd_spec in HA as (l1 & gone & HA & ->). simpl in *.
      destruct ok.
      + eapply Add_ok_wf; [exact Hwf| |exact HA]. simpl. auto.
      + eapply Add_fail_wf; [exact Hwf|exact HA].
    - by apply Remove_wf. }
  by destruct (negb sc && created).
Qed.

Lemma Get_wf env c kind hash :
  wf (lru c) -> wf (lru (Disk.Get env c kind hash).2).
Proof.
  intros Hwf. unfold Disk.Get.
  destruct (negb (Nat.eqb _ _)); [done|].
  destruct (availableOrTryProxy _ _) as [[av tp] c1] eqn:HA.
  apply availableOrTryProxy_spec in HA as (_ & Hp & _ & HA).
  assert (wf (lru c1)) as Hwf1.
  { destruct (lookup _ _) as [it|].
    - destruct HA as (_ & _ & ->). simpl. by apply touch_wf.
    - destruct HA as (_ & HA). destruct (proxy c).
      + destruct HA as (_ & gone & HA & _). destruct tp.
        * eapply Add_ok_wf; [exact Hwf| |exact HA]. simpl. lia.
        * eapply Add_fail_wf; [exact Hwf|exact HA].
      + by destruct HA as (_ & ->). }
  destruct av.
  - simpl. destruct (os_Stat _ _ _); [done|].
    simpl. destruct (os_Open _ _ _); done.
  - simpl. destruct tp; [|done]. destruct (proxy c1) as [p|]; [|done].
    destruct (get_fetch _ _ _ _ _) as [[[[res sc] created] fsz] c2] eqn:HF.
    apply get_fetch_spec in HF as (Hl & _ & _ & _ & Hsz). simpl.
    apply get_release_wf; [by rewrite Hl|done].
Qed.

Lemma Contains_wf c kind hash :
  wf (lru c) -> wf (lru (Contains c kind hash).2).
Proof.
  intros Hwf. unfold Contains.
  destruct (negb (Nat.eqb _ _)); [done|].
  pose proof (touch_wf (lru c) (cacheKey kind hash) Hwf) as HG.
  destruct (LRU.Get _ _) as [val l]. simpl in *.
  destruct (match val with Some item => committed item | None => false end);
    [done|].
  by destruct (proxy c).
Qed.

Lemma length_ok hash :
  String.length hash = sha256HashStrSize ->
  negb (Nat.eqb (String.length hash) sha256HashStrSize) = false.
Proof. intros ->. by rewrite Nat.eqb_refl. Qed.

(** Moving an entry to the recent end changes no lookup. *)
Lemma lookup_touch k k' es it :
  lookup k es = Some it ->
  lookup k' (without k es ++ [(k, it)]) = lookup k' es.
Proof.
  intros Hl. rewrite lookup_app.
  destruct (decide (k = k')) as [<-|Hne].
  - rewrite lookup_without. unfold lookup. simpl. unfold hasKey. simpl.
    by rewrite String.eqb_refl.
  - rewrite (lookup_without_ne _ _ _ Hne).
    destruct (lookup k' es); [done|].
    unfold lookup. simpl. unfold hasKey. simpl.
    apply String.eqb_neq in Hne. by rewrite Hne.
Qed.

Lemma indexed_touch c k k' :
  indexed (set_lru c (LRU.Get (lru c) k).2) k' = indexed c k'.
Proof.
  unfold indexed. simpl. rewrite lruGet_spec.
  destruct (lookup k (entries (lru c))) as [it|] eqn:Hl; [|done].
  simpl. by apply lookup_touch.
Qed.

(** [Get] when the proxy plays no part: the key is in the index, or it
    is not and there is no proxy. *)
Lemma Get_local env c kind hash :
  String.length hash = sha256HashStrSize ->
  let key := cacheKey kind hash in
  let blobPath := cacheFilePath kind (dir c) hash in
  let c1 := set_lru c (LRU.Get (lru c) key).2 in
  match indexed c key with
  | Some it =>
      if committed it then
        Disk.Get env c kind hash =
          match os_Stat env blobPath (fs c) with
          | inr fileSize =>
              match os_Open env blobPath (fs c) with
              | inr f =>
                  ((Some f, fileSize, None),
                   emit (emit (emit c1 (EvStat blobPath)) (EvOpen blobPath))
                     EvCacheHit)
              | inl e =>
                  ((None, -1, Some e),
                   emit (emit (emit c1 (EvStat blobPath)) (EvOpen blobPath))
                     EvCacheMiss)
              end
          | inl e =>
              ((None, -1, Some e), emit (emit c1 (EvStat blobPath)) EvCacheMiss)
          end
      else Disk.Get env c kind hash = (notFound, emit c1 EvCacheMiss)
  | None =>
      proxy c = None -> Disk.Get env c kind hash = (notFound, emit c EvCacheMiss)
  end.
Proof.
  intros Hlen. simpl. unfold Disk.Get, indexed.
  rewrite (length_ok _ Hlen). unfold availableOrTryProxy.
  rewrite lruGet_spec.
  destruct (lookup _ _) as [it|] eqn:Hl.
  - destruct (committed it); simpl; [|done].
    destruct (os_Stat _ _ _); [done|]. simpl.
    destruct (os_Open _ _ _); done.
  - intros Hp. simpl. rewrite Hp. simpl. by rewrite set_lru_id.
Qed.

(** C6.  While the entry of a key is uncommitted, [Get] answers "not
    found": it inspects and opens no file and asks no proxy (the miss
    counter is all it touches), and the entry stays as it is. *)
Theorem get_in_flight_not_found env c kind hash :
  String.length hash = sha256HashStrSize ->
  inFlight c (cacheKey kind hash) = true ->
  (Disk.Get env c kind hash).1 = notFound ∧
  fs (Disk.Get env c kind hash).2 = fs c ∧
  trace (Disk.Get env c kind hash).2 = trace c ++ [EvCacheMiss] ∧
  indexed (Disk.Get env c kind hash).2 (cacheKey kind hash)
    = indexed c (cacheKey kind hash).
Proof.
  intros Hlen Hfl. pose proof (Get_local env c kind hash Hlen) as H.
  unfold inFlight in Hfl. simpl in H.
  destruct (indexed c (cacheKey kind hash)) as [it|] eqn:Hi; [|done].
  destruct (committed it); [done|]. rewrite H. simpl.
  repeat (split; [done|]).
  change (indexed (set_lru c (LRU.Get (lru c) (cacheKey kind hash)).2)
            (cacheKey kind hash) = Some it).
  by rewrite indexed_touch.
Qed.

Lemma Contains_spec c kind hash :
  String.length hash = sha256HashStrSize ->
  let key := cacheKey kind hash in
  let c1 := set_lru c (LRU.Get (lru c) key).2 in
  Contains c kind hash =
    match indexed c key with
    | Some it =>
        if committed it then ((true, size it), c1)
        else (askProxy c kind hash,
              match proxy c with
              | Some _ => emit c1 (EvProxyContains kind hash)
              | None => c1
              end)
    | None =>
        (askProxy c kind hash,
         match proxy c with
         | Some _ => emit c (EvProxyContains kind hash)
         | None => c
         end)
    end.
Proof.
  intros Hlen. simpl. unfold Contains, indexed, askProxy.
  rewrite (length_ok _ Hlen). rewrite lruGet_spec.
  destruct (lookup _ _) as [it|] eqn:Hl; simpl.
  - destruct (committed it); [done|]. by destruct (proxy c).
  - rewrite set_lru_id. by destruct (proxy c).
Qed.

(** C3 (as the code has it).  For a digest of the accepted length,
    [Contains] answers [(true, size)] from the index exactly when the
    entry of the key is committed.  In every other case, the key
    absent or its entry uncommitted, it passes the question to the
    proxy when one is configured and answers [(false, -1)] when none is.
    It inserts nothing and changes no entry. *)
Theorem contains_answer c kind hash :
  String.length hash = sha256HashStrSize ->
  let key := cacheKey kind hash in
  (Contains c kind hash).1 =
    (if vouches c key
     then (true, from_option size (-1) (indexed c key))
     else askProxy c kind hash) ∧
  trace (Contains c kind hash).2 =
    trace c ++
    (if vouches c key then []
     else match proxy c with
          | Some _ => [EvProxyContains kind hash]
          | None => []
          end) ∧
  fs (Contains c kind hash).2 = fs c ∧
  ∀ k, indexed (Contains c kind hash).2 k = indexed c k.
Proof.
  intros Hlen. simpl. rewrite (Contains_spec _ _ _ Hlen). unfold vouches.
  destruct (indexed c (cacheKey kind hash)) as [it|] eqn:Hi.
  - destruct (committed it); simpl.
    + rewrite app_nil_r. repeat (split; [done|]).
      intros k. apply indexed_touch.
    + split; [done|]. destruct (proxy c); simpl;
        rewrite ?app_nil_r; repeat (split; [done|]);
        intros k; apply indexed_touch.
  - simpl. split; [done|].
    destruct (proxy c); simpl; rewrite ?app_nil_r; done.
Qed.

Section PutFacts.
Variable sha256_hex : list byte -> string.



End PutFacts.




Lemma elem_without k es (e : entry) :
  e ∈ without k es ↔ e ∈ es ∧ fst e ≠ k.
Proof.
  unfold without. induction es as [|e' es IH]; simpl.
  - rewrite elem_of_nil. tauto.
  - destruct (hasKey k e') eqn:He; simpl.
    + apply hasKey_true in He. rewrite IH, elem_of_cons.
      split; [tauto|]. intros [[-> | H] Hne]; [done|tauto].
    + apply hasKey_false in He. rewrite !elem_of_cons, IH.
      split; [|tauto]. intros [-> | H]; tauto.
Qed.

Lemma elem_touch_without l k (e : entry) :
  e ∈ without k (entries (LRU.Get l k).2) -> e ∈ entries l ∧ fst e ≠ k.
Proof.
  rewrite lruGet_spec. destruct (lookup k (entries l)) as [it|] eqn:Hl; simpl.
  - rewrite elem_without, elem_of_app, elem_without, list_elem_of_singleton.
    intros [[[H _] | ->] Hne]; [done|]. by simpl in Hne.
  - by rewrite elem_without.
Qed.

Lemma lookup_commitRef_last k kept n b r :
  k ∉ kept.*1 ->
  lookup k (commitRef r (kept ++ [(k, {| size := n; committed := b; ref := r |})]))
  = Some {| size := n; committed := true; ref := r |}.
Proof.
  intros Hfresh. unfold commitRef. rewrite fmap_app, lookup_app.
  rewrite lookup_fresh.
  - unfold lookup. simpl. rewrite Nat.eqb_refl. simpl. unfold hasKey. simpl.
    by rewrite String.eqb_refl.
  - fold (commitRef r kept). by rewrite commitRef_keys.
Qed.

Section Outcome.
Variable sha256_hex : list byte -> string.

Lemma accepts_iff c kind hash n :
  accepts c kind hash n = true ↔
  String.length hash = sha256HashStrSize ∧
  inFlight c (cacheKey kind hash) = false ∧
  n <= MaxSize c.
Proof.
  unfold accepts, inFlight, indexed, MaxSize, LRU.MaxSize.
  rewrite andb_true_iff, Nat.eqb_eq.
  destruct (put_reserve _ _ _) as [res c1] eqn:HR.
  apply put_reserve_spec in HR as (_ & _ & _ & HR). simpl.
  assert (maxSize (LRU.Get (lru c) (cacheKey kind hash)).2 = maxSize (lru c))
    as Hmax.
  { rewrite lruGet_spec. by destruct (lookup _ _). }
  destruct res as [newItem| |].
  - destruct HR as (_ & _ & Hc & gone & HA & _).
    apply Add_spec in HA as (kept & _ & _ & Hle & _). simpl in Hle.
    rewrite Hmax in Hle.
    destruct (lookup _ _) as [it|]; [rewrite (Hc it eq_refl)|]; simpl;
      (split; [intros [? _]|intros (? & _)]; done).
  - destruct HR as ((it & -> & ->) & _). simpl.
    split; [by intros [_ ?]|by intros (_ & ? & _)].
  - destruct HR as (Hc & gone & HA & _).
    apply Add_spec in HA as (kept & _ & _ & Hlt & _). simpl in Hlt.
    rewrite Hmax in Hlt. split; [by intros [_ ?]|]. intros (_ & _ & ?). lia.
Qed.

(** What an accepted [Put] leaves behind: the entries evicted on the
    way in are gone with their files; on success the blob is at its
    final path under a committed entry, on failure the key has no
    entry and the temp path is gone once it was created. *)
Lemma Put_outcome env c kind hash n r :
  accepts c kind hash n = true ->
  let key := cacheKey kind hash in
  let final := cacheFilePath kind (dir c) hash in
  let tmp := final +:+ ".tmp" in
  let res := Put sha256_hex env c kind hash n r in
  ∃ gone,
    (∀ e, e ∈ gone -> e ∈ entries (lru c) ∧ fst e ≠ key) ∧
    dir res.2 = dir c ∧ proxy res.2 = proxy c ∧
    let fs1 := foldl (onEvict (dir c)) (fs c) gone in
    match res.1.1 with
    | None =>
        n = Z.of_nat (length (rd_data r)) ∧ rd_err r = None ∧
        (kind = CAS -> sha256_hex (rd_data r) = hash) ∧
        res.1.2 = exhausted r ∧
        fs res.2 = <[final := rd_data r]> (delete tmp fs1) ∧
        indexed res.2 key
          = Some {| size := n; committed := true; ref := nextRef c |}
    | Some e =>
        indexed res.2 key = None ∧
        ((fs res.2 = fs1 ∧ env SysCreate tmp = true) ∨
         (fs res.2 = delete tmp fs1 ∧ env SysCreate tmp = false))
    end.
Proof.
  unfold accepts. rewrite andb_true_iff, Nat.eqb_eq. intros [Hlen Hacc].
  simpl. unfold Put. rewrite (length_ok _ Hlen).
  destruct (put_reserve _ _ _) as [res c1] eqn:HR.
  apply put_reserve_spec in HR as (Hd & Hp & _ & HR). simpl in Hacc.
  destruct res as [newItem| |]; [|done|done].
  destruct HR as (-> & _ & _ & gone & HA & Hfs).
  pose proof HA as HA'.
  apply Add_spec in HA' as (kept & Hes & _ & _ & Hl). simpl in Hl.
  pose proof (kept_fresh _ _ _ _ Hes) as Hfresh.
  destruct (put_upload _ _ _ _ _ _ _) as [[[err sc] r'] c2] eqn:HU.
  apply put_upload_spec in HU as (Hl2 & Hd2 & Hp2 & _ & _ & HU). simpl.
  destruct (put_release_spec env kind hash n (nextRef c) sc c2)
    as (Hd3 & Hp3 & Hfs3 & _ & Hl3).
  exists gone. split.
  { intros e He. apply elem_touch_without. rewrite Hes.
    apply elem_of_app. by left. }
  split; [congruence|]. split; [congruence|].
  rewrite Hfs3. unfold indexed. rewrite Hl3. rewrite Hd in HU.
  destruct sc.
  - destruct HU as (-> & Hn & Hr & Hh & Hfs2 & ->).
    repeat (split; [done|]). split; [by rewrite Hfs2, Hfs|].
    simpl. rewrite Hl2, Hl. simpl. by apply lookup_commitRef_last.
  - destruct HU as ([e ->] & HU). split.
    + simpl. apply lookup_without.
    + rewrite <- Hfs. done.
Qed.

End Outcome.

Lemma evicted_absent cacheDir gone : ∀ (files : FS) p,
  files !! p = None -> foldl (onEvict cacheDir) files gone !! p = None.
Proof.
  induction gone as [|e gone IH]; intros files p Hp; simpl; [done|].
  apply IH. unfold onEvict, os_Remove.
  destruct (committed (snd e)); rewrite !lookup_delete_None; auto.
Qed.

Lemma Join_inj cacheDir a b :
  filepath_Join cacheDir a = filepath_Join cacheDir b -> a = b.
Proof.
  unfold filepath_Join. intros H.
  apply (inj (String.app cacheDir)) in H. by injection H.
Qed.

Lemma evicted_kept cacheDir gone key : ∀ (files : FS),
  (∀ e : entry, e ∈ gone -> committed (snd e) = true ∧ fst e ≠ key) ->
  foldl (onEvict cacheDir) files gone !! filepath_Join cacheDir key
  = files !! filepath_Join cacheDir key.
Proof.
  induction gone as [|e gone IH]; intros files Hg; simpl; [done|].
  rewrite IH.
  - destruct (Hg e) as [Hc Hne]; [apply elem_of_cons; by left|].
    unfold onEvict, os_Remove. rewrite Hc. apply lookup_delete_ne.
    intros H. by apply Join_inj in H.
  - intros e' He'. apply Hg, elem_of_cons. by right.
Qed.

Lemma quiescent_elem c (e : entry) :
  quiescent c = true -> e ∈ entries (lru c) -> committed (snd e) = true.
Proof.
  unfold quiescent. rewrite forallb_forall. intros H He.
  apply H. by apply list_elem_of_In.
Qed.

Section Claims.
Variable sha256_hex : list byte -> string.




(** A failed overwrite in a cache where nothing is in flight. *)
Lemma failed_overwrite_when_quiescent env env' c kind hash n r it old e :
  indexed c (cacheKey kind hash) = Some it ->
  quiescent c = true ->
  fs c !! cacheFilePath kind (dir c) hash = Some old ->
  accepts c kind hash n = true ->
  (Put sha256_hex env c kind hash n r).1.1 = Some e ->
  let c' := (Put sha256_hex env c kind hash n r).2 in
  indexed c' (cacheKey kind hash) = None ∧
  fs c' !! cacheFilePath kind (dir c) hash = Some old ∧
  (proxy c = None ->
   (Disk.Get env' c' kind hash).1 = notFound ∧
   (Contains c' kind hash).1 = (false, -1)).
Proof.
  intros _ Hq Hold Hacc Herr. simpl.
  pose proof Hacc as Hlen. apply accepts_iff in Hlen as [Hlen _].
  destruct (Put_outcome sha256_hex env c kind hash n r Hacc)
    as (gone & Hgone & Hd & Hp & Hout).
  simpl in Hout. rewrite Herr in Hout. destruct Hout as (Hi & Hfs).
  split; [done|]. split.
  - assert (foldl (onEvict (dir c)) (fs c) gone
              !! cacheFilePath kind (dir c) hash = Some old) as Hkept.
    { unfold cacheFilePath. rewrite evicted_kept; [done|].
      intros e0 He0. destruct (Hgone e0 He0) as [Hin Hne].
      split; [by eapply quiescent_elem|done]. }
    destruct Hfs as [[-> _] | [-> _]]; [done|].
    rewrite lookup_delete_ne; [done|]. apply tmp_ne.
  - intros Hnp. split.
    + pose proof (Get_local env'
        (Put sha256_hex env c kind hash n r).2 kind hash Hlen) as HG.
      simpl in HG. rewrite Hi in HG. rewrite HG; [done|congruence].
    + rewrite (Contains_spec _ _ _ Hlen), Hi. unfold askProxy.
      by rewrite Hp, Hnp.
Qed.

(** The upload when no system call fails on the temp file and the
    stream ends without error: only the hash and the size decide. *)
Lemma put_upload_healthy env kind hash n r c :
  healthy env (cacheFilePath kind (dir c) hash +:+ ".tmp") ->
  rd_err r = None ->
  let final := cacheFilePath kind (dir c) hash in
  let tmp := final +:+ ".tmp" in
  let key := cacheKey kind hash in
  let actualHash := sha256_hex (rd_data r) in
  let bytesCopied := Z.of_nat (length (rd_data r)) in
  put_upload sha256_hex env kind hash n r c =
    if EntryKind_eqb kind CAS && negb (String.eqb actualHash hash) then
      (Some (ErrHashMismatch key actualHash), false, exhausted r,
       set_fs c (delete tmp (fs c)))
    else if negb (bytesCopied =? n) then
      (Some (ErrSizeMismatch n bytesCopied), false, exhausted r,
       set_fs c (delete tmp (fs c)))
    else
      (None, true, exhausted r,
       set_fs c (<[final := rd_data r]> (delete tmp (fs c)))).
Proof.
  intros Henv Hr. simpl.
  unfold put_upload, os_Create, put_stream, io_Copy, os_Rename, fault.
  rewrite !Henv, Hr. simpl.
  destruct (_ && _); simpl.
  { unfold os_Remove. by rewrite delete_written. }
  destruct (negb (_ =? n)); simpl.
  { unfold os_Remove. by rewrite delete_written. }
  by rewrite lookup_insert_eq, delete_written.
Qed.

End Claims.

(** Adding a new key that fits evicts nothing. *)
Lemma evict_fits es cur need max :
  cur + need <= max -> evict es cur need max = ([], es, cur).
Proof.
  intros H. destruct es as [|e es]; simpl; [done|].
  destruct (cur + need >? max) eqn:Hgt; [lia|done].
Qed.

Lemma Add_fits l k v :
  lookup k (entries l) = None ->
  size v <= maxSize l ->
  currentSize l + size v <= maxSize l ->
  Add l k v =
    ({| entries := entries l ++ [(k, v)];
        currentSize := currentSize l + size v;
        maxSize := maxSize l |}, [], true).
Proof.
  intros Hl Hv Hfit. apply lookup_None_fresh in Hl.
  unfold Add, Remove. simpl.
  rewrite (without_fresh _ _ Hl), (sizeUnder_fresh _ _ Hl).
  rewrite evict_fits by lia.
  destruct (size v >? maxSize l) eqn:Hgt; [lia|].
  do 3 f_equal. lia.
Qed.

Lemma Remove_last l k v :
  lookup k (entries l) = None ->
  Remove {| entries := entries l ++ [(k, v)];
            currentSize := currentSize l + size v;
            maxSize := maxSize l |} k = l.
Proof.
  intros Hl. apply lookup_None_fresh in Hl.
  unfold Remove. simpl. destruct l as [es cur max]. simpl in *. f_equal.
  - unfold without. rewrite List.filter_app. fold (without k es).
    rewrite (without_fresh _ _ Hl). simpl. unfold hasKey. simpl.
    rewrite String.eqb_refl. simpl. apply app_nil_r.
  - unfold sizeUnder. rewrite List.filter_app, totalSize_app.
    fold (sizeUnder k es). rewrite (sizeUnder_fresh _ _ Hl). simpl.
    unfold hasKey. simpl. rewrite String.eqb_refl. simpl. lia.
Qed.

(** The first critical section of [Put] for a new key that fits. *)
Lemma put_reserve_fits key n c :
  indexed c key = None ->
  n <= MaxSize c ->
  (Stats c).1 + n <= MaxSize c ->
  put_reserve key n c =
    (Accepted (nextRef c),
     {| dir := dir c; proxy := proxy c;
        lru := {| entries :=
                    entries (lru c)
                    ++ [(key, {| size := n; committed := false;
                                 ref := nextRef c |})];
                  currentSize := currentSize (lru c) + n;
                  maxSize := maxSize (lru c) |};
        fs := fs c; trace := trace c; nextRef := S (nextRef c) |}).
Proof.
  unfold indexed, MaxSize, LRU.MaxSize, Stats, CurrentSize. simpl.
  intros Hi Hn Hfit. unfold put_reserve. rewrite lruGet_spec, Hi.
  unfold lruAdd. simpl. rewrite Add_fits; done.
Qed.

Lemma lookup_last k es v :
  lookup k es = None -> lookup k (es ++ [(k, v)]) = Some v.
Proof.
  intros Hl. rewrite lookup_app, Hl. unfold lookup. simpl. unfold hasKey.
  simpl. by rewrite String.eqb_refl.
Qed.


Section Race.
Variable sha256_hex : list byte -> string.


(** C7 (as the code has it).  An accepted CAS [Put] whose stream ends,
    without error, before the declared size is reached fails when no
    system call fails: with the hash error when the bytes read do not
    hash to the digest, which is checked first, and with the size error
    otherwise.  No entry for the key and no temp file remain.  The
    statistics are those from before when the key was new and the
    declared size fitted beside what the cache held, so that nothing
    was evicted or replaced. *)
Theorem short_read_fails env c hash n r :
  accepts c CAS hash n = true ->
  healthy env (cacheFilePath CAS (dir c) hash +:+ ".tmp") ->
  rd_err r = None ->
  Z.of_nat (length (rd_data r)) < n ->
  let res := Put sha256_hex env c CAS hash n r in
  res.1.1 =
    Some (if String.eqb (sha256_hex (rd_data r)) hash
          then ErrSizeMismatch n (Z.of_nat (length (rd_data r)))
          else ErrHashMismatch (cacheKey CAS hash) (sha256_hex (rd_data r))) ∧
  indexed res.2 (cacheKey CAS hash) = None ∧
  fs res.2 !! (cacheFilePath CAS (dir c) hash +:+ ".tmp") = None ∧
  (indexed c (cacheKey CAS hash) = None ->
   (Stats c).1 + n <= MaxSize c ->
   Stats res.2 = Stats c).
Proof.
  intros Hacc Henv Hr Hshort. simpl.
  assert ((Z.of_nat (length (rd_data r)) =? n) = false) as Hne
    by (apply Z.eqb_neq; lia).
  pose proof Hacc as Hiff. apply accepts_iff in Hiff as (Hlen & _ & Hmax).
  assert ((Put sha256_hex env c CAS hash n r).1.1 =
    Some (if String.eqb (sha256_hex (rd_data r)) hash
          then ErrSizeMismatch n (Z.of_nat (length (rd_data r)))
          else ErrHashMismatch (cacheKey CAS hash) (sha256_hex (rd_data r))))
    as Herr.
  { unfold Put. rewrite (length_ok _ Hlen).
    unfold accepts in Hacc. rewrite andb_true_iff in Hacc.
    destruct Hacc as [_ Hacc].
    destruct (put_reserve _ _ _) as [res c1] eqn:HR.
    apply put_reserve_spec in HR as (Hd & _).
    destruct res as [newItem| |]; [|done|done].
    rewrite put_upload_healthy; [|by rewrite Hd|done].
    simpl. rewrite Hne. by destruct (String.eqb _ hash). }
  split; [done|].
  destruct (Put_outcome sha256_hex env c CAS hash n r Hacc)
    as (gone & _ & _ & _ & Hout).
  simpl in Hout. rewrite Herr in Hout. destruct Hout as (Hi & Hfs).
  split; [done|]. split.
  - destruct Hfs as [[_ Hc] | [-> _]]; [by rewrite Henv in Hc|].
    apply lookup_delete_eq.
  - intros Hnew Hfit. unfold Put. rewrite (length_ok _ Hlen).
    rewrite (put_reserve_fits _ _ _ Hnew Hmax Hfit).
    rewrite put_upload_healthy; [|done|done].
    rewrite Hne.
    assert (∀ (err : option error) c1,
      lru c1 =
        {| entries :=
             entries (lru c)
             ++ [(cacheKey CAS hash,
                  {| size := n; committed := false; ref := nextRef c |})];
           currentSize := currentSize (lru c) + n;
           maxSize := maxSize (lru c) |} ->
      Stats (err, exhausted r,
             put_release env CAS hash n (nextRef c) false c1).2 = Stats c)
      as Hundo.
    { intros err c1 Hl1.
      destruct (put_release_spec env CAS hash n (nextRef c) false c1)
        as (_ & _ & _ & _ & Hl).
      pose proof (Remove_last (lru c) (cacheKey CAS hash)
                    {| size := n; committed := false; ref := nextRef c |}
                    Hnew) as HR.
      cbn [size] in HR.
      assert (Remove (lru c1) (cacheKey CAS hash) = lru c) as Hback
        by (rewrite Hl1; exact HR).
      unfold Stats. cbn [snd]. by rewrite Hl, Hback. }
    destruct (EntryKind_eqb CAS CAS && _); cbn [negb]; by apply Hundo.
Qed.


End Race.

End DiskFacts.

(** * Facts about startup and the validator *)

Module ValidatorFacts.
Import LRU LRUFacts Disk DiskFacts.

(** A property of the cache that [Get] and [Contains] keep is kept by
    every step of the validator. *)
Section Keeps.
Variable unmarshalActionResult : list byte -> option ActionResult.
Variable unmarshalTree : list byte -> option Tree.
Variable P : DiskCache -> Prop.
Hypothesis P_Get : ∀ env c kind hash, P c -> P (Disk.Get env c kind hash).2.
Hypothesis P_Contains : ∀ c kind hash, P c -> P (Contains c kind hash).2.

Lemma keeps_pass : keeps P pass.
Proof. by intros c. Qed.

Lemma keeps_next a b : keeps P a -> keeps P b -> keeps P (next a b).
Proof.
  intros Ha Hb c Hc. unfold next. specialize (Ha c Hc).
  destruct (a c) as [[v|] c1]; simpl in *; [done|by apply Hb].
Qed.

Lemma keeps_forEach {A} (body : A -> Check) l :
  (∀ x, keeps P (body x)) -> keeps P (forEach body l).
Proof.
  intros Hb. induction l as [|x l IH]; simpl; [apply keeps_pass|].
  by apply keeps_next.
Qed.

Lemma keeps_requireBlob hash : keeps P (requireBlob hash).
Proof.
  intros c Hc. unfold requireBlob. pose proof (P_Contains c CAS hash Hc) as HC.
  destruct (Contains c CAS hash) as [[found sz] c1]. simpl in *.
  by destruct found.
Qed.

Lemma keeps_checkOutputFile f : keeps P (checkOutputFile f).
Proof.
  unfold checkOutputFile. destruct (Nat.eqb _ _); [|apply keeps_pass].
  destruct (file_Digest f) as [d|]; [|by intros c].
  destruct (SizeBytes d >? 0); [apply keeps_requireBlob|apply keeps_pass].
Qed.

Lemma keeps_checkFileNode f : keeps P (checkFileNode f).
Proof.
  unfold checkFileNode.
  destruct (node_Digest f); [apply keeps_requireBlob|apply keeps_pass].
Qed.

Lemma keeps_checkStdDigest d : keeps P (checkStdDigest d).
Proof.
  unfold checkStdDigest. destruct d as [d|]; [|apply keeps_pass].
  destruct (SizeBytes d >? 0); [apply keeps_requireBlob|apply keeps_pass].
Qed.

Lemma keeps_checkOutputDirectory env d :
  keeps P (checkOutputDirectory unmarshalTree env d).
Proof.
  intros c Hc. unfold checkOutputDirectory.
  destruct (TreeDigest d) as [td|]; [|done].
  pose proof (P_Get env c CAS (Hash td) Hc) as HG.
  destruct (Disk.Get env c CAS (Hash td)) as [[[r sz] err] c1]. simpl in *.
  destruct r as [r|], err as [e|]; try done.
  destruct (negb _); [done|].
  destruct (ioutil_ReadAll r); [done|].
  destruct (unmarshalTree _) as [tree|]; [|done].
  apply keeps_next; [| |done].
  - apply keeps_forEach, keeps_checkFileNode.
  - apply keeps_forEach. intros child.
    apply keeps_forEach, keeps_checkFileNode.
Qed.

Lemma keeps_validate env c hash :
  P c ->
  P (GetValidatedActionResult unmarshalActionResult unmarshalTree env c hash).2.
Proof.
  intros Hc. unfold GetValidatedActionResult.
  pose proof (P_Get env c AC hash Hc) as HG.
  destruct (Disk.Get env c AC hash) as [[[rdr sz] err] c1]. simpl in *.
  destruct err as [e|]; [done|]. destruct rdr as [rdr|]; [|done].
  destruct (sz <=? 0); [done|].
  destruct (ioutil_ReadAll rdr); [done|].
  destruct (unmarshalActionResult _) as [result|]; [|done].
  match goal with |- P (let 'pair _ _ := ?ch c1 in _).2 =>
    assert (keeps P ch) as Hk end.
  { apply keeps_next; [apply keeps_forEach, keeps_checkOutputFile|].
    apply keeps_next;
      [apply keeps_forEach; intros d; apply keeps_checkOutputDirectory|].
    apply keeps_next; apply keeps_checkStdDigest. }
  specialize (Hk c1 HG).
  match goal with |- P (let 'pair _ _ := ?x in _).2 =>
    destruct x as [[v|] c2] end; done.
Qed.

End Keeps.

Lemma loadFile_wf c f :
  wf (lru c) -> 0 <= fi_Size (info f) -> wf (lru (loadFile c f)).
Proof.
  intros Hwf Hsz. unfold loadFile. simpl.
  destruct (lruAdd _ _ _) as [ok c1] eqn:HA.
  apply lruAdd_spec in HA as (l1 & gone & HA & ->). simpl in HA.
  destruct ok; simpl.
  - eapply Add_ok_wf; [exact Hwf| |exact HA]. done.
  - eapply Add_fail_wf; [exact Hwf|exact HA].
Qed.

Lemma walkFiles_sizes cacheDir atime (files : FS) :
  Forall (fun f => 0 <= fi_Size (info f)) (walkFiles cacheDir atime files).
Proof.
  unfold walkFiles. apply Forall_fmap, Forall_forall.
  intros nd _. simpl. lia.
Qed.

Lemma New_wf env cacheDir maxSizeBytes upstream disk atime c :
  0 <= maxSizeBytes ->
  New env cacheDir maxSizeBytes upstream disk atime = inr c ->
  wf (lru c).
Proof.
  intros Hmax. unfold New, loadExistingFiles.
  destruct (fault env SysMkdirAll _); [done|].
  destruct (fault env SysWalk _); [done|].
  destruct (fault env SysWalk _); [done|].
  simpl. destruct (fault env SysWalk _); [done|]. intros [= <-].
  assert (∀ (l : list nameAndInfo) c0,
    Forall (fun f => 0 <= fi_Size (info f)) l ->
    wf (lru c0) -> wf (lru (foldl loadFile c0 l))) as Hfold.
  { intros l c0 Hl. revert c0.
    induction Hl as [|f l Hf _ IH]; intros c0 H0; simpl; [done|].
    apply IH. by apply loadFile_wf. }
  apply Hfold.
  - unfold sortByAtime. rewrite merge_sort_Permutation.
    apply walkFiles_sizes.
  - split; simpl; [lia|lia|apply Forall_nil_2|apply NoDup_nil_2].
Qed.

Section Reach.
Variable sha256_hex : list byte -> string.
Variable unmarshalActionResult : list byte -> option ActionResult.
Variable unmarshalTree : list byte -> option Tree.

Lemma reachable_wf c :
  reachable sha256_hex unmarshalActionResult unmarshalTree c -> wf (lru c).
Proof.
  induction 1 as [env cacheDir maxSizeBytes upstream disk atime c Hmax HN
                 |env c kind hash n r _ IH
                 |env c kind hash _ IH
                 |c kind hash _ IH
                 |env c hash _ IH].
  - by eapply New_wf.
  - by apply Put_wf.
  - by apply Get_wf.
  - by apply Contains_wf.
  - apply (keeps_validate _ _ (fun c => wf (lru c))); [| |done].
    + intros. by apply Get_wf.
    + intros. by apply Contains_wf.
Qed.

(** C1.  After startup restoration and after every [Put], [Get],
    [Contains] and [GetValidatedActionResult], the sizes of the index
    entries add up to the current size, and the current size does not
    exceed the maximum size. *)
Theorem index_size_invariant c :
  reachable sha256_hex unmarshalActionResult unmarshalTree c ->
  totalSize (entries (lru c)) = (Stats c).1 ∧ (Stats c).1 <= MaxSize c.
Proof.
  intros H. apply reachable_wf in H as [Hs Hb _ _]. by split.
Qed.

End Reach.

Lemma sameView_refl c : proxy c = None -> sameView c c.
Proof. by intros H. Qed.

Lemma vouches_touch c k k' :
  vouches (set_lru c (LRU.Get (lru c) k).2) k' = vouches c k'.
Proof. unfold vouches. by rewrite indexed_touch. Qed.

Lemma Get_view env c kind hash :
  proxy c = None ->
  (Disk.Get env c kind hash).1 =
    (if negb (Nat.eqb (String.length hash) sha256HashStrSize) then
       (None, -1, Some (ErrInvalidHashSize (String.length hash)))
     else if vouches c (cacheKey kind hash) then
       let blobPath := cacheFilePath kind (dir c) hash in
       match os_Stat env blobPath (fs c) with
       | inr fileSize =>
           match os_Open env blobPath (fs c) with
           | inr f => (Some f, fileSize, None)
           | inl e => (None, -1, Some e)
           end
       | inl e => (None, -1, Some e)
       end
     else notFound) ∧
  sameView c (Disk.Get env c kind hash).2.
Proof.
  intros Hp.
  destruct (Nat.eqb (String.length hash) sha256HashStrSize) eqn:Hlen; simpl.
  - apply Nat.eqb_eq in Hlen.
    pose proof (Get_local env c kind hash Hlen) as H. simpl in H.
    unfold vouches.
    destruct (indexed c (cacheKey kind hash)) as [it|] eqn:Hi.
    + destruct (committed it).
      * rewrite H. destruct (os_Stat _ _ _); [|destruct (os_Open _ _ _)];
          (split; [done|]); repeat (split; [done|]);
          intros k; apply vouches_touch.
      * rewrite H. split; [done|]. repeat (split; [done|]).
        intros k. apply vouches_touch.
    + rewrite (H Hp). done.
  - unfold Disk.Get. rewrite Hlen. simpl. split; [done|by apply sameView_refl].
Qed.

Lemma sameView_trans c0 c1 c2 :
  sameView c0 c1 -> sameView c1 c2 -> sameView c0 c2.
Proof.
  intros (Hp & _ & Hd & Hf & Hv) (_ & Hp' & Hd' & Hf' & Hv').
  split; [done|]. split; [done|]. split; [congruence|]. split; [congruence|].
  intros k. by rewrite Hv', Hv.
Qed.

Lemma Get_sameView env c0 c kind hash :
  sameView c0 c ->
  (Disk.Get env c kind hash).1 = (Disk.Get env c0 kind hash).1 ∧
  sameView c0 (Disk.Get env c kind hash).2.
Proof.
  intros Hv. pose proof Hv as (Hp0 & Hp & Hd & Hf & Hvs).
  destruct (Get_view env c kind hash Hp) as [Hr Hs].
  destruct (Get_view env c0 kind hash Hp0) as [Hr0 _].
  split; [|by eapply sameView_trans].
  rewrite Hr, Hr0. simpl. by rewrite Hd, Hf, Hvs.
Qed.

Lemma Contains_view c kind hash :
  proxy c = None ->
  (Contains c kind hash).1.1 =
    (Nat.eqb (String.length hash) sha256HashStrSize
     && vouches c (cacheKey kind hash)) ∧
  sameView c (Contains c kind hash).2.
Proof.
  intros Hp.
  destruct (Nat.eqb (String.length hash) sha256HashStrSize) eqn:Hlen; simpl.
  - apply Nat.eqb_eq in Hlen. rewrite (Contains_spec _ _ _ Hlen).
    unfold vouches, askProxy. rewrite Hp.
    destruct (indexed c (cacheKey kind hash)) as [it|] eqn:Hi.
    + destruct (committed it); simpl; (split; [done|]);
        repeat (split; [done|]); intros k; apply vouches_touch.
    + by split.
  - unfold Contains. rewrite Hlen. simpl. by split.
Qed.

Lemma Contains_sameView c0 c hash :
  sameView c0 c ->
  (Contains c CAS hash).1.1 = present c0 hash ∧
  sameView c0 (Contains c CAS hash).2.
Proof.
  intros Hv. pose proof Hv as (Hp0 & Hp & Hd & Hf & Hvs).
  destruct (Contains_view c CAS hash Hp) as [Hr Hs].
  destruct (Contains_view c0 CAS hash Hp0) as [Hr0 _].
  split; [|by eapply sameView_trans].
  unfold present. by rewrite Hr, Hr0, Hvs.
Qed.

Lemma tracks_pass c0 : tracks c0 pass [].
Proof. by intros c Hv. Qed.

Lemma tracks_requireBlob c0 hash : tracks c0 (requireBlob hash) [hash].
Proof.
  intros c Hv. unfold requireBlob.
  destruct (Contains_sameView c0 c hash Hv) as [Hr Hs].
  destruct (Contains c CAS hash) as [[found sz] c1]. simpl in *.
  rewrite <- Hr. by destruct found.
Qed.

Lemma tracks_next c0 a b ra rb :
  tracks c0 a ra -> tracks c0 b rb -> tracks c0 (next a b) (ra ++ rb).
Proof.
  intros Ha Hb c Hv. unfold next. destruct (Ha c Hv) as [Hr Hs].
  rewrite forallb_app.
  destruct (a c) as [v c1]. simpl in *. subst v.
  destruct (forallb (present c0) ra); simpl; [by apply Hb|done].
Qed.

Lemma tracks_forEach {A} c0 (body : A -> Check) (refs : A -> list string) l :
  Forall (fun x => tracks c0 (body x) (refs x)) l ->
  tracks c0 (forEach body l) (l ≫= refs).
Proof.
  induction 1 as [|x l Hx _ IH]; simpl; [apply tracks_pass|].
  by apply tracks_next.
Qed.

Lemma omap_bind {A B} (f : A -> option B) (l : list A) :
  omap f l = l ≫= (fun x => option_list (f x)).
Proof.
  induction l as [|x l IH]; [done|]. cbn.
  destruct (f x); cbn; [f_equal|]; exact IH.
Qed.

Lemma tracks_checkOutputFile c0 f :
  (file_Contents f = [] -> is_Some (file_Digest f)) ->
  tracks c0 (checkOutputFile f) (option_list (outputFileRef f)).
Proof.
  intros Hd. unfold checkOutputFile, outputFileRef.
  destruct (Nat.eqb (length (file_Contents f)) 0) eqn:Hc;
    [|apply tracks_pass].
  apply Nat.eqb_eq, nil_length_inv in Hc.
  destruct (Hd Hc) as [d ->].
  destruct (SizeBytes d >? 0); [apply tracks_requireBlob|apply tracks_pass].
Qed.

Lemma tracks_checkFileNode c0 f :
  tracks c0 (checkFileNode f) (option_list (Hash <$> node_Digest f)).
Proof.
  unfold checkFileNode.
  destruct (node_Digest f); [apply tracks_requireBlob|apply tracks_pass].
Qed.

Lemma tracks_fileNodes c0 nodes :
  tracks c0 (forEach checkFileNode nodes) (fileNodeRefs nodes).
Proof.
  unfold fileNodeRefs. rewrite omap_bind. apply tracks_forEach.
  apply Forall_forall. intros f _. apply tracks_checkFileNode.
Qed.

Lemma tracks_checkStdDigest c0 d :
  tracks c0 (checkStdDigest d) (stdRefs d).
Proof.
  unfold checkStdDigest, stdRefs. destruct d as [d|]; [|apply tracks_pass].
  destruct (SizeBytes d >? 0); [apply tracks_requireBlob|apply tracks_pass].
Qed.

Section Validate.
Variable unmarshalActionResult : list byte -> option ActionResult.
Variable unmarshalTree : list byte -> option Tree.

Lemma tracks_checkOutputDirectory env c0 d tree :
  treeOf unmarshalTree env c0 d = Some tree ->
  tracks c0 (checkOutputDirectory unmarshalTree env d) (treeRefs tree).
Proof.
  unfold treeOf, checkOutputDirectory. intros Ht c Hv.
  destruct (TreeDigest d) as [td|]; [|done].
  destruct (Get_sameView env c0 c CAS (Hash td) Hv) as [Hr Hs].
  destruct (Disk.Get env c CAS (Hash td)) as [[[r sz] err] c1].
  simpl in Hr, Hs. rewrite <- Hr in Ht.
  destruct r as [r|]; [|done]. destruct err as [e|]; [done|].
  destruct (sz =? SizeBytes td); [|done]. simpl.
  destruct (ioutil_ReadAll r) as [e|oddata]; [done|].
  rewrite Ht. unfold treeRefs.
  apply tracks_next; [apply tracks_fileNodes| |done].
  apply tracks_forEach, Forall_forall. intros child _.
  apply tracks_fileNodes.
Qed.

(** C9 (as the code has it).  An error of the lookup of the AC entry,
    of reading it or of decoding it is returned as the error.  When the
    entry is served and decodes, in an engine without proxy, with a
    digest on every output file that has no inline contents and the
    Tree of every output directory served and decoded, the validator
    returns the three nil values exactly when [Contains] reports absent
    one of the digests it looks up, and the action result otherwise.
    It does not look up the digest of an output file with inline
    contents, nor a digest of size zero outside a Tree. *)
Theorem validator_outcomes env c hash :
  let res :=
    (GetValidatedActionResult unmarshalActionResult unmarshalTree env c hash).1
  in
  (∀ rdr sz e,
     (Disk.Get env c AC hash).1 = (rdr, sz, Some e) -> res = Failed e) ∧
  (∀ rdr sz,
     (Disk.Get env c AC hash).1 = (Some rdr, sz, None) -> 0 < sz ->
     match ioutil_ReadAll rdr with
     | inl e => res = Failed e
     | inr acdata =>
         match unmarshalActionResult acdata with
         | None => res = Failed ErrUnmarshal
         | Some result =>
             proxy c = None ->
             Forall (fun f => file_Contents f = [] -> is_Some (file_Digest f))
               (OutputFiles result) ->
             Forall (fun d => is_Some (treeOf unmarshalTree env c d))
               (OutputDirectories result) ->
             res =
               if forallb (present c)
                    (checkedRefs unmarshalTree env c result)
               then Valid result acdata
               else Missing
         end
     end).
Proof.
  simpl. unfold GetValidatedActionResult. split.
  - intros rdr sz e HG.
    destruct (Disk.Get env c AC hash) as [[[rdr' sz'] err'] c1].
    simpl in HG. by injection HG as -> -> ->.
  - intros rdr sz HG Hsz.
    pose proof (Get_view env c AC hash) as Hview.
    destruct (Disk.Get env c AC hash) as [[[rdr' sz'] err'] c1].
    simpl in HG. injection HG as -> -> ->.
    destruct (sz <=? 0) eqn:Hle; [lia|].
    destruct (ioutil_ReadAll rdr) as [e|acdata]; [done|].
    destruct (unmarshalActionResult acdata) as [result|]; [|done].
    intros Hp Hfiles Hdirs.
    destruct (Hview Hp) as [_ Hv]. simpl in Hv.
    match goal with |- (let 'pair _ _ := ?ch c1 in _).1 = _ =>
      assert (tracks c ch (checkedRefs unmarshalTree env c result)) as Ht
    end.
    { unfold checkedRefs. rewrite omap_bind.
      apply tracks_next.
      { apply tracks_forEach. eapply Forall_impl; [exact Hfiles|].
        intros f Hf. by apply tracks_checkOutputFile. }
      apply tracks_next.
      { apply tracks_forEach. eapply Forall_impl; [exact Hdirs|].
        intros d [tree Hd]. rewrite Hd.
        by apply tracks_checkOutputDirectory. }
      apply tracks_next; apply tracks_checkStdDigest. }
    destruct (Ht c1 Hv) as [Hr _].
    match goal with |- (let 'pair _ _ := ?x in _).1 = _ =>
      destruct x as [v c2] end.
    simpl in Hr. subst v.
    by destruct (forallb _ _).
Qed.

End Validate.

End ValidatorFacts.

(** * Facts about the engine between operations *)

Module SettledFacts.
Import LRU LRUFacts Disk DiskFacts ValidatorFacts.

Lemma quiescent_Forall c :
  quiescent c = true ↔
  Forall (fun e : entry => committed (snd e) = true) (entries (lru c)).
Proof.
  unfold quiescent. rewrite forallb_forall, Forall_forall.
  split; intros H e He; apply H; by apply list_elem_of_In.
Qed.

(** All entries but those under [k] are committed. *)
Lemma settled_but k l :
  Forall (fun e : entry => committed (snd e) = true) (entries l) ->
  Forall (fun e : entry => committed (snd e) = true) (without k (entries l)).
Proof. apply Forall_sub, without_sublist. Qed.

Lemma touch_settled l k :
  Forall (fun e : entry => committed (snd e) = true) (entries l) ->
  Forall (fun e : entry => committed (snd e) = true)
    (entries (LRU.Get l k).2).
Proof.
  intros H. rewrite lruGet_spec.
  destruct (lookup k (entries l)) as [it|] eqn:Hl; [|done]. simpl.
  apply Forall_app. split; [by apply settled_but|].
  constructor; [|constructor]. simpl.
  apply lookup_elem in Hl. rewrite Forall_forall in H. apply (H _ Hl).
Qed.

Lemma Add_settled l k v l' gone ok :
  Forall (fun e : entry => committed (snd e) = true) (without k (entries l)) ->
  Add l k v = (l', gone, ok) ->
  Forall (fun e : entry => committed (snd e) = true)
    (without k (entries l')) ∧
  (ok = false ∨ committed v = true ->
   Forall (fun e : entry => committed (snd e) = true) (entries l')).
Proof.
  intros H HA. apply Add_spec in HA as (kept & Hes & _ & HA).
  pose proof (kept_fresh _ _ _ _ Hes) as Hfresh.
  rewrite Hes in H. apply Forall_app in H as [_ Hk].
  destruct ok.
  - destruct HA as [_ ->]. simpl. split.
    + unfold without. rewrite List.filter_app. fold (without k kept).
      rewrite (without_fresh _ _ Hfresh). simpl. unfold hasKey. simpl.
      rewrite String.eqb_refl. simpl. by rewrite app_nil_r.
    + intros [?|Hv]; [done|]. apply Forall_app. split; [done|].
      by repeat constructor.
  - destruct HA as [_ ->]. simpl. split; [|done].
    by rewrite (without_fresh _ _ Hfresh).
Qed.

Lemma commit_settled r k n kept :
  Forall (fun e : entry => committed (snd e) = true) kept ->
  Forall (fun e : entry => committed (snd e) = true)
    (commitRef r (kept ++ [(k, {| size := n; committed := false; ref := r |})])).
Proof.
  intros H. unfold commitRef. apply Forall_fmap, Forall_app. split.
  - eapply Forall_impl; [exact H|]. intros e He. simpl.
    by destruct (Nat.eqb _ _).
  - repeat constructor. simpl. by rewrite Nat.eqb_refl.
Qed.

Section Settled.
Variable sha256_hex : list byte -> string.
Variable unmarshalActionResult : list byte -> option ActionResult.
Variable unmarshalTree : list byte -> option Tree.

Lemma Put_quiescent env c kind hash n r :
  quiescent c = true ->
  quiescent (Put sha256_hex env c kind hash n r).2 = true.
Proof.
  rewrite !quiescent_Forall. intros Hq. unfold Put.
  destruct (negb (Nat.eqb _ _)); [done|].
  destruct (put_reserve _ _ _) as [res c1] eqn:HR.
  apply put_reserve_spec in HR as (_ & _ & _ & HR).
  pose proof (touch_settled (lru c) (cacheKey kind hash) Hq) as HG.
  destruct res as [newItem| |].
  - destruct HR as (-> & _ & _ & gone & HA & _).
    destruct (put_upload _ _ _ _ _ _ _) as [[[err sc] r'] c2] eqn:HU.
    apply put_upload_spec in HU as (Hl & _). simpl.
    destruct (put_release_spec env kind hash n (nextRef c) sc c2)
      as (_ & _ & _ & _ & ->).
    destruct sc.
    + simpl. rewrite Hl.
      apply Add_spec in HA as (kept & Hes & _ & _ & ->). simpl.
      apply commit_settled.
      apply (settled_but (cacheKey kind hash)) in HG.
      rewrite Hes in HG. by apply Forall_app in HG as [_ HG].
    + rewrite Hl.
      apply (Add_settled _ _ _ _ _ _ (settled_but _ _ HG)) in HA as [HA _].
      exact HA.
  - destruct HR as (_ & ->). done.
  - destruct HR as (_ & gone & HA & _). simpl.
    apply (Add_settled _ _ _ _ _ _ (settled_but _ _ HG)) in HA as [_ HA].
    apply HA. by left.
Qed.

Lemma Get_quiescent env c kind hash :
  quiescent c = true -> quiescent (Disk.Get env c kind hash).2 = true.
Proof.
  rewrite !quiescent_Forall. intros Hq. unfold Disk.Get.
  destruct (negb (Nat.eqb _ _)); [done|].
  destruct (availableOrTryProxy _ _) as [[av tp] c1] eqn:HA.
  apply availableOrTryProxy_spec in HA as (_ & Hp & _ & HA).
  assert (Forall (fun e : entry => committed (snd e) = true)
            (without (cacheKey kind hash) (entries (lru c1))) ∧
          (av = true ∨ tp = false ∨ proxy c1 = None ->
           Forall (fun e : entry => committed (snd e) = true)
             (entries (lru c1)))) as [Hbut Hall].
  { destruct (lookup _ _) as [it|].
    - destruct HA as (_ & _ & ->). simpl.
      pose proof (touch_settled (lru c) (cacheKey kind hash) Hq) as HG.
      split; [by apply settled_but|done].
    - destruct HA as (-> & HA). destruct (proxy c) eqn:Hpc.
      + destruct HA as (_ & gone & HA & _).
        apply (Add_settled _ _ _ _ _ _ (settled_but _ _ Hq)) in HA
          as [H1 H2].
        split; [done|]. intros [?|[-> | ?]]; [done| |congruence].
        apply H2. by left.
      + destruct HA as (_ & ->). split; [by apply settled_but|done]. }
  destruct av.
  - specialize (Hall (or_introl eq_refl)). simpl.
    destruct (os_Stat _ _ _); [done|]. simpl. destruct (os_Open _ _ _); done.
  - simpl. destruct tp; [|by apply Hall; right; left].
    destruct (proxy c1) as [p|]; [|by apply Hall; right; right].
    destruct (get_fetch _ _ _ _ _) as [[[[res sc] created] fsz] c2] eqn:HF.
    apply get_fetch_spec in HF as (Hl & _). simpl.
    unfold get_release.
    assert (Forall (fun e : entry => committed (snd e) = true)
      (entries (lru
        (if sc then
           let '(r, c0) := alloc c2 in
           (lruAdd c0 (cacheKey kind hash)
              {| size := fsz; committed := true; ref := r |}).2
         else set_lru c2 (Remove (lru c2) (cacheKey kind hash)))))) as H.
    { destruct sc; simpl.
      - destruct (lruAdd _ _ _) as [ok c3] eqn:HA'.
        apply lruAdd_spec in HA' as (l1 & gone & HA' & ->). simpl in *.
        rewrite Hl in HA'.
        apply (Add_settled _ _ _ _ _ _ Hbut) in HA' as [_ HA'].
        apply HA'. by right.
      - by rewrite Hl. }
    by destruct (negb sc && created).
Qed.

Lemma Contains_quiescent c kind hash :
  quiescent c = true -> quiescent (Contains c kind hash).2 = true.
Proof.
  rewrite !quiescent_Forall. intros Hq. unfold Contains.
  destruct (negb (Nat.eqb _ _)); [done|].
  pose proof (touch_settled (lru c) (cacheKey kind hash) Hq) as HG.
  destruct (LRU.Get _ _) as [val l]. simpl in *.
  destruct (match val with Some item => committed item | None => false end);
    [done|].
  by destruct (proxy c).
Qed.

Lemma New_quiescent env cacheDir maxSizeBytes upstream disk atime c :
  New env cacheDir maxSizeBytes upstream disk atime = inr c ->
  quiescent c = true.
Proof.
  unfold New, loadExistingFiles.
  destruct (fault env SysMkdirAll _); [done|].
  destruct (fault env SysWalk _); [done|].
  destruct (fault env SysWalk _); [done|].
  simpl. destruct (fault env SysWalk _); [done|]. intros [= <-].
  assert (∀ (l : list nameAndInfo) c0,
    quiescent c0 = true -> quiescent (foldl loadFile c0 l) = true) as Hfold.
  { induction l as [|f l IH]; intros c0 H0; simpl; [done|].
    apply IH. revert H0. rewrite !quiescent_Forall. intros H0.
    unfold loadFile. simpl.
    destruct (lruAdd _ _ _) as [ok c1] eqn:HA.
    apply lruAdd_spec in HA as (l1 & gone & HA & ->). simpl in HA.
    apply (Add_settled _ _ _ _ _ _ (settled_but _ _ H0)) in HA as [_ HA].
    destruct ok; simpl; apply HA; [by right|by left]. }
  by apply Hfold.
Qed.

Lemma reachable_quiescent c :
  reachable sha256_hex unmarshalActionResult unmarshalTree c ->
  quiescent c = true.
Proof.
  induction 1 as [env cacheDir maxSizeBytes upstream disk atime c Hmax HN
                 |env c kind hash n r _ IH
                 |env c kind hash _ IH
                 |c kind hash _ IH
                 |env c hash _ IH].
  - by eapply New_quiescent.
  - by apply Put_quiescent.
  - by apply Get_quiescent.
  - by apply Contains_quiescent.
  - apply (keeps_validate _ _ (fun c => quiescent c = true)); [| |done].
    + intros. by apply Get_quiescent.
    + intros. by apply Contains_quiescent.
Qed.

Lemma quiescent_not_inFlight c key :
  quiescent c = true -> inFlight c key = false.
Proof.
  intros Hq. unfold inFlight, indexed.
  destruct (lookup key (entries (lru c))) as [it|] eqn:Hl; [|done].
  apply lookup_elem in Hl. pose proof (quiescent_elem _ _ Hq Hl) as Hc.
  simpl in Hc. by rewrite Hc.
Qed.


(** C10.  In a cache between operations that holds the key, a [Put]
    that overwrites it and fails leaves the key without any entry, the
    earlier one included, and leaves the earlier file where it was;
    without a proxy the next [Get] and [Contains] answer "not found"
    and [(false, -1)]. *)
Theorem failed_overwrite_forgets_key env env' c kind hash n r it old e :
  reachable sha256_hex unmarshalActionResult unmarshalTree c ->
  indexed c (cacheKey kind hash) = Some it ->
  fs c !! cacheFilePath kind (dir c) hash = Some old ->
  accepts c kind hash n = true ->
  (Put sha256_hex env c kind hash n r).1.1 = Some e ->
  let c' := (Put sha256_hex env c kind hash n r).2 in
  indexed c' (cacheKey kind hash) = None ∧
  fs c' !! cacheFilePath kind (dir c) hash = Some old ∧
  (proxy c = None ->
   (Disk.Get env' c' kind hash).1 = notFound ∧
   (Contains c' kind hash).1 = (false, -1)).
Proof.
  intros Hreach Hi Hold Hacc Herr.
  apply (failed_overwrite_when_quiescent sha256_hex env env' c kind hash n r
           it old e); try done.
  by apply reachable_quiescent.
Qed.

End Settled.
End SettledFacts.

(** * The scenarios, worked *)

Module Scenarios.
Import LRU Disk Fixture.

(** The empty cache is what [New] returns on an empty directory, and
    scenario S1 follows it. *)
Lemma started_reachable :
  reachable stand_in_hex decodeAction decodeTree (started 10 None).
Proof.
  apply (reach_New _ _ _ no_faults "/data" 10 None ∅ (fun _ => 0));
    [lia|reflexivity].
Defined.

Lemma holdingA_reachable :
  reachable stand_in_hex decodeAction decodeTree holdingA.
Proof. unfold holdingA. apply reach_Put, started_reachable. Defined.

(** C1 at work: startup on an empty directory, then scenario S1. *)
Lemma index_size_invariant_S1 :
  totalSize (entries (lru holdingA)) = (Stats holdingA).1 ∧
  (Stats holdingA).1 <= MaxSize holdingA.
Proof.
  exact (ValidatorFacts.index_size_invariant _ _ _ _ holdingA_reachable).
Defined.


(** C3 at work: a committed blob is vouched for by the index. *)
Lemma contains_answer_S1 :
  (Contains holdingA CAS digestA).1 = (true, 1).
Proof.
  refine (eq_trans
    (proj1 (DiskFacts.contains_answer holdingA CAS digestA _)) _);
    vm_compute; reflexivity.
Defined.

(** C3 fails as stated: while "a" is being uploaded its entry exists,
    uncommitted, and with a proxy configured [Contains] asks the proxy
    and reports the proxy's answer, not [(false, -1)]. *)
Lemma contains_in_flight_asks_proxy :
  inFlight (uploadingA (Some generous)) (cacheKey CAS digestA) = true ∧
  (Contains (uploadingA (Some generous)) CAS digestA).1 = (true, 7) ∧
  trace (Contains (uploadingA (Some generous)) CAS digestA).2
    = [EvProxyContains CAS digestA].
Proof. vm_compute. repeat split. Qed.




(** C6 at work: a [Get] of "a" while it is being uploaded. *)
Lemma get_in_flight_not_found_S1 :
  inFlight (uploadingA None) (cacheKey CAS digestA) = true ∧
  (Disk.Get no_faults (uploadingA None) CAS digestA).1 = notFound ∧
  trace (Disk.Get no_faults (uploadingA None) CAS digestA).2 = [EvCacheMiss].
Proof.
  assert (inFlight (uploadingA None) (cacheKey CAS digestA) = true) as Hfl
    by (vm_compute; reflexivity).
  destruct (DiskFacts.get_in_flight_not_found no_faults (uploadingA None)
              CAS digestA eq_refl Hfl) as (Hres & _ & Htrace & _).
  split; [exact Hfl|]. split; [exact Hres|exact Htrace].
Defined.

(** C7 at work, scenario S3: three bytes declared, "ab" sent under its
    own digest. *)
Lemma short_read_fails_S3 :
  let res :=
    Put stand_in_hex no_faults (started 100 None) CAS digestAB 3
      (stream blobAB) in
  res.1.1 = Some (ErrSizeMismatch 3 2) ∧ Stats res.2 = (0, 0%nat).
Proof.
  destruct (DiskFacts.short_read_fails stand_in_hex no_faults
              (started 100 None) digestAB 3 (stream blobAB))
    as (Herr & _ & _ & Hstats).
  - vm_compute; reflexivity.
  - intros call. reflexivity.
  - reflexivity.
  - vm_compute; reflexivity.
  - split; [exact Herr|].
    apply Hstats; [vm_compute; reflexivity|vm_compute; discriminate].
Defined.

(** C7 fails as stated, twice.  Sent under the digest of the three
    bytes that were announced, the two bytes "ab" fail the hash check,
    which comes first: the error is not the size error.  And sent
    under their own digest to a cache of three bytes that holds two,
    they fail the size check after the older blob was evicted to make
    room: the statistics go from (2, 1) to (0, 0). *)
Lemma short_read_other_outcomes :
  (Put stand_in_hex no_faults (started 100 None) CAS
     (stand_in_hex (blobAB ++ blobA)) 3 (stream blobAB)).1.1
  = Some (ErrHashMismatch (cacheKey CAS (stand_in_hex (blobAB ++ blobA)))
            digestAB) ∧
  (Put stand_in_hex no_faults nearlyFull CAS digestAB 3 (stream blobAB)).1.1
  = Some (ErrSizeMismatch 3 2) ∧
  Stats nearlyFull = (2, 1%nat) ∧
  Stats (Put stand_in_hex no_faults nearlyFull CAS digestAB 3
           (stream blobAB)).2
  = (0, 0%nat).
Proof. vm_compute. repeat split. Qed.


(** C9 at work, scenario S6: the action result refers to a CAS blob
    that is not there. *)
Lemma validator_outcomes_S6 :
  (GetValidatedActionResult decodeAction decodeTree no_faults
     (withAction ["1"%byte]) digestA).1 = Missing.
Proof.
  destruct (ValidatorFacts.validator_outcomes decodeAction decodeTree
              no_faults (withAction ["1"%byte]) digestA) as [_ H].
  specialize (H (stream ["1"%byte]) 1).
  refine (eq_trans (H _ _ _ _ _) _).
  - vm_compute; reflexivity.
  - reflexivity.
  - reflexivity.
  - repeat constructor. intros _. by eexists.
  - constructor.
  - vm_compute; reflexivity.
Defined.

(** C9 fails as stated: the action result of payload "2" refers to the
    CAS digest [zeros], which [Contains] reports absent, and the
    validator returns the action result: the output file that carries
    the digest has its contents inline, and is not looked up. *)
Lemma inline_output_is_not_looked_up :
  let c := withAction ["2"%byte] in
  decodeAction ["2"%byte] = Some (sampleAction true) ∧
  ((fun f => Hash <$> file_Digest f) <$> OutputFiles (sampleAction true))
    = [Some zeros] ∧
  (Contains c CAS zeros).1 = (false, -1) ∧
  (GetValidatedActionResult decodeAction decodeTree no_faults c digestA).1
  = Valid (sampleAction true) ["2"%byte].
Proof. vm_compute. repeat split. Qed.

(** C10 at work: "a" is held; a second put under its digest sends "b"
    and fails; the key is gone and the file is still there. *)
Lemma failed_overwrite_forgets_key_S1 :
  let c' :=
    (Put stand_in_hex no_faults holdingA CAS digestA 1
       (stream ["b"%byte])).2 in
  vouches holdingA (cacheKey CAS digestA) = true ∧
  indexed c' (cacheKey CAS digestA) = None ∧
  fs c' !! cacheFilePath CAS "/data" digestA = Some blobA ∧
  (Disk.Get no_faults c' CAS digestA).1 = notFound ∧
  (Contains c' CAS digestA).1 = (false, -1).
Proof.
  split; [vm_compute; reflexivity|].
  destruct (SettledFacts.failed_overwrite_forgets_key stand_in_hex
              decodeAction decodeTree no_faults
              no_faults holdingA CAS digestA 1 (stream ["b"%byte])
              {| size := 1; committed := true; ref := 0%nat |} blobA
              (ErrHashMismatch (cacheKey CAS digestA)
                 (stand_in_hex ["b"%byte])))
    as (Hi & Hfile & Hnext).
  - exact holdingA_reachable.
  - vm_compute; reflexivity.
  - vm_compute; reflexivity.
  - vm_compute; reflexivity.
  - vm_compute; reflexivity.
  - split; [exact Hi|]. split; [exact Hfile|]. exact (Hnext eq_refl).
Defined.

End Scenarios.

(** * Facts about keys and paths *)

Module PathFacts.
Import LRU LRUFacts Disk DiskFacts DiskMore.

Lemma length_append (s1 s2 : string) :
  String.length (s1 +:+ s2) = (String.length s1 + String.length s2)%nat.
Proof. induction s1 as [|a s1 IH]; simpl; [done|]. by rewrite IH. Qed.

Lemma prefix2_length hash :
  (2 <= String.length hash)%nat ->
  String.length (String.substring 0 2 hash) = 2%nat.
Proof.
  destruct hash as [|a [|b t]]; simpl; try lia. intros _.
  by destruct t.
Qed.

Lemma cacheKey_length kind hash :
  String.length hash = sha256HashStrSize ->
  String.length (cacheKey kind hash)
  = (String.length (EntryKind_String kind) + 68)%nat.
Proof.
  intros Hlen. unfold cacheKey, filepath_Join.
  rewrite !length_append, prefix2_length, Hlen; [|rewrite Hlen]; simpl;
    unfold sha256HashStrSize; lia.
Qed.



End PathFacts.

(** * Facts about the index and the directory together *)

Module ConsistencyFacts.
Import LRU LRUFacts Disk DiskFacts ValidatorFacts DiskMore PathFacts.

Lemma agree_sub cacheDir (files : FS) es' es :
  sublist es' es -> agree cacheDir files es -> agree cacheDir files es'.
Proof.
  intros Hsub [Hnd Hall]. split.
  - by eapply NoDup_keys_sub.
  - by eapply Forall_sub.
Qed.

Lemma agree_touch cacheDir (files : FS) l k :
  agree cacheDir files (entries l) ->
  agree cacheDir files (entries (LRU.Get l k).2).
Proof.
  intros Hag. rewrite lruGet_spec.
  destruct (lookup k (entries l)) as [it|] eqn:Hl; simpl; [|done].
  pose proof (agree_sub _ _ _ _ (without_sublist k (entries l)) Hag)
    as [Hnd Hall].
  split.
  - rewrite fmap_app. apply NoDup_app. split; [done|]. split.
    + intros x Hx Hk. simpl in Hk. apply list_elem_of_singleton in Hk as ->.
      by apply (without_keys k (entries l)).
    + simpl. apply NoDup_singleton.
  - apply Forall_app. split; [done|]. apply Forall_singleton.
    destruct Hag as [_ Hall0]. rewrite Forall_forall in Hall0.
    apply Hall0. by apply lookup_elem.
Qed.

Lemma agree_evict cacheDir (files : FS) gone kept :
  agree cacheDir files (gone ++ kept) ->
  agree cacheDir (foldl (onEvict cacheDir) files gone) kept.
Proof.
  intros [Hnd Hall]. rewrite fmap_app in Hnd.
  apply NoDup_app in Hnd as (_ & Hdis & Hnk).
  apply Forall_app in Hall as [Hg Hk]. split; [done|].
  rewrite Forall_forall in Hg. rewrite Forall_forall in Hk.
  apply Forall_forall. intros e He.
  destruct (Hk e He) as (Hc & Hb & data & Hf & Hs).
  split; [done|]. split; [done|]. exists data. split; [|done].
  rewrite evicted_kept; [done|]. intros g Hgin. split.
  - by destruct (Hg g Hgin).
  - intros Heq. apply (Hdis (fst g)).
    + apply list_elem_of_fmap. by exists g.
    + rewrite Heq. apply list_elem_of_fmap. by exists e.
Qed.

Lemma agree_other cacheDir (files files' : FS) es :
  (∀ e : entry, e ∈ es ->
     files' !! filepath_Join cacheDir (fst e)
     = files !! filepath_Join cacheDir (fst e)) ->
  agree cacheDir files es -> agree cacheDir files' es.
Proof.
  intros Hsame [Hnd Hall]. split; [done|].
  rewrite Forall_forall in Hall. apply Forall_forall. intros e He.
  destruct (Hall e He) as (Hc & Hb & data & Hf & Hs).
  split; [done|]. split; [done|]. exists data. split; [|done].
  by rewrite Hsame.
Qed.

Lemma blob_path_not_tmp cacheDir k kind hash :
  blobKey k -> String.length hash = sha256HashStrSize ->
  filepath_Join cacheDir k ≠ cacheFilePath kind cacheDir hash +:+ ".tmp".
Proof.
  intros (kind' & hash' & Hlen' & ->) Hlen H.
  apply (f_equal String.length) in H.
  unfold cacheFilePath, filepath_Join in H.
  rewrite !length_append, !cacheKey_length in H by done.
  destruct kind, kind'; simpl in H; lia.
Qed.

Lemma agree_blob_keys cacheDir (files : FS) es (e : entry) :
  agree cacheDir files es -> e ∈ es -> blobKey (fst e).
Proof.
  intros [_ Hall] He. rewrite Forall_forall in Hall.
  by destruct (Hall e He) as (_ & Hb & _).
Qed.

Lemma agree_tmp_written cacheDir (files : FS) es kind hash data :
  String.length hash = sha256HashStrSize ->
  agree cacheDir files es ->
  agree cacheDir (<[cacheFilePath kind cacheDir hash +:+ ".tmp" := data]> files)
    es.
Proof.
  intros Hlen Hag. eapply agree_other; [|exact Hag].
  intros e He. apply lookup_insert_ne. apply not_eq_sym.
  apply blob_path_not_tmp; [|done]. by eapply agree_blob_keys.
Qed.

Lemma agree_tmp_removed cacheDir (files : FS) es kind hash :
  String.length hash = sha256HashStrSize ->
  agree cacheDir files es ->
  agree cacheDir (delete (cacheFilePath kind cacheDir hash +:+ ".tmp") files)
    es.
Proof.
  intros Hlen Hag. eapply agree_other; [|exact Hag].
  intros e He. apply lookup_delete_ne. apply not_eq_sym.
  apply blob_path_not_tmp; [|done]. by eapply agree_blob_keys.
Qed.

Lemma agree_final_written cacheDir (files : FS) es key data :
  key ∉ es.*1 ->
  agree cacheDir files es ->
  agree cacheDir (<[filepath_Join cacheDir key := data]> files) es.
Proof.
  intros Hfresh Hag. eapply agree_other; [|exact Hag].
  intros e He. apply lookup_insert_ne. intros Heq.
  apply Join_inj in Heq. apply Hfresh. rewrite Heq.
  apply list_elem_of_fmap. by exists e.
Qed.

Lemma agree_add cacheDir (files : FS) kept key item data :
  agree cacheDir files kept ->
  key ∉ kept.*1 -> blobKey key -> committed item = true ->
  files !! filepath_Join cacheDir key = Some data ->
  size item = Z.of_nat (length data) ->
  agree cacheDir files (kept ++ [(key, item)]).
Proof.
  intros [Hnd Hall] Hfresh Hb Hc Hf Hs. split.
  - rewrite fmap_app. apply NoDup_app. split; [done|]. split.
    + intros x Hx Hk. simpl in Hk. apply list_elem_of_singleton in Hk as ->.
      done.
    + simpl. apply NoDup_singleton.
  - apply Forall_app. split; [done|]. apply Forall_singleton.
    split; [done|]. split; [done|]. by exists data.
Qed.

Lemma commitRef_settled r (es : list entry) :
  Forall (fun e : entry => committed (snd e) = true) es ->
  commitRef r es = es.
Proof.
  unfold commitRef. induction 1 as [|[k [n b i]] es He _ IH]; [done|].
  rewrite fmap_cons, IH. f_equal. simpl in *. subst b.
  by destruct (Nat.eqb i r).
Qed.

Lemma agree_committed cacheDir (files : FS) es :
  agree cacheDir files es ->
  Forall (fun e : entry => committed (snd e) = true) es.
Proof.
  intros [_ Hall]. eapply Forall_impl; [exact Hall|].
  by intros e (Hc & _).
Qed.

Lemma without_last key (kept : list entry) item :
  key ∉ kept.*1 -> without key (kept ++ [(key, item)]) = kept.
Proof.
  intros Hfresh. unfold without. rewrite List.filter_app. simpl.
  unfold hasKey at 2. simpl. rewrite String.eqb_refl. simpl.
  rewrite app_nil_r. by apply without_fresh.
Qed.






Section Puts.
Variable sha256_hex : list byte -> string.

Lemma Put_agree env c kind hash n r :
  consistent c -> consistent (Put sha256_hex env c kind hash n r).2.
Proof.
  intros Hc. unfold Put.
  destruct (negb _) eqn:Hlen; [done|].
  apply negb_false_iff, Nat.eqb_eq in Hlen.
  destruct (put_reserve _ _ _) as [res c1] eqn:Hres.
  pose proof (put_reserve_spec _ _ _ _ _ Hres) as (Hd1 & _ & _ & Hcase).
  pose proof (agree_touch _ _ _ (cacheKey kind hash) Hc) as Ht.
  destruct res as [r0| |].
  - destruct Hcase as (-> & _ & _ & gone & HA & Hfs1).
    apply Add_spec in HA as (kept & Hw & _ & _ & Hl1).
    assert (agree (dir c) (fs c1) kept) as Hk.
    { rewrite Hfs1. apply agree_evict. rewrite <- Hw.
      eapply agree_sub; [apply without_sublist|exact Ht]. }
    pose proof (kept_fresh _ _ _ _ Hw) as Hfresh.
    destruct (put_upload _ _ _ _ _ _ _) as [[[err sc] r'] c2] eqn:Hup.
    pose proof (put_upload_spec _ _ _ _ _ _ _ _ _ _ _ Hup)
      as (Hl2 & Hd2 & _ & _ & _ & Hcase2).
    pose proof (put_release_spec env kind hash n (nextRef c) sc c2)
      as (Hd3 & _ & Hfs3 & _ & Hl3).
    simpl. unfold consistent. rewrite Hd3, Hfs3, Hl3, Hd2, Hd1.
    rewrite Hd1 in Hcase2. destruct sc.
    + destruct Hcase2 as (_ & Hn & _ & _ & Hfs2 & _).
      simpl. rewrite Hl2, Hl1. simpl.
      rewrite Hfs2. unfold commitRef. rewrite fmap_app.
      fold (commitRef (nextRef c) kept).
      rewrite commitRef_settled by by eapply agree_committed.
      simpl. rewrite Nat.eqb_refl.
      eapply agree_add.
      * apply agree_final_written; [done|]. by apply agree_tmp_removed.
      * done.
      * by exists kind, hash.
      * done.
      * apply lookup_insert_eq.
      * done.
    + rewrite Hl2, Hl1. simpl. rewrite without_last by done.
      destruct Hcase2 as (_ & [[-> _]|[-> _]]); [done|].
      by apply agree_tmp_removed.
  - destruct Hcase as (_ & ->). done.
  - destruct Hcase as (_ & gone & HA & Hfs1).
    apply Add_spec in HA as (kept & Hw & _ & _ & Hl1).
    simpl. unfold consistent. rewrite Hd1, Hfs1, Hl1. simpl.
    apply agree_evict. rewrite <- Hw.
    eapply agree_sub; [apply without_sublist|exact Ht].
Qed.

End Puts.

Section Engine.
Variable sha256_hex : list byte -> string.
Variable unmarshalActionResult : list byte -> option ActionResult.
Variable unmarshalTree : list byte -> option Tree.


End Engine.

(** X4.  A blob the index holds in a cache whose index and directory
    agree is served from its file: [Contains] reports the recorded
    size, and [Get] returns the file's bytes with that size, which is
    their number. *)
Theorem indexed_blob_is_served env c kind hash it :
  consistent c ->
  String.length hash = sha256HashStrSize ->
  indexed c (cacheKey kind hash) = Some it ->
  healthy env (cacheFilePath kind (dir c) hash) ->
  ∃ data,
    fs c !! cacheFilePath kind (dir c) hash = Some data ∧
    size it = Z.of_nat (length data) ∧
    (Contains c kind hash).1 = (true, size it) ∧
    (Disk.Get env c kind hash).1
    = (Some {| rd_data := data; rd_err := None |}, size it, None).
Proof.
  intros [_ Hall] Hlen Hidx Hh.
  pose proof (lookup_elem _ _ _ Hidx) as Hin.
  rewrite Forall_forall in Hall.
  destruct (Hall _ Hin) as (Hcm & _ & data & Hf & Hs). simpl in *.
  exists data. split; [done|]. split; [done|]. split.
  - rewrite Contains_spec by done. simpl. by rewrite Hidx, Hcm.
  - pose proof (Get_local env c kind hash Hlen) as HG. simpl in HG.
    rewrite Hidx, Hcm in HG. rewrite HG.
    unfold os_Stat, os_Open, fault. rewrite !Hh.
    unfold cacheFilePath. rewrite Hf. simpl. by rewrite Hs.
Qed.

End ConsistencyFacts.

(** * Facts about the proxy paths of Get and Put *)

Module ProxyFacts.
Import LRU LRUFacts Disk DiskFacts DiskMore PathFacts ConsistencyFacts.

(** [get_fetch] when the proxy answers with a stream that ends well and
    the temp file can be written. *)
Lemma get_fetch_copied env p kind hash c r foundSize :
  proxy_Get p kind hash = (Some r, foundSize, None) ->
  rd_err r = None ->
  let final := cacheFilePath kind (dir c) hash in
  let tmp := final +:+ ".tmp" in
  env SysCreate tmp = false -> env SysWrite tmp = false ->
  let c0 := emit c (EvProxyGet kind hash) in
  get_fetch env p kind hash c =
    if negb (Z.of_nat (length (rd_data r)) =? foundSize) then
      (notFound, false, true, foundSize,
       set_fs c0 (<[tmp := rd_data r]> (fs c)))
    else
      match fault env SysSync tmp with
      | Some e =>
          ((None, -1, Some e), false, true, foundSize,
           set_fs c0 (<[tmp := rd_data r]> (fs c)))
      | None =>
          match fault env SysClose tmp with
          | Some e =>
              ((None, -1, Some e), false, true, foundSize,
               set_fs c0 (<[tmp := rd_data r]> (fs c)))
          | None =>
              match fault env SysRename tmp with
              | Some e =>
                  ((None, -1, Some e), false, true, foundSize,
                   set_fs c0 (<[tmp := rd_data r]> (fs c)))
              | None =>
                  let files' := <[final := rd_data r]> (delete tmp (fs c)) in
                  let c1 := emit (set_fs c0 files') (EvOpen final) in
                  match os_Open env final files' with
                  | inr f2 => ((Some f2, foundSize, None), true, true,
                               foundSize, c1)
                  | inl e => ((None, -1, Some e), true, true, foundSize, c1)
                  end
              end
          end
      end.
Proof.
  intros HP Hr final tmp Hcr Hwr c0. unfold get_fetch. rewrite HP.
  unfold os_Create, io_Copy, fault. fold final. fold tmp.
  simpl. rewrite Hcr, Hwr, Hr. simpl.
  rewrite insert_insert_eq.
  destruct (negb _); [done|].
  destruct (env SysSync tmp); [done|].
  destruct (env SysClose tmp); [done|].
  unfold os_Rename, fault. destruct (env SysRename tmp); [done|].
  rewrite lookup_insert_eq, delete_insert_eq. done.
Qed.


(** [Get] of a key the index lacks, answered by the proxy with a
    stream of the announced length, on a directory that takes the
    file. *)
Lemma Get_fetched env c kind hash p data :
  String.length hash = sha256HashStrSize ->
  indexed c (cacheKey kind hash) = None ->
  proxy c = Some p ->
  proxy_Get p kind hash
    = (Some {| rd_data := data; rd_err := None |},
       Z.of_nat (length data), None) ->
  let final := cacheFilePath kind (dir c) hash in
  let tmp := final +:+ ".tmp" in
  healthy env tmp -> healthy env final ->
  Z.of_nat (length data) <= MaxSize c ->
  ∃ gone1 gone2 kept2 c',
    Disk.Get env c kind hash
    = ((Some {| rd_data := data; rd_err := None |},
        Z.of_nat (length data), None), c') ∧
    dir c' = dir c ∧ proxy c' = proxy c ∧
    entries (lru c')
    = kept2 ++ [(cacheKey kind hash,
                 {| size := Z.of_nat (length data); committed := true;
                    ref := S (nextRef c) |})] ∧
    (cacheKey kind hash ∉ kept2.*1) ∧
    (∀ g, g ∈ gone2 -> g ∈ entries (lru c) ∧ fst g ≠ cacheKey kind hash) ∧
    fs c'
    = foldl (onEvict (dir c))
        (<[final := data]>
           (delete tmp (foldl (onEvict (dir c)) (fs c) gone1))) gone2 ∧
    trace c' = trace c ++ [EvCacheMiss; EvProxyGet kind hash; EvOpen final].
Proof.
  intros Hlen Hidx Hp HP final tmp Htmp Hfinal Hmax.
  unfold Disk.Get. rewrite length_ok by done.
  destruct (availableOrTryProxy _ _) as [[av tp] c1] eqn:Hav.
  pose proof (availableOrTryProxy_spec _ _ _ _ _ Hav) as (Hd1 & Hp1 & Ht1 & Hcase).
  unfold indexed in Hidx. rewrite Hidx, Hp in Hcase.
  destruct Hcase as (-> & Hn1 & gone1 & HA & Hfs1).
  apply Add_spec in HA as (kept & Hw & _ & Hl1). simpl in Hl1.
  unfold MaxSize, LRU.MaxSize in Hmax.
  destruct tp; [|destruct Hl1 as (? & _); lia].
  destruct Hl1 as (_ & Hl1).
  rewrite without_fresh in Hw by by apply lookup_None_fresh.
  simpl. rewrite Hp1, Hp.
  assert (env SysCreate
            (cacheFilePath kind (dir (emit c1 EvCacheMiss)) hash +:+ ".tmp")
          = false) as Hcr by (simpl; rewrite Hd1; apply Htmp).
  assert (env SysWrite
            (cacheFilePath kind (dir (emit c1 EvCacheMiss)) hash +:+ ".tmp")
          = false) as Hwr by (simpl; rewrite Hd1; apply Htmp).
  pose proof (get_fetch_copied env p kind hash (emit c1 EvCacheMiss)
                {| rd_data := data; rd_err := None |} _ HP eq_refl Hcr Hwr)
    as HF.
  cbv zeta in HF. simpl in HF. rewrite Hd1 in HF. fold final in HF.
  fold tmp in HF. rewrite Z.eqb_refl in HF. simpl in HF.
  unfold fault, os_Open in HF. rewrite !Htmp in HF.
  unfold fault in HF. rewrite !Hfinal, lookup_insert_eq in HF.
  rewrite HF. clear HF Hcr Hwr.
  unfold get_release. simpl.
  destruct (lruAdd _ _ _) as [ok c3] eqn:HA2.
  apply lruAdd_spec in HA2 as (l3 & gone2 & HA2 & ->). simpl in HA2.
  apply Add_spec in HA2 as (kept2 & Hw2 & _ & Hl3). simpl in Hl3.
  rewrite Hl1 in Hw2, Hl3. simpl in Hw2, Hl3.
  assert (cacheKey kind hash ∉ kept.*1) as Hfresh.
  { intros Hin. apply (lookup_None_fresh _ _ Hidx). rewrite Hw, fmap_app.
    apply elem_of_app. by right. }
  rewrite without_last in Hw2 by done.
  destruct ok; [|destruct Hl3 as (? & _); lia].
  destruct Hl3 as (_ & ->).
  exists gone1, gone2, kept2. eexists. split; [reflexivity|]. simpl.
  rewrite Hd1, Hp1, Hn1, Hfs1, Ht1. fold final. fold tmp.
  split; [done|]. split; [done|]. split; [done|]. split.
  { intros Hin. apply Hfresh. rewrite Hw2, fmap_app.
    apply elem_of_app. by right. }
  split.
  { intros g Hg. split.
    - rewrite Hw. apply elem_of_app. right. rewrite Hw2.
      apply elem_of_app. by left.
    - intros Heq. apply Hfresh. rewrite Hw2, fmap_app, <- Heq.
      apply elem_of_app. left. apply list_elem_of_fmap. by exists g. }
  split; [done|]. by rewrite <- !app_assoc.
Qed.

(** X6.  Read-through: a blob the index lacks and the proxy has is
    returned, written under its final path and indexed with its
    length; the temp file is gone, and the next [Get] is served from
    the directory without asking the proxy. *)
Theorem get_reads_through env env' c kind hash p data :
  String.length hash = sha256HashStrSize ->
  quiescent c = true ->
  indexed c (cacheKey kind hash) = None ->
  proxy c = Some p ->
  proxy_Get p kind hash
    = (Some {| rd_data := data; rd_err := None |},
       Z.of_nat (length data), None) ->
  let final := cacheFilePath kind (dir c) hash in
  let tmp := final +:+ ".tmp" in
  healthy env tmp -> healthy env final -> healthy env' final ->
  Z.of_nat (length data) <= MaxSize c ->
  let res := Disk.Get env c kind hash in
  let served := (Some {| rd_data := data; rd_err := None |},
                 Z.of_nat (length data), None) in
  res.1 = served ∧
  indexed res.2 (cacheKey kind hash)
  = Some {| size := Z.of_nat (length data); committed := true;
            ref := S (nextRef c) |} ∧
  fs res.2 !! final = Some data ∧
  fs res.2 !! tmp = None ∧
  (Disk.Get env' res.2 kind hash).1 = served ∧
  trace (Disk.Get env' res.2 kind hash).2
  = trace res.2 ++ [EvStat final; EvOpen final; EvCacheHit].
Proof.
  intros Hlen Hq Hidx Hp HP final tmp Htmp Hfinal Hfinal' Hmax res served.
  destruct (Get_fetched env c kind hash p data Hlen Hidx Hp HP Htmp Hfinal Hmax)
    as (gone1 & gone2 & kept2 & c' & HG & Hd & _ & He & Hfresh & Hgone & Hfs
        & _).
  subst res. rewrite HG. simpl.
  assert (indexed c' (cacheKey kind hash)
          = Some {| size := Z.of_nat (length data); committed := true;
                    ref := S (nextRef c) |}) as Hidx'.
  { unfold indexed. rewrite He. apply lookup_last. by apply lookup_fresh. }
  assert (fs c' !! final = Some data) as Hf.
  { rewrite Hfs. unfold final, cacheFilePath. rewrite evicted_kept.
    - apply lookup_insert_eq.
    - intros g Hg. destruct (Hgone g Hg) as [Hin Hne]. split; [|done].
      by eapply quiescent_elem. }
  split; [done|]. split; [done|]. split; [done|]. split.
  { rewrite Hfs. apply evicted_absent.
    rewrite lookup_insert_ne by (apply not_eq_sym, tmp_ne).
    apply lookup_delete_eq. }
  pose proof (Get_local env' c' kind hash Hlen) as HL. simpl in HL.
  rewrite Hidx' in HL. simpl in HL. rewrite Hd in HL. fold final in HL.
  unfold os_Stat, os_Open, fault in HL. rewrite !Hfinal', Hf in HL.
  rewrite HL. simpl. split; [done|]. by rewrite <- !app_assoc.
Qed.

Lemma get_fetch_trace env p kind hash c res sc created foundSize c' :
  get_fetch env p kind hash c = (res, sc, created, foundSize, c') ->
  trace c' =
    trace c ++ EvProxyGet kind hash ::
    (if sc then [EvOpen (cacheFilePath kind (dir c) hash)] else []).
Proof.
  unfold get_fetch. intros H.
  destruct (proxy_Get p kind hash) as [[r fsz] err].
  destruct err as [msg|]; [by injection H as <- <- <- <- <-|].
  destruct r as [r|]; [|by injection H as <- <- <- <- <-].
  destruct (os_Create _ _ _); [by injection H as <- <- <- <- <-|].
  destruct (io_Copy _ _ _ _) as [[[written err] r'] files].
  destruct err; [by injection H as <- <- <- <- <-|].
  destruct (negb _); [by injection H as <- <- <- <- <-|].
  destruct (fault env SysSync _); [by injection H as <- <- <- <- <-|].
  destruct (fault env SysClose _); [by injection H as <- <- <- <- <-|].
  destruct (os_Rename _ _ _ _); [by injection H as <- <- <- <- <-|].
  destruct (os_Open _ _ _); injection H as <- <- <- <- <-; simpl;
    by rewrite <- app_assoc.
Qed.

Lemma get_release_trace kind hash sc created foundSize c :
  trace (get_release kind hash sc created foundSize c) = trace c.
Proof.
  unfold get_release. destruct sc; simpl.
  - unfold lruAdd. simpl. by destruct (Add _ _ _) as [[l gone] ok].
  - by destruct created.
Qed.


(** X24.  [Get] asks the proxy exactly when the index does not hold
    the key, a proxy is configured and the placeholder is accepted (the
    size limit is not negative): a hit and a key in flight cause no
    request, and the request is for this blob, once. *)
Theorem get_asks_proxy_exactly_when env c kind hash :
  String.length hash = sha256HashStrSize ->
  let key := cacheKey kind hash in
  ∃ before after,
    trace (Disk.Get env c kind hash).2
    = trace c ++ before ++
      (if bool_decide (indexed c key = None ∧ is_Some (proxy c)
                       ∧ 0 <= MaxSize c)
       then [EvProxyGet kind hash] else []) ++ after ∧
    (∀ k h, EvProxyGet k h ∉ before ++ after).
Proof.
  intros Hlen key.
  assert (∀ l : list Event,
            Forall (fun ev => match ev with
                              | EvProxyGet _ _ => False | _ => True end) l ->
            ∀ k h, EvProxyGet k h ∉ l) as Hnone.
  { intros l Hall k h Hin. rewrite Forall_forall in Hall.
    by apply Hall in Hin. }
  pose proof (Get_local env c kind hash Hlen) as HL. simpl in HL. fold key in HL.
  destruct (indexed c key) as [it|] eqn:Hidx.
  { rewrite bool_decide_eq_false_2 by (by intros [? _]).
    destruct (committed it).
    - rewrite HL.
      destruct (os_Stat _ _ _); [|destruct (os_Open _ _ _)]; simpl.
      + exists [EvStat (cacheFilePath kind (dir c) hash); EvCacheMiss], [].
        split; [by rewrite <- !app_assoc|].
        apply Hnone. repeat constructor.
      + exists [EvStat (cacheFilePath kind (dir c) hash);
                EvOpen (cacheFilePath kind (dir c) hash); EvCacheMiss], [].
        split; [by rewrite <- !app_assoc|].
        apply Hnone. repeat constructor.
      + exists [EvStat (cacheFilePath kind (dir c) hash);
                EvOpen (cacheFilePath kind (dir c) hash); EvCacheHit], [].
        split; [by rewrite <- !app_assoc|].
        apply Hnone. repeat constructor.
    - rewrite HL. simpl. exists [EvCacheMiss], [].
      split; [done|]. apply Hnone. repeat constructor. }
  destruct (proxy c) as [p|] eqn:Hp.
  2:{ rewrite bool_decide_eq_false_2 by (by intros (_ & [? ?] & _)).
      rewrite (HL eq_refl). simpl. exists [EvCacheMiss], [].
      split; [done|]. apply Hnone. repeat constructor. }
  clear HL. unfold Disk.Get. rewrite length_ok by done. fold key.
  destruct (availableOrTryProxy _ _) as [[av tp] c1] eqn:Hav.
  pose proof (availableOrTryProxy_spec _ _ _ _ _ Hav)
    as (Hd1 & Hp1 & Ht1 & Hcase).
  unfold indexed in Hidx. rewrite Hidx, Hp in Hcase.
  destruct Hcase as (-> & _ & gone & HA & _).
  apply Add_spec in HA as (kept & _ & _ & Hl1). simpl in Hl1.
  unfold MaxSize, LRU.MaxSize. simpl. rewrite Hp1, Hp.
  destruct tp.
  - destruct Hl1 as (Hmax & _).
    rewrite bool_decide_eq_true_2 by (split; [done|split; [by eexists|done]]).
    destruct (get_fetch _ _ _ _ _) as [[[[res sc] created] fsz] c2] eqn:HF.
    apply get_fetch_trace in HF. simpl in HF. simpl.
    rewrite get_release_trace, HF, Ht1.
    exists [EvCacheMiss].
    exists (if sc then [EvOpen (cacheFilePath kind (dir c1) hash)] else []).
    split; [by rewrite <- !app_assoc|].
    apply Hnone. destruct sc; repeat constructor.
  - destruct Hl1 as (Hmax & _).
    rewrite bool_decide_eq_false_2 by (intros (_ & _ & ?); lia).
    simpl. rewrite Ht1. exists [EvCacheMiss], [].
    split; [done|]. apply Hnone. repeat constructor.
Qed.

Section WriteThrough.
Variable sha256_hex : list byte -> string.

(** X7.  Write-through: [Put] hands a blob to the proxy exactly when it
    has committed it, after opening the stored file, with the expected
    size and the bytes it stored.  A [Put] that fails, is refused or
    finds an upload of the key in flight makes no request. *)
Theorem put_writes_through env c kind hash n r :
  let res := Put sha256_hex env c kind hash n r in
  let final := cacheFilePath kind (dir c) hash in
  trace res.2 =
    trace c ++
    (if accepts c kind hash n then
       match res.1.1, proxy c with
       | None, Some _ =>
           EvOpen final ::
           (if env SysOpen final then []
            else [EvProxyPut kind hash n (rd_data r)])
       | _, _ => []
       end
     else []).
Proof.
  intros res final. subst res. unfold Put, accepts.
  destruct (Nat.eqb _ _); simpl; [|by rewrite app_nil_r].
  destruct (put_reserve _ _ _) as [rs c1] eqn:Hres.
  pose proof (put_reserve_spec _ _ _ _ _ Hres) as (Hd1 & Hp1 & Ht1 & _).
  destruct rs as [r0| |]; simpl; [|by rewrite Ht1, app_nil_r..].
  destruct (put_upload _ _ _ _ _ _ _) as [[[err sc] r'] c2] eqn:Hup.
  pose proof (put_upload_spec _ _ _ _ _ _ _ _ _ _ _ Hup)
    as (_ & Hd2 & Hp2 & Ht2 & _ & Hcase).
  simpl. unfold put_release. destruct sc.
  - destruct Hcase as (-> & _ & _ & _ & Hfs2 & _). simpl.
    rewrite Hp2, Hp1. destruct (proxy c) as [p|]; simpl.
    + rewrite Hd2, Hfs2, Hd1. fold final.
      unfold os_Open, fault. rewrite lookup_insert_eq.
      destruct (env SysOpen final); simpl; rewrite Ht2, Ht1;
        by rewrite <- ?app_assoc.
    + by rewrite Ht2, Ht1, app_nil_r.
  - destruct Hcase as ([e ->] & _). simpl.
    assert (trace c2 = trace c ++ []) as Ht by by rewrite Ht2, Ht1, app_nil_r.
    destruct (proxy _); exact Ht.
Qed.

End WriteThrough.

End ProxyFacts.

(** * Facts about eviction *)

Module EvictionFacts.
Import LRU LRUFacts Disk DiskFacts DiskMore PathFacts ConsistencyFacts.




Section Shape.
Variable sha256_hex : list byte -> string.



End Shape.

End EvictionFacts.

(** * Facts about lookups and the validator *)

Module LookupFacts.
Import LRU LRUFacts Disk DiskFacts ValidatorFacts SettledFacts DiskMore.

Lemma Get_sameStore env c0 c kind hash :
  sameStore c0 c -> sameStore c0 (Disk.Get env c kind hash).2.
Proof.
  intros (Hp & Hd & Hf & Hs & Hi). unfold Disk.Get.
  destruct (negb _); [done|].
  unfold availableOrTryProxy. rewrite lruGet_spec.
  assert (sameStore c0
            (set_lru c (LRU.Get (lru c) (cacheKey kind hash)).2)) as Ht.
  { split; [done|]. split; [done|]. split; [done|]. split.
    - rewrite lruGet_spec. simpl. by destruct (lookup _ _).
    - intros k. by rewrite indexed_touch. }
  rewrite lruGet_spec in Ht.
  destruct (lookup _ _) as [it|]; simpl.
  - destruct (negb (committed it)); simpl; [done|].
    destruct (os_Stat _ _ _); [done|]. by destruct (os_Open _ _ _).
  - rewrite Hp. simpl. rewrite ?Hp. simpl in Ht. done.
Qed.

Lemma Contains_sameStore c0 c kind hash :
  sameStore c0 c -> sameStore c0 (Contains c kind hash).2.
Proof.
  intros (Hp & Hd & Hf & Hs & Hi). unfold Contains.
  destruct (negb _); [done|].
  assert (sameStore c0
            (set_lru c (LRU.Get (lru c) (cacheKey kind hash)).2)) as Ht.
  { split; [done|]. split; [done|]. split; [done|]. split.
    - rewrite lruGet_spec. simpl. by destruct (lookup _ _).
    - intros k. by rewrite indexed_touch. }
  destruct (LRU.Get _ _) as [val l]. simpl in *.
  destruct (match val with Some item => committed item | None => false end);
    [done|].
  by rewrite Hp.
Qed.

Section Validator.
Variable sha256_hex : list byte -> string.
Variable unmarshalActionResult : list byte -> option ActionResult.
Variable unmarshalTree : list byte -> option Tree.

(** X9.  Without a proxy, [Get] and [GetValidatedActionResult] are
    read-only: they change no file, and the index holds the same items
    under the same keys with the same total; only the recency order
    and the counters move. *)
Theorem lookups_are_read_only env c kind hash :
  proxy c = None ->
  sameStore c (Disk.Get env c kind hash).2 ∧
  sameStore c
    (GetValidatedActionResult unmarshalActionResult unmarshalTree
       env c hash).2.
Proof.
  intros Hp. assert (sameStore c c) as H0 by done. split.
  - by apply Get_sameStore.
  - apply (keeps_validate _ _ (sameStore c)); [| |done].
    + intros. by apply Get_sameStore.
    + intros. by apply Contains_sameStore.
Qed.

(** X10.  Between operations no upload is left in flight: in every
    cache the engine can reach from [New], each key of the index is
    committed, so that no later [Put] of it is dropped as a duplicate
    and no [Get] of it is answered "not found" for being in
    progress. *)
Theorem nothing_left_in_flight c key :
  reachable sha256_hex unmarshalActionResult unmarshalTree c ->
  inFlight c key = false ∧
  ∀ it, indexed c key = Some it -> committed it = true.
Proof.
  intros Hr.
  pose proof (reachable_quiescent _ _ _ _ Hr) as Hq.
  pose proof (quiescent_not_inFlight _ key Hq) as Hn.
  split; [done|]. intros it Hi. unfold inFlight in Hn. rewrite Hi in Hn.
  by destruct (committed it).
Qed.

Lemma rejecting_pass : rejecting pass.
Proof. by intros c v. Qed.

Lemma rejecting_next a b : rejecting a -> rejecting b -> rejecting (next a b).
Proof.
  intros Ha Hb c v. unfold next. specialize (Ha c).
  destruct (a c) as [[w|] c1]; simpl in *.
  - intros [= <-]. by apply Ha.
  - apply Hb.
Qed.

Lemma rejecting_forEach {A} (body : A -> Check) l :
  (∀ x, rejecting (body x)) -> rejecting (forEach body l).
Proof.
  intros Hb. induction l as [|x l IH]; simpl; [apply rejecting_pass|].
  by apply rejecting_next.
Qed.

Lemma rejecting_requireBlob hash : rejecting (requireBlob hash).
Proof.
  intros c v. unfold requireBlob.
  destruct (Contains c CAS hash) as [[found sz] c1].
  destruct found; simpl; [done|]. by intros [= <-].
Qed.

Lemma rejecting_checkOutputFile f : rejecting (checkOutputFile f).
Proof.
  unfold checkOutputFile. destruct (Nat.eqb _ _); [|apply rejecting_pass].
  destruct (file_Digest f) as [d|]; [|by intros c v [= <-]].
  destruct (SizeBytes d >? 0); [apply rejecting_requireBlob|apply rejecting_pass].
Qed.

Lemma rejecting_checkFileNode f : rejecting (checkFileNode f).
Proof.
  unfold checkFileNode.
  destruct (node_Digest f); [apply rejecting_requireBlob|apply rejecting_pass].
Qed.

Lemma rejecting_checkStdDigest d : rejecting (checkStdDigest d).
Proof.
  unfold checkStdDigest. destruct d as [d|]; [|apply rejecting_pass].
  destruct (SizeBytes d >? 0); [apply rejecting_requireBlob|apply rejecting_pass].
Qed.

Lemma rejecting_checkOutputDirectory env d :
  rejecting (checkOutputDirectory unmarshalTree env d).
Proof.
  intros c v. unfold checkOutputDirectory.
  destruct (TreeDigest d) as [td|]; [|by intros [= <-]].
  destruct (Disk.Get env c CAS (Hash td)) as [[[r sz] err] c1].
  destruct r as [r|], err as [e|]; try by intros [= <-].
  destruct (negb _); [by intros [= <-]|].
  destruct (ioutil_ReadAll r); [by intros [= <-]|].
  destruct (unmarshalTree _) as [tree|]; [|by intros [= <-]].
  apply rejecting_next.
  - apply rejecting_forEach, rejecting_checkFileNode.
  - apply rejecting_forEach. intros child.
    apply rejecting_forEach, rejecting_checkFileNode.
Qed.

(** X11.  What the validator returns as valid is what is stored: the
    bytes are those of the AC entry, which is not empty and was read
    without error, and the action result is their decoding. *)
Theorem valid_result_is_the_stored_entry env c hash result acdata :
  (GetValidatedActionResult unmarshalActionResult unmarshalTree
     env c hash).1 = Valid result acdata ->
  ∃ rdr sz,
    (Disk.Get env c AC hash).1 = (Some rdr, sz, None) ∧ 0 < sz ∧
    rd_err rdr = None ∧ rd_data rdr = acdata ∧
    unmarshalActionResult acdata = Some result.
Proof.
  unfold GetValidatedActionResult.
  destruct (Disk.Get env c AC hash) as [[[rdr sz] err] c1]. simpl.
  destruct err as [e|]; [done|]. destruct rdr as [rdr|]; [|done].
  destruct (sz <=? 0) eqn:Hsz; [done|]. apply Z.leb_gt in Hsz.
  unfold ioutil_ReadAll. destruct (rd_err rdr) eqn:Herr; [done|].
  destruct (unmarshalActionResult (rd_data rdr)) as [res|] eqn:Hun; [|done].
  match goal with |- (let 'pair _ _ := ?ch c1 in _).1 = _ -> _ =>
    assert (rejecting ch) as Hrej end.
  { apply rejecting_next; [apply rejecting_forEach, rejecting_checkOutputFile|].
    apply rejecting_next;
      [apply rejecting_forEach; intros d; apply rejecting_checkOutputDirectory|].
    apply rejecting_next; apply rejecting_checkStdDigest. }
  specialize (Hrej c1).
  match goal with |- (let 'pair _ _ := ?x in _).1 = _ -> _ =>
    destruct x as [[v|] c2] end; simpl.
  - intros ->. by specialize (Hrej _ eq_refl).
  - intros [= <- <-]. by exists rdr, sz.
Qed.

(** X12.  An action result that lacks a digest where the validator
    dereferences one stops it with a run-time panic: on an output file
    without inline contents that follows inline ones only, and on an
    output directory without Tree digest that comes first, once the
    output files have passed. *)
Theorem missing_digest_panics env c hash rdr sz result :
  (Disk.Get env c AC hash).1 = (Some rdr, sz, None) -> 0 < sz ->
  rd_err rdr = None ->
  unmarshalActionResult (rd_data rdr) = Some result ->
  (∀ inline f rest,
     OutputFiles result = inline ++ f :: rest ->
     Forall (fun g => file_Contents g ≠ []) inline ->
     file_Contents f = [] -> file_Digest f = None ->
     (GetValidatedActionResult unmarshalActionResult unmarshalTree
        env c hash).1 = Panic) ∧
  (∀ d rest,
     Forall (fun g => file_Contents g ≠ []) (OutputFiles result) ->
     OutputDirectories result = d :: rest ->
     TreeDigest d = None ->
     (GetValidatedActionResult unmarshalActionResult unmarshalTree
        env c hash).1 = Panic).
Proof.
  intros HG Hsz Herr Hun.
  assert (∀ (l : list OutputFile) (c0 : DiskCache),
            Forall (fun g => file_Contents g ≠ []) l ->
            forEach checkOutputFile l c0 = (None, c0)) as Hinline.
  { intros l c0 Hl. induction Hl as [|g l Hg _ IH]; [done|].
    simpl. unfold next, checkOutputFile.
    destruct (file_Contents g); [done|]. simpl. exact IH. }
  unfold GetValidatedActionResult.
  destruct (Disk.Get env c AC hash) as [[[rdr' sz'] err'] c1].
  simpl in HG. injection HG as -> -> ->.
  destruct (sz <=? 0) eqn:Hle; [lia|].
  unfold ioutil_ReadAll. rewrite Herr, Hun. split.
  - intros inline f rest Hof Hin Hf Hd. rewrite Hof.
    unfold next at 1.
    assert (forEach checkOutputFile (inline ++ f :: rest) c1
            = (Some Panic, c1)) as ->; [|done].
    clear Hof. induction Hin as [|g l Hg _ IH]; simpl.
    + unfold next, checkOutputFile. by rewrite Hf, Hd.
    + unfold next at 1. unfold checkOutputFile at 1.
      destruct (file_Contents g); [done|]. simpl. exact IH.
  - intros d rest Hin Hod Hd. rewrite Hod. unfold next at 1.
    rewrite Hinline by done. simpl. unfold next at 1 2.
    unfold checkOutputDirectory. by rewrite Hd.
Qed.

End Validator.

End LookupFacts.

(** * Facts about startup *)

Module StartupFacts.
Import LRU LRUFacts Disk DiskFacts DiskMore PathFacts ConsistencyFacts
  EvictionFacts.

Lemma substring_all s : String.substring 0 (String.length s) s = s.
Proof. induction s as [|a s IH]; simpl; [done|]. by rewrite IH. Qed.

Lemma prefix_split a p :
  String.prefix a p = true ->
  p = a +:+ String.substring (String.length a)
              (String.length p - String.length a) p.
Proof.
  revert p. induction a as [|x a IH]; intros p Hp; simpl.
  - by rewrite Nat.sub_0_r, substring_all.
  - destruct p as [|y p]; [done|]. simpl in Hp.
    destruct (Ascii.ascii_dec x y) as [->|]; [|done].
    exact (f_equal (String y) (IH p Hp)).
Qed.

Lemma append_assoc (a b c : string) : (a +:+ b) +:+ c = a +:+ (b +:+ c).
Proof.
  induction a as [|x a IH]; [done|]. exact (f_equal (String x) IH).
Qed.

Lemma relPath_join cacheDir p :
  String.prefix (cacheDir +:+ "/") p = true ->
  filepath_Join cacheDir (relPath cacheDir p) = p.
Proof.
  intros Hp. apply prefix_split in Hp. unfold filepath_Join, relPath.
  rewrite length_append in Hp. simpl in Hp.
  rewrite append_assoc in Hp. simpl in Hp. by rewrite <- Hp.
Qed.















End StartupFacts.

(** * Facts about the migration of the flat layout *)

Module MigrateFacts.
Import LRU LRUFacts Disk DiskFacts DiskMore PathFacts StartupFacts Migrate.

Lemma app_cons a (s1 s2 : string) :
  String a s1 +:+ s2 = String a (s1 +:+ s2).
Proof. reflexivity. Qed.

Lemma join_nil b : filepath_Join EmptyString b = String slash b.
Proof. reflexivity. Qed.

Lemma join_cons x root b :
  filepath_Join (String x root) b = String x (filepath_Join root b).
Proof. reflexivity. Qed.

Lemma hasSlash_join a b : hasSlash (filepath_Join a b) = true.
Proof.
  induction a as [|x a IH].
  - reflexivity.
  - rewrite join_cons. simpl. rewrite IH. apply orb_true_r.
Qed.

Lemma Base_join root b :
  hasSlash b = false -> filepath_Base (filepath_Join root b) = b.
Proof.
  intros Hb. induction root as [|x root IH].
  - rewrite join_nil. simpl. by rewrite Hb.
  - rewrite join_cons. simpl. by rewrite hasSlash_join.
Qed.

Lemma Dir_join root b :
  hasSlash b = false -> filepath_Dir (filepath_Join root b) = root.
Proof.
  intros Hb. induction root as [|x root IH].
  - rewrite join_nil. simpl. by rewrite Hb.
  - rewrite join_cons. simpl. by rewrite hasSlash_join, IH.
Qed.

Lemma prefix_app a s : String.prefix a (a +:+ s) = true.
Proof.
  induction a as [|x a IH]; [by destruct s|].
  rewrite app_cons. simpl. by destruct (Ascii.ascii_dec x x).
Qed.

Lemma prefix_join root b :
  String.prefix (root +:+ "/") (filepath_Join root b) = true.
Proof.
  unfold filepath_Join.
  assert (root +:+ "/" +:+ b = (root +:+ "/") +:+ b) as ->
    by by rewrite append_assoc.
  apply prefix_app.
Qed.

Lemma relPath_of_join root b : relPath root (filepath_Join root b) = b.
Proof.
  apply (Join_inj root). apply relPath_join, prefix_join.
Qed.

Lemma isDirectFile_spec root p :
  isDirectFile root p = true ↔
  ∃ b, p = filepath_Join root b ∧ hasSlash b = false.
Proof.
  unfold isDirectFile. rewrite andb_true_iff, negb_true_iff. split.
  - intros [Hp Hs]. exists (relPath root p). by rewrite relPath_join.
  - intros (b & -> & Hb). by rewrite prefix_join, relPath_of_join.
Qed.

Lemma elem_directFiles root (files : FS) p :
  p ∈ directFiles root files ↔
  is_Some (files !! p) ∧
  ∃ b, p = filepath_Join root b ∧ hasSlash b = false.
Proof.
  unfold directFiles. rewrite merge_sort_Permutation.
  rewrite list_elem_of_In, List.filter_In, <- list_elem_of_In.
  rewrite isDirectFile_spec, list_elem_of_fmap. split.
  - intros [([q data] & -> & Hin) Hb]. split; [|done].
    apply elem_of_map_to_list in Hin. by exists data.
  - intros [[data Hd] Hb]. split; [|done]. exists (p, data).
    split; [done|]. by apply elem_of_map_to_list.
Qed.

Lemma NoDup_filter_list {A} (keep : A -> bool) (l : list A) :
  NoDup l -> NoDup (List.filter keep l).
Proof.
  induction 1 as [|x l Hx _ IH]; simpl; [apply NoDup_nil_2|].
  destruct (keep x); [|done]. apply NoDup_cons. split; [|done].
  intros Hin. apply Hx. apply list_elem_of_In in Hin.
  apply List.filter_In in Hin as [Hin _]. by apply list_elem_of_In.
Qed.

Lemma directFiles_NoDup root (files : FS) : NoDup (directFiles root files).
Proof.
  unfold directFiles. rewrite merge_sort_Permutation.
  apply NoDup_filter_list, NoDup_fst_map_to_list.
Qed.

(** Where [migrateFile] moves the file [root/b]. *)
Lemma migrateFile_join env (files : FS) root b :
  hasSlash b = false ->
  migrateFile env files (filepath_Join root b) =
    if (String.length b <? 2)%nat then MigrationPanic files
    else
      match os_Rename env (filepath_Join root b)
              (filepath_Join root (filepath_Join (String.substring 0 2 b) b))
              files with
      | inl e => MigrationError e files
      | inr files' => MigrationDone files'
      end.
Proof.
  intros Hb. unfold migrateFile. by rewrite Base_join, Dir_join.
Qed.

Lemma sharded_inj b b' :
  (2 <= String.length b)%nat -> (2 <= String.length b')%nat ->
  filepath_Join (String.substring 0 2 b) b
  = filepath_Join (String.substring 0 2 b') b' ->
  b = b'.
Proof.
  intros Hl Hl' H. unfold filepath_Join in H.
  destruct b as [|x [|y t]]; [simpl in Hl; lia..|].
  destruct b' as [|x' [|y' t']]; [simpl in Hl'; lia..|].
  assert (∀ u v t0, String.substring 0 2 (String u (String v t0))
                    = String u (String v EmptyString)) as Hsub
    by (intros u v t0; simpl; by destruct t0).
  rewrite !Hsub in H. rewrite !app_cons in H. by simplify_eq.
Qed.

Lemma stopped_stays env acc l :
  (∀ files, acc ≠ MigrationDone files) ->
  foldl (migrateNext env) acc l = acc.
Proof.
  intros Hacc. induction l as [|name l IH]; [done|].
  simpl. destruct acc; [by destruct (Hacc files)|exact IH..].
Qed.

(** A walk that ends well has renamed every name it was given. *)
Lemma walk_done_only_if env root : ∀ l (files files' : FS),
  (∀ name, name ∈ l -> ∃ b, name = filepath_Join root b ∧ hasSlash b = false) ->
  foldl (migrateNext env) (MigrationDone files) l = MigrationDone files' ->
  ∀ b, filepath_Join root b ∈ l -> hasSlash b = false ->
    (2 <= String.length b)%nat ∧ env SysRename (filepath_Join root b) = false.
Proof.
  induction l as [|name l IH]; intros files files' Hl Hdone b Hb Hs;
    [by inversion Hb|].
  simpl in Hdone.
  destruct (Hl name) as (b0 & -> & Hs0); [apply elem_of_cons; by left|].
  rewrite migrateFile_join in Hdone by done.
  destruct (String.length b0 <? 2)%nat eqn:Hlen.
  { rewrite stopped_stays in Hdone by done. done. }
  apply Nat.ltb_ge in Hlen.
  destruct (os_Rename _ _ _ _) as [e|files1] eqn:Hren.
  { rewrite stopped_stays in Hdone by done. done. }
  apply elem_of_cons in Hb as [Hb|Hb].
  - apply Join_inj in Hb as ->. split; [done|].
    unfold os_Rename, fault in Hren.
    by destruct (env SysRename _).
  - eapply IH; [|exact Hdone|done|done].
    intros name Hn. apply Hl. apply elem_of_cons. by right.
Qed.

(** A walk over files with names of two bytes or more that can be
    renamed: each is moved below the sub-directory of its first two
    bytes, and nothing else changes. *)
Lemma walk_moves env root : ∀ l (files : FS),
  NoDup l ->
  (∀ name, name ∈ l ->
     is_Some (files !! name) ∧ env SysRename name = false ∧
     ∃ b, name = filepath_Join root b ∧ hasSlash b = false ∧
          (2 <= String.length b)%nat) ->
  ∃ files',
    foldl (migrateNext env) (MigrationDone files) l = MigrationDone files' ∧
    (∀ b, filepath_Join root b ∈ l -> hasSlash b = false ->
       files' !! filepath_Join root
                   (filepath_Join (String.substring 0 2 b) b)
       = files !! filepath_Join root b ∧
       files' !! filepath_Join root b = None) ∧
    (∀ p, p ∉ l ->
       (∀ b, filepath_Join root b ∈ l -> hasSlash b = false ->
          p ≠ filepath_Join root
                (filepath_Join (String.substring 0 2 b) b)) ->
       files' !! p = files !! p).
Proof.
  induction l as [|name l IH]; intros files Hnd Hl.
  { exists files. split; [done|]. split; [|done].
    intros b Hb. by inversion Hb. }
  apply NoDup_cons in Hnd as [Hname Hnd].
  destruct (Hl name) as ([data Hdata] & Hren & b0 & -> & Hs0 & Hlen0);
    [apply elem_of_cons; by left|].
  set (target := filepath_Join root
                   (filepath_Join (String.substring 0 2 b0) b0)).
  assert (∀ b, hasSlash b = false -> filepath_Join root b ≠ target) as Hflat.
  { intros b Hb Heq. apply Join_inj in Heq. subst b.
    by rewrite hasSlash_join in Hb. }
  simpl. rewrite migrateFile_join by done.
  apply Nat.ltb_ge in Hlen0 as Hlt. rewrite Hlt.
  unfold os_Rename, fault. rewrite Hren, Hdata. fold target.
  destruct (IH (<[target := data]> (delete (filepath_Join root b0) files)))
    as (files' & Hfold & Hmoved & Hother); [done| |].
  { intros name Hn.
    destruct (Hl name) as (Hsome & Hr & b & -> & Hs & Hlen);
      [apply elem_of_cons; by right|].
    split; [|split; [done|by exists b]].
    rewrite lookup_insert_ne by (apply not_eq_sym; by apply Hflat).
    rewrite lookup_delete_ne; [done|].
    intros Heq. by rewrite Heq in Hname. }
  assert (∀ b b', hasSlash b = false ->
            filepath_Join root b
            ≠ filepath_Join root
                (filepath_Join (String.substring 0 2 b') b')) as Hflat2.
  { intros b b' Hb Heq. apply Join_inj in Heq. subst b.
    by rewrite hasSlash_join in Hb. }
  assert (target ∉ l) as Ht1.
  { intros Hin. destruct (Hl target) as (_ & _ & b & Hb & Hs' & _);
      [apply elem_of_cons; by right|].
    by apply (Hflat b). }
  assert (∀ b, filepath_Join root b ∈ l -> hasSlash b = false ->
            target ≠ filepath_Join root
                       (filepath_Join (String.substring 0 2 b) b)) as Ht2.
  { intros b Hb Hs' Heq. apply Join_inj in Heq.
    destruct (Hl (filepath_Join root b)) as (_ & _ & b1 & Hb1 & _ & Hl1);
      [apply elem_of_cons; by right|].
    apply Join_inj in Hb1 as <-.
    apply sharded_inj in Heq; [|done..]. subst b. by apply Hname. }
  exists files'. split; [done|]. split.
  - intros b Hb Hs. apply elem_of_cons in Hb as [Hb|Hb].
    + apply Join_inj in Hb as ->. fold target.
      rewrite (Hother target Ht1 Ht2).
      rewrite (Hother (filepath_Join root b0) Hname)
        by (intros b Hb Hs'; by apply Hflat2).
      rewrite lookup_insert_eq, lookup_insert_ne, lookup_delete_eq
        by (apply not_eq_sym; by apply Hflat). done.
    + destruct (Hmoved b Hb Hs) as [Hm Hn]. split; [|done].
      rewrite Hm.
      rewrite lookup_insert_ne by (apply not_eq_sym; by apply Hflat).
      rewrite lookup_delete_ne; [done|].
      intros Heq. by rewrite Heq in Hname.
  - intros p Hp Hnot. rewrite Hother.
    + rewrite lookup_insert_ne.
      * rewrite lookup_delete_ne; [done|]. intros <-. apply Hp.
        apply elem_of_cons. by left.
      * intros <-. apply (Hnot b0); [apply elem_of_cons; by left|done|done].
    + intros Hin. apply Hp. apply elem_of_cons. by right.
    + intros b Hb Hs. apply Hnot; [apply elem_of_cons; by right|done].
Qed.

Lemma migrate_only_if env root (files files' : FS) :
  migrateDirectory env root files = MigrationDone files' ->
  env SysWalk root = false ∧
  ∀ b, hasSlash b = false -> is_Some (files !! filepath_Join root b) ->
    (2 <= String.length b)%nat ∧ env SysRename (filepath_Join root b) = false.
Proof.
  unfold migrateDirectory, fault. destruct (env SysWalk root); [done|].
  intros Hdone. split; [done|]. intros b Hb Hsome.
  eapply (walk_done_only_if env root); [|exact Hdone| |done].
  - intros name Hn. by apply elem_directFiles in Hn as [_ ?].
  - apply elem_directFiles. split; [done|]. by exists b.
Qed.

Lemma migrate_if env root (files : FS) :
  env SysWalk root = false ->
  (∀ b, hasSlash b = false -> is_Some (files !! filepath_Join root b) ->
     (2 <= String.length b)%nat ∧
     env SysRename (filepath_Join root b) = false) ->
  ∃ files',
    migrateDirectory env root files = MigrationDone files' ∧
    (∀ b data, hasSlash b = false ->
       files !! filepath_Join root b = Some data ->
       files' !! filepath_Join root
                   (filepath_Join (String.substring 0 2 b) b) = Some data ∧
       files' !! filepath_Join root b = None) ∧
    (∀ p,
       (∀ b, hasSlash b = false -> is_Some (files !! filepath_Join root b) ->
          p ≠ filepath_Join root b ∧
          p ≠ filepath_Join root
                (filepath_Join (String.substring 0 2 b) b)) ->
       files' !! p = files !! p).
Proof.
  intros Hwalk Hok. unfold migrateDirectory, fault. rewrite Hwalk.
  destruct (walk_moves env root (directFiles root files) files)
    as (files' & Hfold & Hmoved & Hother).
  - apply directFiles_NoDup.
  - intros name Hn. apply elem_directFiles in Hn as [Hsome (b & -> & Hb)].
    destruct (Hok b Hb Hsome) as [Hlen Hren].
    split; [done|]. split; [done|]. by exists b.
  - exists files'. split; [done|]. split.
    + intros b data Hb Hd. rewrite <- Hd. apply Hmoved; [|done].
      apply elem_directFiles. split; [by exists data|by exists b].
    + intros p Hp. apply Hother.
      * intros Hin. apply elem_directFiles in Hin as [Hsome (b & -> & Hb)].
        by destruct (Hp b Hb Hsome).
      * intros b Hin Hb. apply elem_directFiles in Hin as [Hsome _].
        by destruct (Hp b Hb Hsome).
Qed.

Lemma migrate_effect env root (files files' : FS) :
  migrateDirectory env root files = MigrationDone files' ->
  (∀ b data, hasSlash b = false ->
     files !! filepath_Join root b = Some data ->
     files' !! filepath_Join root
                 (filepath_Join (String.substring 0 2 b) b) = Some data ∧
     files' !! filepath_Join root b = None) ∧
  (∀ p,
     (∀ b, hasSlash b = false -> is_Some (files !! filepath_Join root b) ->
        p ≠ filepath_Join root b ∧
        p ≠ filepath_Join root
              (filepath_Join (String.substring 0 2 b) b)) ->
     files' !! p = files !! p).
Proof.
  intros Hdone.
  destruct (migrate_only_if _ _ _ _ Hdone) as [Hwalk Hok].
  destruct (migrate_if env root files Hwalk Hok)
    as (files2 & Hdone2 & Hmoved & Hother).
  rewrite Hdone in Hdone2. by injection Hdone2 as <-.
Qed.



(** X16.  [migrateDirectory] ends well exactly when the directory can
    be walked and every file directly in it has a name of two bytes or
    more and can be renamed; a shorter name stops it with a panic, a
    failing rename or walk with the error. *)
Theorem migration_succeeds_exactly_when env root (files : FS) :
  (∃ files', migrateDirectory env root files = MigrationDone files') ↔
  env SysWalk root = false ∧
  ∀ b, hasSlash b = false -> is_Some (files !! filepath_Join root b) ->
    (2 <= String.length b)%nat ∧ env SysRename (filepath_Join root b) = false.
Proof.
  split.
  - intros [files' Hdone]. by eapply migrate_only_if.
  - intros [Hwalk Hok].
    destruct (migrate_if env root files Hwalk Hok) as (files' & Hdone & _).
    by exists files'.
Qed.

(** X17.  A migration that ends well has moved every file directly in
    the directory below the sub-directory named by the first two bytes
    of its name, contents unchanged; every other file is as it was; no
    file is left directly in the directory, and migrating again changes
    nothing. *)
Theorem migration_moves_legacy_files env root (files files' : FS) :
  migrateDirectory env root files = MigrationDone files' ->
  (∀ b data, hasSlash b = false ->
     files !! filepath_Join root b = Some data ->
     files' !! filepath_Join root
                 (filepath_Join (String.substring 0 2 b) b) = Some data ∧
     files' !! filepath_Join root b = None) ∧
  (∀ p,
     (∀ b, hasSlash b = false -> is_Some (files !! filepath_Join root b) ->
        p ≠ filepath_Join root b ∧
        p ≠ filepath_Join root
              (filepath_Join (String.substring 0 2 b) b)) ->
     files' !! p = files !! p) ∧
  directFiles root files' = [] ∧
  migrateDirectory env root files' = MigrationDone files'.
Proof.
  intros Hdone.
  destruct (migrate_only_if _ _ _ _ Hdone) as [Hwalk Hok].
  destruct (migrate_effect _ _ _ _ Hdone) as [Hmoved Hother].
  split; [done|]. split; [done|].
  assert (directFiles root files' = []) as Hnone.
  { destruct (directFiles root files') as [|p l] eqn:Hl; [done|]. exfalso.
    assert (p ∈ directFiles root files') as Hin
      by (rewrite Hl; apply elem_of_cons; by left).
    apply elem_directFiles in Hin as [[data' Hsome] (b & -> & Hb)].
    destruct (files !! filepath_Join root b) as [data|] eqn:Hf.
    - destruct (Hmoved b data Hb Hf) as [_ Hgone]. congruence.
    - rewrite Hother in Hsome; [congruence|].
      intros b1 Hb1 Hsome1. split.
      + intros Heq. rewrite Heq, Hf in *. by destruct Hsome1.
      + intros Heq. apply Join_inj in Heq. subst b.
        by rewrite hasSlash_join in Hb. }
  split; [done|].
  unfold migrateDirectory, fault. by rewrite Hwalk, Hnone.
Qed.

(** X18.  On a cache directory already in the two-level layout
    [migrateDirectories] moves nothing, and [New] with the migration is
    [New] without it. *)
Theorem migrated_layout_needs_no_migration
    env cacheDir maxSizeBytes upstream (disk : FS) atime :
  directFiles (filepath_Join cacheDir (EntryKind_String AC)) disk = [] ->
  directFiles (filepath_Join cacheDir (EntryKind_String CAS)) disk = [] ->
  Migrate.New env cacheDir maxSizeBytes upstream disk atime =
    match Disk.New env cacheDir maxSizeBytes upstream disk atime with
    | inl e => StartupError e
    | inr c => Started c
    end.
Proof.
  intros Hac Hcas. unfold Migrate.New, Disk.New.
  destruct (fault env SysMkdirAll cacheDir); [done|].
  unfold migrateDirectories, migrateDirectory. cbn [dir fs].
  destruct (fault env SysWalk (filepath_Join cacheDir (EntryKind_String AC)));
    [done|].
  rewrite Hac. cbn [foldl].
  destruct (fault env SysWalk (filepath_Join cacheDir (EntryKind_String CAS)));
    [done|].
  rewrite Hcas. cbn [foldl]. unfold set_fs. cbn [dir proxy lru trace nextRef].
  by destruct (loadExistingFiles _ _ _).
Qed.



End MigrateFacts.

(** * Facts about a Put on a healthy directory *)

Module HealthyFacts.
Import LRU LRUFacts Disk DiskFacts DiskMore.

Section Healthy.
Variable sha256_hex : list byte -> string.

(** What an accepted [Put] returns when no system call fails on the
    temp file and the stream ends well. *)
Lemma Put_healthy env c kind hash n r :
  accepts c kind hash n = true ->
  healthy env (cacheFilePath kind (dir c) hash +:+ ".tmp") ->
  rd_err r = None ->
  (Put sha256_hex env c kind hash n r).1.1 =
    if EntryKind_eqb kind CAS && negb (String.eqb (sha256_hex (rd_data r)) hash)
    then Some (ErrHashMismatch (cacheKey kind hash) (sha256_hex (rd_data r)))
    else if negb (Z.of_nat (length (rd_data r)) =? n)
         then Some (ErrSizeMismatch n (Z.of_nat (length (rd_data r))))
         else None.
Proof.
  intros Hacc Henv Hr.
  pose proof Hacc as Hlen. apply accepts_iff in Hlen as [Hlen _].
  unfold Put. rewrite (length_ok _ Hlen).
  unfold accepts in Hacc. rewrite andb_true_iff in Hacc.
  destruct Hacc as [_ Hacc].
  destruct (put_reserve _ _ _) as [res c1] eqn:HR.
  apply put_reserve_spec in HR as (Hd & _).
  destruct res as [newItem| |]; [|done|done].
  rewrite <- Hd in Henv.
  rewrite (put_upload_healthy sha256_hex env kind hash n r c1 Henv Hr).
  destruct (_ && _); [done|]. by destruct (negb _).
Qed.

(** X20.  A blob put on a healthy directory is stored and read back:
    when no upload of the key is in flight, the declared size is the
    length of the stream and within the size limit, and - for the CAS
    only - the bytes hash to the digest, [Put] returns nil and the
    following [Get] returns the bytes and their number.  Action-cache
    and raw entries are stored under whatever key is given. *)
Theorem healthy_put_then_get env env' c kind hash data :
  String.length hash = sha256HashStrSize ->
  inFlight c (cacheKey kind hash) = false ->
  Z.of_nat (length data) <= MaxSize c ->
  (kind = CAS -> sha256_hex data = hash) ->
  healthy env (cacheFilePath kind (dir c) hash +:+ ".tmp") ->
  healthy env' (cacheFilePath kind (dir c) hash) ->
  let res :=
    Put sha256_hex env c kind hash (Z.of_nat (length data))
      {| rd_data := data; rd_err := None |} in
  res.1.1 = None ∧
  (Disk.Get env' res.2 kind hash).1
  = (Some {| rd_data := data; rd_err := None |},
     Z.of_nat (length data), None).
Proof.
  intros Hlen Hfl Hmax Hhash Henv Henv' res.
  assert (accepts c kind hash (Z.of_nat (length data)) = true) as Hacc
    by by apply accepts_iff.
  assert (res.1.1 = None) as Hok.
  { subst res. rewrite Put_healthy by done. simpl. rewrite Z.eqb_refl.
    destruct kind; simpl; try done.
    by rewrite Hhash, String.eqb_refl. }
  split; [done|].
  destruct (Put_outcome sha256_hex env c kind hash _
              {| rd_data := data; rd_err := None |} Hacc)
    as (gone & _ & Hd & _ & Hout).
  fold res in Hd, Hout. simpl in Hout. rewrite Hok in Hout.
  destruct Hout as (_ & _ & _ & _ & Hfs & Hi). simpl in Hfs.
  pose proof (Get_local env' res.2 kind hash Hlen) as HG.
  simpl in HG. rewrite Hi in HG. simpl in HG. rewrite HG, Hd, Hfs.
  unfold os_Stat, os_Open, fault. rewrite !Henv', lookup_insert_eq. done.
Qed.

End Healthy.

End HealthyFacts.

(** * Facts about the accounting of Put and the limit main sets *)

Module AccountingFacts.
Import LRU LRUFacts Disk DiskFacts DiskMore ConsistencyFacts.

Lemma length_without k (es : list entry) it :
  NoDup es.*1 -> lookup k es = Some it ->
  S (length (without k es)) = length es.
Proof.
  induction es as [|e es IH]; intros Hnd Hl; [done|].
  rewrite fmap_cons in Hnd. apply NoDup_cons in Hnd as [He Hnd].
  unfold without. simpl. fold (without k es).
  unfold lookup in Hl. simpl in Hl.
  destruct (hasKey k e) eqn:Hk; simpl in *.
  - apply hasKey_true in Hk. subst k. by rewrite without_fresh.
  - f_equal. by apply IH.
Qed.

(** Replacing a key when the new item fits in its place evicts
    nothing. *)
Lemma Add_replace l k v it :
  NoDup (entries l).*1 ->
  lookup k (entries l) = Some it ->
  size v <= maxSize l ->
  currentSize l - size it + size v <= maxSize l ->
  Add l k v =
    ({| entries := without k (entries l) ++ [(k, v)];
        currentSize := currentSize l - size it + size v;
        maxSize := maxSize l |}, [], true).
Proof.
  intros Hnd Hl Hv Hfit. unfold Add, Remove. simpl.
  rewrite (lookup_sizeUnder _ _ _ Hnd Hl).
  rewrite evict_fits by done.
  destruct (size v >? maxSize l) eqn:Hgt; [lia|done].
Qed.

Section Accounting.
Variable sha256_hex : list byte -> string.

(** X21.  The accounting of a [Put] that returns nil and needs no
    eviction: the current size grows by the new size less the size of
    the entry it replaces, and the number of items grows by one
    exactly when the key is new. *)
Theorem put_accounting env c kind hash n r :
  wf (lru c) ->
  accepts c kind hash n = true ->
  (Put sha256_hex env c kind hash n r).1.1 = None ->
  let key := cacheKey kind hash in
  let old := from_option size 0 (indexed c key) in
  (Stats c).1 - old + n <= MaxSize c ->
  Stats (Put sha256_hex env c kind hash n r).2 =
    ((Stats c).1 - old + n,
     match indexed c key with
     | Some _ => (Stats c).2
     | None => S (Stats c).2
     end).
Proof.
  intros Hwf Hacc Hok key old Hfit.
  pose proof Hacc as Hiff.
  apply accepts_iff in Hiff as (Hlen & Hfl & Hmax).
  revert Hok. unfold Put. rewrite (length_ok _ Hlen). fold key.
  unfold accepts in Hacc. rewrite andb_true_iff in Hacc.
  destruct Hacc as [_ Hacc]. fold key in Hacc.
  destruct (put_reserve _ _ _) as [res c1] eqn:HR.
  pose proof (put_reserve_spec _ _ _ _ _ HR) as (_ & _ & _ & Hcase).
  destruct res as [r0| |]; [|done|done].
  destruct Hcase as (-> & _ & _ & gone & HA & _).
  destruct (put_upload _ _ _ _ _ _ _) as [[[err sc] r'] c2] eqn:Hup.
  pose proof (put_upload_spec _ _ _ _ _ _ _ _ _ _ _ Hup)
    as (Hl2 & _ & _ & _ & _ & Hcase2).
  pose proof (put_release_spec env kind hash n (nextRef c) sc c2)
    as (_ & _ & _ & _ & Hl3).
  simpl. intros ->.
  destruct sc; [|by destruct Hcase2 as ([e ?] & _)].
  unfold Stats, CurrentSize, Len, MaxSize, LRU.MaxSize in *.
  fold key in Hl3. rewrite Hl3.
  cbn [commitItem set_lru lru entries currentSize]. unfold commitRef.
  rewrite length_fmap, Hl2.
  unfold old, indexed in *. unfold inFlight, indexed in Hfl.
  destruct Hwf as [_ _ _ Hnd].
  rewrite lruGet_spec in HA.
  destruct (lookup key (entries (lru c))) as [it|] eqn:Hl; simpl in *.
  - assert (NoDup (without key (entries (lru c)) ++ [(key, it)]).*1) as Hnd'.
    { rewrite fmap_app. apply NoDup_app. split.
      - eapply NoDup_keys_sub; [apply without_sublist|done].
      - split; [|apply NoDup_singleton].
        intros x Hx Hk. simpl in Hk.
        apply list_elem_of_singleton in Hk as ->.
        by apply (without_keys key (entries (lru c))). }
    rewrite (Add_replace _ key _ it) in HA; simpl; [| |
      apply lookup_last, lookup_without|done|done].
    + injection HA as <- _. simpl.
      rewrite without_last by apply without_keys.
      rewrite length_app. simpl. f_equal.
      rewrite Nat.add_1_r. by eapply length_without.
    + done.
  - rewrite Add_fits in HA; simpl; [|done|done|lia].
    injection HA as <- _. simpl. rewrite length_app. simpl.
    f_equal; [lia|]. by rewrite Nat.add_1_r.
Qed.

End Accounting.

(** X22.  [main] starts the cache only with a directory and a positive
    [max_size]; the byte limit it passes is [max_size] GiB, and
    positive, exactly when [max_size] is below 2^33: from there on the
    product wraps around. *)
Theorem main_byte_limit dir maxSize :
  - 2 ^ 63 <= maxSize < 2 ^ 63 ->
  (dir = EmptyString ∨ maxSize <= 0 -> Main.main dir maxSize = None) ∧
  (dir ≠ EmptyString -> 0 < maxSize ->
   ∃ limit,
     Main.main dir maxSize = Some (dir, limit) ∧
     - 2 ^ 63 <= limit < 2 ^ 63 ∧
     (maxSize < 2 ^ 33 -> limit = maxSize * 2 ^ 30 ∧ 0 < limit) ∧
     (limit = maxSize * 2 ^ 30 -> maxSize < 2 ^ 33)).
Proof.
  intros Hrange64. unfold Main.main. split.
  { intros [->|Hle]; [done|].
    assert ((maxSize <=? 0) = true) as -> by lia. by rewrite orb_true_r. }
  intros Hdir Hmax.
  assert (String.eqb dir EmptyString = false) as ->
    by by apply String.eqb_neq.
  assert ((maxSize <=? 0) = false) as -> by lia. simpl.
  eexists. split; [reflexivity|].
  assert (∀ z, - 2 ^ 63 <= Main.wrap64 z < 2 ^ 63) as Hrange.
  { intros z. unfold Main.wrap64.
    pose proof (Z.mod_pos_bound (z + 2 ^ 63) (2 ^ 64) ltac:(lia)). lia. }
  assert (∀ z, - 2 ^ 63 <= z < 2 ^ 63 -> Main.wrap64 z = z) as Hid.
  { intros z Hz. unfold Main.wrap64. rewrite Z.mod_small; lia. }
  split; [apply Hrange|]. split.
  - intros Hsmall. rewrite (Hid (maxSize * 1024)) by lia.
    rewrite (Hid (maxSize * 1024 * 1024)) by lia.
    rewrite (Hid (maxSize * 1024 * 1024 * 1024)) by lia. lia.
  - intros Heq.
    pose proof (Hrange (Main.wrap64 (Main.wrap64 (maxSize * 1024) * 1024)
                        * 1024)) as Hr.
    rewrite Heq in Hr. lia.
Qed.

End AccountingFacts.

(** * More scenarios, worked *)

Module MoreScenarios.
Import LRU Disk DiskMore Fixture MoreFixture.

Lemma started_consistent maxSizeBytes upstream :
  consistent (started maxSizeBytes upstream).
Proof. split; [apply NoDup_nil_2|apply Forall_nil_2]. Defined.

Lemma holdingA_consistent : consistent holdingA.
Proof.
  unfold holdingA. apply ConsistencyFacts.Put_agree, started_consistent.
Defined.





(** X4 at work, scenario S1: "a" is reported and served, one byte. *)
Lemma indexed_blob_is_served_S1 :
  ∃ data,
    fs holdingA !! cacheFilePath CAS (dir holdingA) digestA = Some data ∧
    1 = Z.of_nat (length data) ∧
    (Contains holdingA CAS digestA).1 = (true, 1) ∧
    (Disk.Get no_faults holdingA CAS digestA).1
    = (Some {| rd_data := data; rd_err := None |}, 1, None).
Proof.
  apply (ConsistencyFacts.indexed_blob_is_served no_faults holdingA CAS
           digestA {| size := 1; committed := true; ref := 0 |}).
  - exact holdingA_consistent.
  - reflexivity.
  - vm_compute; reflexivity.
  - intros call. reflexivity.
Defined.


(** X6 at work: "a" is fetched from the proxy, then served locally. *)
Lemma get_reads_through_A :
  let c := started 10 (Some holderOfA) in
  let final := cacheFilePath CAS (dir c) digestA in
  let res := Disk.Get no_faults c CAS digestA in
  let served := (Some {| rd_data := blobA; rd_err := None |},
                 Z.of_nat (length blobA), None) in
  res.1 = served ∧
  indexed res.2 (cacheKey CAS digestA)
  = Some {| size := Z.of_nat (length blobA); committed := true;
            ref := S (nextRef c) |} ∧
  fs res.2 !! final = Some blobA ∧
  fs res.2 !! (final +:+ ".tmp") = None ∧
  (Disk.Get no_faults res.2 CAS digestA).1 = served ∧
  trace (Disk.Get no_faults res.2 CAS digestA).2
  = trace res.2 ++ [EvStat final; EvOpen final; EvCacheHit].
Proof.
  apply (ProxyFacts.get_reads_through no_faults no_faults
           (started 10 (Some holderOfA)) CAS digestA holderOfA blobA);
    first [reflexivity | intros call; reflexivity | vm_compute; congruence].
Defined.


(** X9 at work, scenario S1: a hit changes neither file nor entry. *)
Lemma lookups_are_read_only_S1 :
  sameStore holdingA (Disk.Get no_faults holdingA CAS digestA).2 ∧
  sameStore holdingA
    (GetValidatedActionResult decodeAction decodeTree no_faults holdingA
       digestA).2.
Proof.
  apply (LookupFacts.lookups_are_read_only decodeAction decodeTree no_faults
           holdingA CAS digestA).
  reflexivity.
Defined.

(** X10 at work, scenario S1: "a" is committed once [Put] is over. *)
Lemma nothing_left_in_flight_S1 :
  inFlight holdingA (cacheKey CAS digestA) = false ∧
  ∀ it, indexed holdingA (cacheKey CAS digestA) = Some it ->
        committed it = true.
Proof.
  exact (LookupFacts.nothing_left_in_flight stand_in_hex decodeAction
           decodeTree holdingA (cacheKey CAS digestA)
           Scenarios.holdingA_reachable).
Defined.

(** X11 at work: the action result with an inline output file. *)
Lemma valid_result_is_the_stored_entry_inline :
  ∃ rdr sz,
    (Disk.Get no_faults (withAction ["2"%byte]) AC digestA).1
    = (Some rdr, sz, None) ∧ 0 < sz ∧
    rd_err rdr = None ∧ rd_data rdr = ["2"%byte] ∧
    decodeAction ["2"%byte] = Some (sampleAction true).
Proof.
  apply (LookupFacts.valid_result_is_the_stored_entry decodeAction decodeTree
           no_faults (withAction ["2"%byte]) digestA).
  vm_compute; reflexivity.
Defined.

(** X12 at work: an output file without contents and without digest. *)
Lemma missing_digest_panics_bare :
  (GetValidatedActionResult decodeBare decodeTree no_faults
     (withAction ["1"%byte]) digestA).1 = Panic.
Proof.
  apply (proj1 (LookupFacts.missing_digest_panics decodeBare decodeTree
                  no_faults (withAction ["1"%byte]) digestA
                  (stream ["1"%byte]) 1 bareAction
                  ltac:(vm_compute; reflexivity) ltac:(lia)
                  eq_refl eq_refl)
           [] {| file_Contents := []; file_Digest := None |} []);
    first [reflexivity | apply Forall_nil_2].
Defined.






Lemma legacyDisk_files b :
  is_Some (legacyDisk !! filepath_Join legacyRoot b) -> b = digestA.
Proof.
  unfold legacyDisk. intros Hsome.
  destruct (decide (b = digestA)) as [|Hne]; [done|].
  rewrite lookup_insert_ne, lookup_empty in Hsome.
  - by destruct Hsome.
  - intros Heq. by apply DiskFacts.Join_inj in Heq.
Defined.

(** X16 at work: the flat directory that holds "a" can be migrated. *)
Lemma migration_succeeds_exactly_when_A :
  ∃ files', Migrate.migrateDirectory no_faults legacyRoot legacyDisk
            = Migrate.MigrationDone files'.
Proof.
  apply (proj2 (MigrateFacts.migration_succeeds_exactly_when no_faults
                  legacyRoot legacyDisk)).
  split; [reflexivity|]. intros b _ Hsome.
  apply legacyDisk_files in Hsome as ->. split; [|reflexivity].
  vm_compute. lia.
Defined.

Lemma legacyDisk_migrated :
  ∃ files', Migrate.migrateDirectory no_faults legacyRoot legacyDisk
            = Migrate.MigrationDone files'.
Proof. eexists. vm_compute. reflexivity. Defined.

(** X17 at work: "a" is moved to where the two-level layout has it. *)
Lemma migration_moves_legacy_files_A :
  ∃ files',
    Migrate.migrateDirectory no_faults legacyRoot legacyDisk
    = Migrate.MigrationDone files' ∧
    files' !! cacheFilePath AC "/data" digestA = Some blobA ∧
    files' !! filepath_Join legacyRoot digestA = None.
Proof.
  destruct legacyDisk_migrated as [files' Hdone]. exists files'.
  split; [exact Hdone|].
  exact (proj1 (MigrateFacts.migration_moves_legacy_files no_faults
                  legacyRoot legacyDisk files' Hdone)
           digestA blobA eq_refl eq_refl).
Defined.

(** X18 at work: the directory that holds "a" in the two-level layout
    starts the same with and without the migration. *)
Lemma migrated_layout_needs_no_migration_A :
  Migrate.New no_faults "/data" 10 None diskWithA (fun _ => 0) =
    match New no_faults "/data" 10 None diskWithA (fun _ => 0) with
    | inl e => Migrate.StartupError e
    | inr c => Migrate.Started c
    end.
Proof.
  apply (MigrateFacts.migrated_layout_needs_no_migration no_faults "/data"
           10 None diskWithA (fun _ => 0));
    vm_compute; reflexivity.
Defined.



(** X20 at work: an action-cache entry stored under a key that is not
    the hash of its bytes. *)
Lemma healthy_put_then_get_AC :
  let res :=
    Put stand_in_hex no_faults (started 10 None) AC zeros
      (Z.of_nat (length blobAB)) {| rd_data := blobAB; rd_err := None |} in
  res.1.1 = None ∧
  (Disk.Get no_faults res.2 AC zeros).1
  = (Some {| rd_data := blobAB; rd_err := None |},
     Z.of_nat (length blobAB), None).
Proof.
  apply (HealthyFacts.healthy_put_then_get stand_in_hex no_faults no_faults
           (started 10 None) AC zeros blobAB).
  - reflexivity.
  - vm_compute; reflexivity.
  - vm_compute; congruence.
  - intros H; discriminate H.
  - intros call. reflexivity.
  - intros call. reflexivity.
Defined.

(** X21 at work, scenario S1: putting "a" again replaces the entry, and
    the statistics stay (1, 1). *)
Lemma put_accounting_S1 :
  Stats (Put stand_in_hex no_faults holdingA CAS digestA 1 (stream blobA)).2
  = ((Stats holdingA).1
     - from_option size 0 (indexed holdingA (cacheKey CAS digestA)) + 1,
     match indexed holdingA (cacheKey CAS digestA) with
     | Some _ => (Stats holdingA).2
     | None => S (Stats holdingA).2
     end).
Proof.
  apply (AccountingFacts.put_accounting stand_in_hex no_faults holdingA CAS
           digestA 1 (stream blobA)).
  - exact (ValidatorFacts.reachable_wf _ _ _ _ Scenarios.holdingA_reachable).
  - vm_compute; reflexivity.
  - vm_compute; reflexivity.
  - vm_compute; congruence.
Defined.

(** X22 at work: five GiB. *)
Lemma main_byte_limit_5 :
  ∃ limit,
    Main.main "/data" 5 = Some ("/data", limit) ∧
    - 2 ^ 63 <= limit < 2 ^ 63 ∧
    (5 < 2 ^ 33 -> limit = 5 * 2 ^ 30 ∧ 0 < limit) ∧
    (limit = 5 * 2 ^ 30 -> 5 < 2 ^ 33).
Proof.
  apply (proj2 (AccountingFacts.main_byte_limit "/data" 5 ltac:(lia)));
    [done|lia].
Defined.

(** X24 at work: a miss with a proxy configured asks it once. *)
Lemma get_asks_proxy_exactly_when_A :
  ∃ before after,
    trace (Disk.Get no_faults (started 10 (Some holderOfA)) CAS digestA).2
    = trace (started 10 (Some holderOfA)) ++ before ++
      (if bool_decide
            (indexed (started 10 (Some holderOfA)) (cacheKey CAS digestA)
             = None
             ∧ is_Some (proxy (started 10 (Some holderOfA)))
             ∧ 0 <= MaxSize (started 10 (Some holderOfA)))
       then [EvProxyGet CAS digestA] else []) ++ after ∧
    (∀ k h, EvProxyGet k h ∉ before ++ after).
Proof.
  apply (ProxyFacts.get_asks_proxy_exactly_when no_faults
           (started 10 (Some holderOfA)) CAS digestA).
  reflexivity.
Defined.

End MoreScenarios.
